(** * kon-blog-api: view counters, rate limiting, spam scoring, comment threads

    A shallow embedding of the TypeScript sources of the blog API
    (routes/pageviews.ts in its KV-cached version, db/pageviews.ts,
    db/comments.ts, routes/comments.ts, utils/ratelimit.ts and
    utils/spamfilter.ts, with the tables of migrations 0001 and 0002),
    followed by the properties that the design document states about them.

    Conventions of the embedding
    - A JavaScript string is a sequence of UTF-16 code units; the model keeps
      the code units below U+0100, one [ascii] per code unit.
    - A JavaScript number that holds a count is a [Z] (counts stay within the
      integers that a number holds exactly); [NaN] is kept apart ([jsnum])
      because [parseInt] can produce it.
    - A [Record<string, number>] is a [gmap string _]: its own properties.
      Its prototype is [Object.prototype]: a property read that finds no
      own property reaches the members of the prototype, and an assignment
      under [__proto__] runs the prototype's setter ([JSObject]).
    - The D1 database and the KV namespace are explicit states, and every
      awaited statement is one transition of that state.  The clock
      ([Date.now()], in milliseconds) is an argument of whatever reads it.
      Calls to D1 and KV are taken to succeed, so the [catch] branches that
      log and continue are not reached; the expiry of KV entries is not
      modelled, an expired entry being an absent one.
    - [c.executionCtx.waitUntil(p)] hands the runtime a task to finish after
      the response: a handler returns the list of such tasks, and [settle]
      runs them.  The runtime carries a task out at some later point, which
      may be after further requests: [ViewIngestion.increments] keeps the
      tasks that are outstanding. *)

From Stdlib Require Import ZArith String Ascii List Bool Lia.
From stdpp Require Import gmap strings list sorting.

Local Open Scope Z_scope.

(* ===================================================================== *)
(** ** JavaScript strings and numbers *)
(* ===================================================================== *)

Module JS.

(** Code unit of a character. *)
Definition code (c : ascii) : N := N_of_ascii c.

(** [String.prototype.toLowerCase] on code units below U+0100: the ASCII
    capitals and the Latin-1 capitals U+00C0..U+00DE (U+00D7 is the
    multiplication sign) move up by 32, everything else is unchanged. *)
Definition lower_char (c : ascii) : ascii :=
  let n := code c in
  if ((65 <=? n) && (n <=? 90))%N
     || ((192 <=? n) && (n <=? 222) && negb (n =? 215))%N
  then ascii_of_N (n + 32) else c.

Fixpoint toLowerCase (s : string) : string :=
  match s with
  | EmptyString => EmptyString
  | String c s' => String (lower_char c) (toLowerCase s')
  end.

(** [s.startsWith(p)]. *)
Fixpoint startsWith (s p : string) : bool :=
  match p, s with
  | EmptyString, _ => true
  | String _ _, EmptyString => false
  | String a p', String b s' => Ascii.eqb a b && startsWith s' p'
  end.

(** [s.includes(p)]: [p] occurs in [s] at some position. *)
Fixpoint includes (s p : string) : bool :=
  startsWith s p ||
  match s with
  | EmptyString => false
  | String _ s' => includes s' p
  end.

(** White space and line terminators below U+0100 (what [\s] matches and
    what [trim] removes): TAB, LF, VT, FF, CR, SP, NBSP. *)
Definition is_space (c : ascii) : bool :=
  let n := code c in
  ((9 <=? n) && (n <=? 13) || (n =? 32) || (n =? 160))%N.

(** Line terminators below U+0100 (what [.] does not match): LF, CR. *)
Definition is_line_terminator (c : ascii) : bool :=
  let n := code c in ((n =? 10) || (n =? 13))%N.

Fixpoint trimStart (s : string) : string :=
  match s with
  | String c s' => if is_space c then trimStart s' else s
  | EmptyString => EmptyString
  end.

Fixpoint trimEnd (s : string) : string :=
  match s with
  | EmptyString => EmptyString
  | String c s' =>
      match trimEnd s' with
      | EmptyString => if is_space c then EmptyString else String c EmptyString
      | t => String c t
      end
  end.

Definition trim (s : string) : string := trimEnd (trimStart s).

(** [s.length] as a number. *)
Definition length (s : string) : Z := Z.of_nat (String.length s).

(** A JavaScript number that is an integer, or [NaN]. *)
Inductive jsnum : Type :=
| Num (z : Z)
| NaN.

Definition is_digit (c : ascii) : bool :=
  let n := code c in ((48 <=? n) && (n <=? 57))%N.

Definition digit_value (c : ascii) : Z := Z.of_N (code c) - 48.

Definition digit_char (d : Z) : ascii := ascii_of_N (Z.to_N (48 + d)).

(** The longest prefix of decimal digits of [s], read with accumulator
    [acc]; [None] when [s] does not start with a digit. *)
Fixpoint read_digits (s : string) (acc : option Z) : option Z :=
  match s with
  | String c s' =>
      if is_digit c
      then read_digits s' (Some (10 * default 0 acc + digit_value c))
      else acc
  | EmptyString => acc
  end.

(** [parseInt(s, 10)]: skip leading white space, an optional sign, then
    the longest run of digits; [NaN] when there is no digit. *)
Definition parseInt (s : string) : jsnum :=
  let s := trimStart s in
  let '(negative, s) :=
    match s with
    | String "-"%char r => (true, r)
    | String "+"%char r => (false, r)
    | _ => (false, s)
    end in
  match read_digits s None with
  | Some n => Num (if negative then - n else n)
  | None => NaN
  end.

(** Decimal digits of a non-negative integer, most significant first,
    in front of [acc]. *)
Fixpoint digits_of (fuel : nat) (n : Z) (acc : string) : string :=
  let acc' := String (digit_char (n mod 10)) acc in
  match fuel with
  | O => acc'
  | S fuel' => if n <? 10 then acc' else digits_of fuel' (n / 10) acc'
  end.

(** [n.toString()] for an integer [n]. *)
Definition toString (n : Z) : string :=
  if n <? 0
  then String "-"%char (digits_of (Z.to_nat (Z.log2 (- n))) (- n) EmptyString)
  else digits_of (Z.to_nat (Z.log2 n)) n EmptyString.

(** [a || b] on optional header values: the first that is defined and
    not the empty string. *)
Definition or_else (a : option string) (b : string) : string :=
  match a with
  | Some s => if String.eqb s EmptyString then b else s
  | None => b
  end.

End JS.

(* ===================================================================== *)
(** ** Regular expressions (the fragment the sources use) *)
(* ===================================================================== *)

Module RegExp.

(** Pattern syntax: literals, character classes, sequence, alternation,
    and the greedy quantifiers [?], [{0,n}] and [+] on a class. *)
Inductive pattern : Type :=
| Eps                             (* the empty pattern *)
| Lit (c : ascii)                 (* a literal character *)
| Dot                             (* [.] *)
| Cat (p q : pattern)             (* [pq] *)
| Alt (p q : pattern)             (* [p|q] *)
| Opt (p : pattern)               (* [p?] *)
| DotUpTo (n : nat)               (* [.{0,n}] *)
| NonSpacePlus.                   (* [\S+] *)

(** A literal word as a sequence of literals. *)
Fixpoint str (w : string) : pattern :=
  match w with
  | EmptyString => Eps
  | String c w' => Cat (Lit c) (str w')
  end.

(** Canonicalisation of the [i] flag: ASCII letters compare by their
    upper case; other code units below U+0100 never fold onto ASCII. *)
Definition canon (icase : bool) (c : ascii) : ascii :=
  let n := JS.code c in
  if icase && ((97 <=? n) && (n <=? 122))%N then ascii_of_N (n - 32) else c.

Definition dot_char (c : ascii) : bool := negb (JS.is_line_terminator c).

(** [.{0,n}] followed by [k], greedy: take a character when possible and
    give it back when the continuation fails. *)
Fixpoint dots (n : nat) (k : string → option string) (s : string)
  : option string :=
  match n, s with
  | S n', String c s' =>
      if dot_char c
      then match dots n' k s' with
           | Some r => Some r
           | None => k s
           end
      else k s
  | _, _ => k s
  end.

(** [\S*] followed by [k], greedy. *)
Fixpoint nonspaces (k : string → option string) (s : string)
  : option string :=
  match s with
  | String c s' =>
      if negb (JS.is_space c)
      then match nonspaces k s' with
           | Some r => Some r
           | None => k s
           end
      else k s
  | EmptyString => k s
  end.

(** Backtracking matcher anchored at the start of [s]: [run p k s] is the
    input left by the first successful way of matching [p] and then [k],
    alternatives tried in the order of ECMAScript. *)
Fixpoint run (icase : bool) (p : pattern) (k : string → option string)
  (s : string) : option string :=
  match p with
  | Eps => k s
  | Lit a =>
      match s with
      | String c s' =>
          if Ascii.eqb (canon icase a) (canon icase c) then k s' else None
      | EmptyString => None
      end
  | Dot =>
      match s with
      | String c s' => if dot_char c then k s' else None
      | EmptyString => None
      end
  | Cat p q => run icase p (run icase q k) s
  | Alt p q =>
      match run icase p k s with
      | Some r => Some r
      | None => run icase q k s
      end
  | Opt p =>
      match run icase p k s with
      | Some r => Some r
      | None => k s
      end
  | DotUpTo n => dots n k s
  | NonSpacePlus =>
      match s with
      | String c s' => if negb (JS.is_space c) then nonspaces k s' else None
      | EmptyString => None
      end
  end.

(** A match of [p] at the start of [s]: the input after the match. *)
Definition match_here (icase : bool) (p : pattern) (s : string)
  : option string :=
  run icase p Some s.

(** [re.test(s)]: some position of [s] starts a match. *)
Fixpoint test (icase : bool) (p : pattern) (s : string) : bool :=
  match match_here icase p s with
  | Some _ => true
  | None =>
      match s with
      | String _ s' => test icase p s'
      | EmptyString => false
      end
  end.

(** Scan of a global ([g]) pattern: the leftmost match, then the leftmost
    match in what follows it, and so on.  [scan] returns the number of
    matches and the text outside the matches.  [fuel] bounds the number of
    positions visited; an empty match advances by one position. *)
Fixpoint scan (fuel : nat) (icase : bool) (p : pattern) (s : string)
  : nat * string :=
  match fuel with
  | O => (O, s)
  | S fuel' =>
      match match_here icase p s with
      | Some rest =>
          if (String.length rest <? String.length s)%nat
          then let '(n, out) := scan fuel' icase p rest in (S n, out)
          else
            match s with
            | String c s' =>
                let '(n, out) := scan fuel' icase p s' in (S n, String c out)
            | EmptyString => (1%nat, EmptyString)
            end
      | None =>
          match s with
          | String c s' =>
              let '(n, out) := scan fuel' icase p s' in (n, String c out)
          | EmptyString => (O, EmptyString)
          end
      end
  end.

(** [(s.match(re) || []).length] for a global pattern. *)
Definition match_count (icase : bool) (p : pattern) (s : string) : Z :=
  Z.of_nat (fst (scan (S (String.length s)) icase p s)).

(** [s.replace(re, empty)] for a global pattern: the matches removed. *)
Definition remove_all (icase : bool) (p : pattern) (s : string) : string :=
  snd (scan (S (String.length s)) icase p s).

End RegExp.

(* ===================================================================== *)
(** ** utils/spamfilter.ts *)
(* ===================================================================== *)

Module SpamFilter.
Import RegExp.

Definition SPAM_KEYWORDS : list string :=
  [ "viagra"; "casino"; "poker"; "lottery"; "click here"; "buy now";
    "make money"; "earn extra cash"; "weight loss"; "diet pill";
    "credit card"; "free gift"; "act now"; "limited time"; "urgent";
    "winner"; "congratulations" ]%string.

(** [https?:\/\/], also written [http[s]?:\/\/]. *)
Definition scheme : pattern :=
  Cat (str "http") (Cat (Opt (Lit "s")) (str "://")).

(** [/\[url=|http[s]?:\/\/.{0,10}bit\.ly|http[s]?:\/\/.{0,10}tinyurl/i] *)
Definition SUSPICIOUS_LINKS : pattern :=
  Alt (str "[url=")
    (Alt (Cat scheme (Cat (DotUpTo 10) (str "bit.ly")))
         (Cat scheme (Cat (DotUpTo 10) (str "tinyurl")))).

(** [/https?:\/\//g] *)
Definition LINK_START : pattern := scheme.

(** [/https?:\/\/\S+/g] *)
Definition LINK : pattern := Cat scheme NonSpacePlus.

Record SpamCheckResult : Type := {
  isSpam : bool;
  reason : option string;
  score : Z;
}.

(** The [reason] text of a positive result (UTF-8 bytes of the source's
    literal). *)
Definition SPAM_REASON : string := "疑似垃圾内容".

Definition checkSpam (content authorName : string) : SpamCheckResult :=
  let score := 0 in
  let lowerContent := JS.toLowerCase content in
  let lowerName := JS.toLowerCase authorName in
  (* for (const keyword of SPAM_KEYWORDS) *)
  let score :=
    fold_left
      (fun score keyword =>
         if JS.includes lowerContent keyword then score + 2 else score)
      SPAM_KEYWORDS score in
  let score := if test true SUSPICIOUS_LINKS content then score + 3 else score in
  let linkCount := match_count false LINK_START content in
  let score := if 3 <? linkCount then score + linkCount else score in
  let score := if JS.length content <? 5 then score + 1 else score in
  let score := if 5000 <? JS.length content then score + 1 else score in
  let textWithoutLinks := JS.trim (remove_all false LINK content) in
  let score :=
    if (JS.length textWithoutLinks <? 10) && (0 <? linkCount)
    then score + 3 else score in
  if 3 <=? score
  then {| isSpam := true; reason := Some SPAM_REASON; score := score |}
  else {| isSpam := false; reason := None; score := score |}.

End SpamFilter.

(* ===================================================================== *)
(** ** Time stamps as text *)
(* ===================================================================== *)

(** The clock is the number of milliseconds since the epoch ([Date.now()]).
    SQLite's [CURRENT_TIMESTAMP] and [datetime('now')] print it as
    [YYYY-MM-DD HH:MM:SS]; JavaScript's [toISOString] prints it as
    [YYYY-MM-DDTHH:MM:SS.sssZ].  Both are in UTC and of fixed width.  The
    calendar below walks the years from 1970, up to [YEARS] of them. *)
Module Time.

Definition is_leap (y : Z) : bool :=
  (y mod 4 =? 0) && (negb (y mod 100 =? 0) || (y mod 400 =? 0)).

Definition year_length (y : Z) : Z := if is_leap y then 366 else 365.

(** The year and the day of the year of a day counted from 1 January of
    [y]; [fuel] bounds the number of years walked. *)
Fixpoint year_from (fuel : nat) (y : Z) (days : Z) : Z * Z :=
  match fuel with
  | O => (y, days)
  | S fuel' =>
      if days <? year_length y then (y, days)
      else year_from fuel' (y + 1) (days - year_length y)
  end.

Definition month_lengths (y : Z) : list Z :=
  [31; if is_leap y then 29 else 28; 31; 30; 31; 30; 31; 31; 30; 31; 30; 31].

(** The month and the day of the month of a day of the year, walking the
    months from month [m] on. *)
Fixpoint month_from (lengths : list Z) (m : Z) (day : Z) : Z * Z :=
  match lengths with
  | [] => (m, day + 1)
  | len :: rest =>
      if day <? len then (m, day + 1) else month_from rest (m + 1) (day - len)
  end.

(** The years walked from 1970: up to 9999. *)
Definition YEARS : nat := Z.to_nat 8029.

(** Civil date of a day number (days since 1970-01-01). *)
Definition civil_from_days (days : Z) : Z * Z * Z :=
  let '(y, doy) := year_from YEARS 1970 days in
  let '(m, d) := month_from (month_lengths y) 1 doy in
  (y, m, d).

Definition pad2 (n : Z) : string :=
  String (JS.digit_char (n / 10 mod 10))
    (String (JS.digit_char (n mod 10)) EmptyString).

Definition pad3 (n : Z) : string :=
  String (JS.digit_char (n / 100 mod 10)) (pad2 n).

Definition pad4 (n : Z) : string :=
  String (JS.digit_char (n / 1000 mod 10)) (pad3 n).

(** [YYYY-MM-DD] of a day number. *)
Definition date_text (days : Z) : string :=
  let '(y, m, d) := civil_from_days days in
  (pad4 y ++ "-" ++ pad2 m ++ "-" ++ pad2 d)%string.

(** [HH:MM:SS] of a second of the day. *)
Definition time_text (sec : Z) : string :=
  (pad2 (sec / 3600) ++ ":" ++ pad2 (sec / 60 mod 60) ++ ":"
     ++ pad2 (sec mod 60))%string.

(** SQLite: the text of the second [sec] since the epoch, as [datetime]
    and [CURRENT_TIMESTAMP] print it. *)
Definition datetime (sec : Z) : string :=
  (date_text (sec / 86400) ++ " " ++ time_text (sec mod 86400))%string.

(** SQLite: [CURRENT_TIMESTAMP] and [datetime('now')] at clock [now]. *)
Definition CURRENT_TIMESTAMP (now : Z) : string := datetime (now / 1000).

(** SQLite: [datetime('now', '-5 minutes')] at clock [now]. *)
Definition five_minutes_ago (now : Z) : string := datetime (now / 1000 - 300).

(** JavaScript: [new Date(ms).toISOString()]. *)
Definition toISOString (ms : Z) : string :=
  (date_text (ms / 86400000) ++ "T" ++ time_text (ms / 1000 mod 86400)
     ++ "." ++ pad3 (ms mod 1000) ++ "Z")%string.

(** SQLite compares two TEXT values byte by byte ([a > b]). *)
Definition text_gt (a b : string) : bool := String.ltb b a.

End Time.

(* ===================================================================== *)
(** ** The D1 database (migrations 0001 and 0002) *)
(* ===================================================================== *)

Module D1.

(** A row of [page_views], keyed by its unique [slug]. *)
Record PageView : Type := {
  view_count : Z;
  pv_updated_at : string;
}.

Inductive Status : Type := pending | approved | spam | rejected.

(** A row of [comments].  Row ids come from AUTOINCREMENT and are
    positive; a NULL column is [None]. *)
Record Comment : Type := {
  id : positive;
  slug : string;
  parent_id : option positive;
  author_name : string;
  author_email : option string;
  author_website : option string;
  content : string;
  status : Status;
  ip_hash : string;
  user_agent : string;
  created_at : string;
  updated_at : string;
}.

(** The database: [page_views] by slug, [rate_limits] by key (the value
    is [created_at]), the rows of [comments] in insertion order, and the
    last row id AUTOINCREMENT handed out.  Time stamps are the TEXT values
    that SQLite stores. *)
Record Database : Type := {
  page_views : gmap string PageView;
  rate_limits : gmap string string;
  comments : list Comment;
  comments_seq : N;
}.

Definition empty : Database :=
  {| page_views := ∅; rate_limits := ∅; comments := []; comments_seq := 0%N |}.

Definition set_page_views (f : gmap string PageView → gmap string PageView)
  (db : Database) : Database :=
  {| page_views := f (page_views db); rate_limits := rate_limits db;
     comments := comments db; comments_seq := comments_seq db |}.

Definition set_rate_limits (f : gmap string string → gmap string string)
  (db : Database) : Database :=
  {| page_views := page_views db; rate_limits := f (rate_limits db);
     comments := comments db; comments_seq := comments_seq db |}.

Definition set_status (st : Status) (c : Comment) : Comment :=
  {| id := id c; slug := slug c; parent_id := parent_id c;
     author_name := author_name c; author_email := author_email c;
     author_website := author_website c; content := content c;
     status := st; ip_hash := ip_hash c; user_agent := user_agent c;
     created_at := created_at c; updated_at := updated_at c |}.

Definition set_updated_at (t : string) (c : Comment) : Comment :=
  {| id := id c; slug := slug c; parent_id := parent_id c;
     author_name := author_name c; author_email := author_email c;
     author_website := author_website c; content := content c;
     status := status c; ip_hash := ip_hash c; user_agent := user_agent c;
     created_at := created_at c; updated_at := t |}.

End D1.

(* ===================================================================== *)
(** ** JavaScript objects *)
(* ===================================================================== *)

Module JSObject.

(** The objects of the routes ([views], [found], [dbResults], [result] and
    the value of [JSON.parse]) are made by an object literal, a spread or
    [JSON.parse]: a [gmap] holds their own properties, and their prototype
    is [Object.prototype].  These are the names of its members. *)
Definition Object_prototype : list string :=
  [ "constructor"; "__defineGetter__"; "__defineSetter__"; "hasOwnProperty";
    "__lookupGetter__"; "__lookupSetter__"; "isPrototypeOf";
    "propertyIsEnumerable"; "toString"; "valueOf"; "__proto__";
    "toLocaleString" ]%string.

(** What a property read finds. *)
Inductive Read (A : Type) : Type :=
| own (a : A)     (* the object's own property *)
| inherited       (* the member of [Object.prototype] of that name: a
                     function, and under [__proto__] the prototype itself *)
| undefined.

Arguments own {A} a.
Arguments inherited {A}.
Arguments undefined {A}.

(** [o[k]]: the own property, else the member of the prototype. *)
Definition get {A : Type} (o : gmap string A) (k : string) : Read A :=
  match o !! k with
  | Some a => own a
  | None =>
      if bool_decide (k ∈ Object_prototype) then inherited else undefined
  end.

(** [r !== undefined]. *)
Definition defined {A : Type} (r : Read A) : bool :=
  match r with
  | undefined => false
  | _ => true
  end.

(** [o[k] = a].  An own property is overwritten.  Without one the
    assignment creates it (the members of [Object.prototype] are writable),
    except under [__proto__], where it runs the setter of the prototype: the
    setter ignores a number, and given the prototype itself, the one other
    value that this code assigns under that name, it leaves the object as
    it is. *)
Definition set {A : Type} (o : gmap string A) (k : string) (a : A)
  : gmap string A :=
  match o !! k with
  | Some _ => <[k := a]> o
  | None => if String.eqb k "__proto__" then o else <[k := a]> o
  end.

(** What the object of a response holds under a name: a number, or the
    member of [Object.prototype] of that name. *)
Inductive value : Type :=
| number (n : JS.jsnum)
| member.

(** The object as [c.json] writes it ([JSON.stringify]): the own
    properties, those that hold a function left out. *)
Definition json (o : gmap string value) : gmap string JS.jsnum :=
  omap (λ v, match v with number n => Some n | member => None end) o.

End JSObject.

(* ===================================================================== *)
(** ** db/pageviews.ts *)
(* ===================================================================== *)

Module PageViewRepository.
Import D1.

(** [increment(slug)]: one statement,
    [INSERT INTO page_views (slug, view_count, updated_at)
     VALUES (?, 1, datetime('now'))
     ON CONFLICT(slug) DO UPDATE SET view_count = view_count + 1,
                                     updated_at = datetime('now')
     RETURNING view_count],
    then [result?.view_count ?? 0]. *)
Definition increment (now : Z) (slug : string) (db : Database)
  : Database * Z :=
  let row :=
    match page_views db !! slug with
    | None =>
        {| view_count := 1; pv_updated_at := Time.CURRENT_TIMESTAMP now |}
    | Some old =>
        {| view_count := view_count old + 1;
           pv_updated_at := Time.CURRENT_TIMESTAMP now |}
    end in
  let result := Some row in
  (set_page_views <[slug := row]> db, from_option view_count 0 result).

(** [get(slug)]: [SELECT view_count FROM page_views WHERE slug = ?], then
    [result?.view_count ?? 0]. *)
Definition get (slug : string) (db : Database) : Z :=
  let result := page_views db !! slug in
  from_option view_count 0 result.

(** [getMany(slugs)]:
    [SELECT slug, view_count FROM page_views WHERE slug IN (...)], then
    [views[row.slug] = row.view_count] for every row of the result. *)
Definition getMany (slugs : list string) (db : Database) : gmap string Z :=
  match slugs with
  | [] => ∅
  | _ =>
      let results := filter (λ row, row.1 ∈ slugs) (page_views db) in
      map_fold (λ slug row views, JSObject.set views slug (view_count row))
        ∅ results
  end.

End PageViewRepository.

(* ===================================================================== *)
(** ** utils/ratelimit.ts *)
(* ===================================================================== *)

Module RateLimit.
Import D1.

Definition RATE_LIMIT_WINDOW : Z := 60 * 1000.
Definition RATE_LIMIT_MAX : Z := 5.

Record Result : Type := { allowed : bool; remaining : Z }.

(** [checkRateLimit(db, ipHash)]:
    [SELECT COUNT( * ) as count FROM comments
     WHERE ip_hash = ? AND created_at > ?] bound to [ipHash] and to
    [new Date(Date.now() - RATE_LIMIT_WINDOW).toISOString()].  The column
    holds the text that [CURRENT_TIMESTAMP] stored and the parameter is a
    text, so SQLite compares the two as texts. *)
Definition checkRateLimit (now : Z) (db : Database) (ipHash : string)
  : Result :=
  let windowStart := Time.toISOString (now - RATE_LIMIT_WINDOW) in
  let count :=
    Z.of_nat
      (length
         (filter
            (λ c, ip_hash c = ipHash
                  ∧ Time.text_gt (created_at c) windowStart = true)
            (comments db))) in
  {| allowed := count <? RATE_LIMIT_MAX;
     remaining := Z.max 0 (RATE_LIMIT_MAX - count) |}.

End RateLimit.

(* ===================================================================== *)
(** ** routes/pageviews.ts (KV-cached version) *)
(* ===================================================================== *)

Module PageViewsRoute.
Import D1.

(** The KV namespace [VIEW_KV]: text values by key.  Entries are written
    with an expiry ([expirationTtl]); an expired entry is an absent one. *)
Abbreviation KVNamespace := (gmap string string).

Definition KV_PREFIX : string := "views:v1:".
Definition KV_BATCH_PREFIX : string := "views:batch:v1:".

(** Work handed to [c.executionCtx.waitUntil]. *)
Inductive Task : Type :=
| WriteToKV (slug : string) (count : Z)
| WriteManyToKV (views : gmap string Z).

Inductive Response : Type :=
| Invalid                       (* 400 { success: false, message } *)
| Batch (views : gmap string JS.jsnum) (_cache : string)
                                (* 200 { success: true, views, _cache },
                                   [views] as [c.json] writes it *)
| Limited (view_count : JS.jsnum)
                                (* 200 { success: true, view_count,
                                         cached: true, message } *)
| Counted (view_count : Z)      (* 200 { success: true, view_count } *)
| View (slug : string) (view_count : JS.jsnum) (_cache : string).
                                (* 200 { success: true, slug, view_count,
                                         _cache } *)

Definition status_code (r : Response) : Z :=
  match r with
  | Invalid => 400
  | _ => 200
  end.

Record Request : Type := {
  param_slug : string;                  (* c.req.param("slug") *)
  CF_Connecting_IP : option string;     (* request headers *)
  X_Forwarded_For : option string;
}.

Record RateLimitResult : Type := { allowed : bool; remaining : Z }.

(** [checkRateLimit(db, ipHash, slug)]:
    [SELECT created_at FROM rate_limits
     WHERE key = ? AND created_at > datetime('now', '-5 minutes')] for the
    key [`${ipHash}:${slug}`], then, when there is no such record,
    [INSERT OR REPLACE INTO rate_limits (key, created_at)
     VALUES (?, datetime('now'))]. *)
Definition checkRateLimit (now : Z) (db : Database) (ipHash slug : string)
  : Database * RateLimitResult :=
  let key := (ipHash ++ ":" ++ slug)%string in
  let existing :=
    match rate_limits db !! key with
    | Some created_at =>
        if Time.text_gt created_at (Time.five_minutes_ago now)
        then Some created_at else None
    | None => None
    end in
  match existing with
  | Some _ => (db, {| allowed := false; remaining := 0 |})
  | None =>
      (set_rate_limits <[key := Time.CURRENT_TIMESTAMP now]> db,
       {| allowed := true; remaining := 1 |})
  end.

(** [getFromKV(kv, slug)]; [None] is [null]. *)
Definition getFromKV (kv : KVNamespace) (slug : string) : option JS.jsnum :=
  match kv !! (KV_PREFIX ++ slug)%string with
  | Some value => Some (JS.parseInt value)
  | None => None
  end.

(** [writeToKV(kv, slug, count)]. *)
Definition writeToKV (kv : KVNamespace) (slug : string) (count : Z)
  : KVNamespace :=
  <[(KV_PREFIX ++ slug)%string := JS.toString count]> kv.

(** [slugs.slice().sort()]: the default order of [sort] is the order of
    the code units. *)
Definition sorted (slugs : list string) : list string :=
  merge_sort String.le slugs.

Definition batchCacheKey (slugs : list string) : string :=
  (KV_BATCH_PREFIX ++ String.concat "," (sorted slugs))%string.

Section Handlers.
(** [hashString]: the hex text of the SHA-256 digest. *)
Variable hashString : string → string.
(** [JSON.parse] of a cached aggregate: the object it denotes, [None]
    when the text does not parse to an object of numbers. *)
Variable JSON_parse : string → option (gmap string JS.jsnum).

(** The first part of [getManyFromKV]: the cached aggregate of the
    request, when there is one and it has every requested slug. *)
Definition cachedAggregate (kv : KVNamespace) (slugs : list string)
  : option (gmap string JS.jsnum) :=
  let cacheKey := batchCacheKey slugs in
  match kv !! cacheKey with
  | Some cached =>
      if String.eqb cached EmptyString then None
      else
        match JSON_parse cached with
        | Some data =>
            let hasAll :=
              forallb (λ slug, JSObject.defined (JSObject.get data slug))
                slugs in
            if hasAll then Some data else None
        | None => None
        end
  | None => None
  end.

(** The callback of the second part: one slug read on its own.  The
    callbacks run under [Promise.all] and finish in some order; the model
    takes the order of [slugs].  Only the order of [missing] depends on it,
    and what follows reads [missing] through its length and an IN list. *)
Definition readOne (kv : KVNamespace)
  (acc : gmap string JS.jsnum * list string) (slug : string)
  : gmap string JS.jsnum * list string :=
  let '(found, missing) := acc in
  match getFromKV kv slug with
  | Some value => (JSObject.set found slug value, missing)
  | None => (found, missing ++ [slug])
  end.

(** [getManyFromKV(kv, slugs)]. *)
Definition getManyFromKV (kv : KVNamespace) (slugs : list string)
  : gmap string JS.jsnum * list string :=
  match cachedAggregate kv slugs with
  | Some data => (data, [])
  | None => fold_left (readOne kv) slugs (∅, [])
  end.

(** [writeManyToKV(kv, views)]: [writeToKV] for every entry. *)
Definition writeManyToKV (kv : KVNamespace) (views : gmap string Z)
  : KVNamespace :=
  map_fold (λ slug count kv, writeToKV kv slug count) kv views.

Definition run_task (kv : KVNamespace) (t : Task) : KVNamespace :=
  match t with
  | WriteToKV slug count => writeToKV kv slug count
  | WriteManyToKV views => writeManyToKV kv views
  end.

(** The runtime finishing the tasks of a request. *)
Definition settle (tasks : list Task) (kv : KVNamespace) : KVNamespace :=
  fold_left run_task tasks kv.

(** [a ?? b ?? 0] of two property reads: the first that is not
    [undefined]. *)
Definition coalesce (a : JSObject.Read JS.jsnum) (b : JSObject.Read Z)
  : JSObject.value :=
  match a with
  | JSObject.own x => JSObject.number x
  | JSObject.inherited => JSObject.member
  | JSObject.undefined =>
      match b with
      | JSObject.own y => JSObject.number (JS.Num y)
      | JSObject.inherited => JSObject.member
      | JSObject.undefined => JSObject.number (JS.Num 0)
      end
  end.

(** GET /batch, from the list of slugs on.  [result] starts as the spread
    [{ ...found }], the own properties of [found]. *)
Definition getViewsBatch (slugs : list string) (db : Database)
  (kv : KVNamespace) : Response * list Task :=
  if bool_decide (length slugs = 0%nat) || bool_decide (100 < length slugs)%nat
  then (Invalid, [])
  else
    let '(found, missing) := getManyFromKV kv slugs in
    let '(dbResults, tasks) :=
      if bool_decide (0 < length missing)%nat
      then
        let dbResults := PageViewRepository.getMany missing db in
        (dbResults, [WriteManyToKV dbResults])
      else (∅, []) in
    let result :=
      fold_left
        (λ result slug,
           JSObject.set result slug
             (coalesce (JSObject.get found slug) (JSObject.get dbResults slug)))
        slugs (JSObject.number <$> found) in
    (Batch (JSObject.json result)
       (if bool_decide (length missing = 0%nat) then "kv" else "mixed"),
     tasks).

(** [s.split(",")]. *)
Fixpoint split_comma (s : string) : list string :=
  match s with
  | EmptyString => [EmptyString]
  | String c s' =>
      if Ascii.eqb c ","
      then EmptyString :: split_comma s'
      else
        match split_comma s' with
        | h :: t => String c h :: t
        | [] => [String c EmptyString]
        end
  end.

(** GET /batch: [slugs] is the query parameter. *)
Definition get_batch (slugsParam : option string) (db : Database)
  (kv : KVNamespace) : Response * list Task :=
  let slugs :=
    match slugsParam with
    | Some p =>
        if String.eqb p EmptyString then []
        else filter (λ s, s ≠ EmptyString) (split_comma p)
    | None => []
    end in
  getViewsBatch slugs db kv.

(** The slug check of POST /:slug. *)
Definition invalid_post_slug (slug : string) : bool :=
  String.eqb slug EmptyString
  || (500 <? JS.length slug)
  || JS.includes slug ".."
  || JS.startsWith slug "/".

(** POST /:slug. *)
Definition incrementView (now : Z) (req : Request) (db : Database)
  (kv : KVNamespace) : Response * Database * list Task :=
  let slug := param_slug req in
  if invalid_post_slug slug then (Invalid, db, [])
  else
    let ip :=
      JS.or_else (CF_Connecting_IP req)
        (JS.or_else (X_Forwarded_For req) "unknown") in
    let ipHash := hashString ip in
    let '(db, rateLimit) := checkRateLimit now db ipHash slug in
    if negb (allowed rateLimit)
    then
      let count :=
        match getFromKV kv slug with
        | Some count => count
        | None => JS.Num (PageViewRepository.get slug db)
        end in
      (Limited count, db, [])
    else
      let '(db, count) := PageViewRepository.increment now slug db in
      (Counted count, db, [WriteToKV slug count]).

(** GET /:slug.  [_cache] is computed after the fallback has filled
    [count], so it always reads ["kv"]. *)
Definition getView (slug : string) (db : Database) (kv : KVNamespace)
  : Response * list Task :=
  if String.eqb slug EmptyString || (500 <? JS.length slug)
  then (Invalid, [])
  else
    match getFromKV kv slug with
    | Some count => (View slug count "kv", [])
    | None =>
        let count := PageViewRepository.get slug db in
        (View slug (JS.Num count) "kv", [WriteToKV slug count])
    end.

(** A request served to its end: the handler, then its tasks. *)
Definition serve_incrementView (now : Z) (req : Request)
  (st : Database * KVNamespace) : Response * (Database * KVNamespace) :=
  let '(resp, db, tasks) := incrementView now req st.1 st.2 in
  (resp, (db, settle tasks st.2)).

Definition serve_getView (slug : string) (st : Database * KVNamespace)
  : Response * (Database * KVNamespace) :=
  let '(resp, tasks) := getView slug st.1 st.2 in
  (resp, (st.1, settle tasks st.2)).

Definition serve_getViewsBatch (slugs : list string)
  (st : Database * KVNamespace) : Response * (Database * KVNamespace) :=
  let '(resp, tasks) := getViewsBatch slugs st.1 st.2 in
  (resp, (st.1, settle tasks st.2)).

End Handlers.

End PageViewsRoute.

(* ===================================================================== *)
(** ** db/comments.ts *)
(* ===================================================================== *)

Module CommentRepository.
Import D1.

Record CreateCommentInput : Type := {
  in_author_name : string;
  in_author_email : option string;
  in_author_website : option string;
  in_content : string;
  in_parent_id : option positive;
}.

(** [x || null] of an optional text. *)
Definition or_null (x : option string) : option string :=
  match x with
  | Some s => if String.eqb s EmptyString then None else Some s
  | None => None
  end.

Definition last_rowid (rows : list Comment) : N :=
  foldr (λ c m, N.max (Npos (id c)) m) 0%N rows.

(** [create(slug, input, ipHash, userAgent)]: one INSERT ... RETURNING *.
    The row gets the next AUTOINCREMENT id, the default status and the
    current time stamps; the statement fails ([None], the handler's
    [catch]) when [parent_id] names no row (the FOREIGN KEY). *)
Definition create (now : Z) (slug : string) (input : CreateCommentInput)
  (ipHash userAgent : string) (db : Database) : option (Database * Comment) :=
  let parent := in_parent_id input in
  let parent_exists :=
    match parent with
    | Some p => bool_decide (p ∈ id <$> comments db)
    | None => true
    end in
  if parent_exists then
    let rowid := N.succ_pos (N.max (comments_seq db) (last_rowid (comments db))) in
    let row :=
      {| id := rowid; slug := slug; parent_id := parent;
         author_name := in_author_name input;
         author_email := or_null (in_author_email input);
         author_website := or_null (in_author_website input);
         content := in_content input;
         status := pending;
         ip_hash := ipHash; user_agent := userAgent;
         created_at := Time.CURRENT_TIMESTAMP now;
         updated_at := Time.CURRENT_TIMESTAMP now |} in
    Some ({| page_views := page_views db; rate_limits := rate_limits db;
             comments := comments db ++ [row];
             comments_seq := Npos rowid |}, row)
  else None.

(** A [CommentWithReplies] object.  The objects made by [nestComments]
    live in [commentMap], one per id, and [replies] holds references to
    them: a reference is the id under which the object is stored. *)
Record CommentWithReplies : Type := {
  comment : Comment;
  replies : list positive;
}.

Definition push (ref : positive) (node : CommentWithReplies)
  : CommentWithReplies :=
  {| comment := comment node; replies := replies node ++ [ref] |}.

(** The body of the second loop of [nestComments]: the object of
    [comment] goes to the replies of its parent or to the roots. *)
Definition attach (acc : list positive * gmap positive CommentWithReplies)
  (comment : Comment) : list positive * gmap positive CommentWithReplies :=
  let '(rootComments, commentMap) := acc in
  let node := id comment in
  match parent_id comment with
  | Some parent =>
      if bool_decide (is_Some (commentMap !! parent))
      then (rootComments, alter (push node) parent commentMap)
      else (rootComments ++ [node], commentMap)
  | None => (rootComments ++ [node], commentMap)
  end.

(** [nestComments(comments)]: the references of the root comments and
    the objects they lead to. *)
Definition nestComments (comments : list Comment)
  : list positive * gmap positive CommentWithReplies :=
  let commentMap :=
    fold_left
      (λ commentMap comment,
         <[id comment := {| comment := comment; replies := [] |}]> commentMap)
      comments ∅ in
  fold_left attach comments ([], commentMap).

(** The nested value that a reference denotes, read to depth [fuel];
    [None] when the replies run deeper (or a reference dangles). *)
#[warnings="-register-all"]
Inductive Thread : Type :=
| thread (c : Comment) (replies : list Thread).

Fixpoint read_thread (fuel : nat) (heap : gmap positive CommentWithReplies)
  (ref : positive) : option Thread :=
  match fuel with
  | O => None
  | S fuel' =>
      match heap !! ref with
      | Some node =>
          match mapM (read_thread fuel' heap) (replies node) with
          | Some rs => Some (thread (comment node) rs)
          | None => None
          end
      | None => None
      end
  end.

(** The value [nestComments] returns, read out of the objects. *)
Definition nested (comments : list Comment) : option (list Thread) :=
  let '(rootComments, heap) := nestComments comments in
  mapM (read_thread (S (length comments)) heap) rootComments.

End CommentRepository.

(* ===================================================================== *)
(** ** routes/comments.ts *)
(* ===================================================================== *)

Module CommentsRoute.
Import D1.

Inductive Response : Type :=
| TooManyRequests                 (* 429 { success: false, message } *)
| Created (comment : Comment)     (* 201 { success: true, message, comment } *)
| ServerError.                    (* 500 { success: false, message } *)

Definition status_code (r : Response) : Z :=
  match r with
  | TooManyRequests => 429
  | Created _ => 201
  | ServerError => 500
  end.

Record Request : Type := {
  param_slug : string;
  CF_Connecting_IP : option string;
  User_Agent : option string;
  (* c.req.valid("json"): the body that passed [submitSchema] *)
  data : CommentRepository.CreateCommentInput;
}.

(** [s.replace(/c/g, by)] for a single character [c]. *)
Fixpoint replace_char (c : ascii) (by_ : string) (s : string) : string :=
  match s with
  | EmptyString => EmptyString
  | String a s' =>
      if Ascii.eqb a c then (by_ ++ replace_char c by_ s')%string
      else String a (replace_char c by_ s')
  end.

Definition sanitizeHtml (s : string) : string :=
  replace_char "'" "&#x27;"
    (replace_char "034" "&quot;"
       (replace_char ">" "&gt;"
          (replace_char "<" "&lt;"
             (replace_char "&" "&amp;" s)))).

Section Handlers.
Variable hashString : string → string.

(** POST /:slug. *)
Definition submitComment (now : Z) (req : Request) (db : Database)
  : Response * Database :=
  let slug := param_slug req in
  let data := data req in
  let ip := JS.or_else (CF_Connecting_IP req) "unknown" in
  let userAgent := JS.or_else (User_Agent req) EmptyString in
  let ipHash := hashString ip in
  let rateLimit := RateLimit.checkRateLimit now db ipHash in
  if negb (RateLimit.allowed rateLimit) then (TooManyRequests, db)
  else
    let spamCheck :=
      SpamFilter.checkSpam (CommentRepository.in_content data)
        (CommentRepository.in_author_name data) in
    let input :=
      {| CommentRepository.in_author_name :=
           sanitizeHtml (CommentRepository.in_author_name data);
         CommentRepository.in_author_email :=
           CommentRepository.or_null (CommentRepository.in_author_email data);
         CommentRepository.in_author_website :=
           CommentRepository.or_null (CommentRepository.in_author_website data);
         CommentRepository.in_content :=
           sanitizeHtml (CommentRepository.in_content data);
         CommentRepository.in_parent_id :=
           CommentRepository.in_parent_id data |} in
    match CommentRepository.create now slug input ipHash
            (String.substring 0 500 userAgent) db with
    | None => (ServerError, db)
    | Some (db, comment) =>
        if SpamFilter.isSpam spamCheck
        then
          (* UPDATE comments SET status = 'spam' WHERE id = ?, and the
             trigger that refreshes updated_at *)
          let mark c :=
            if bool_decide (id c = id comment)
            then set_updated_at (Time.CURRENT_TIMESTAMP now) (set_status spam c)
            else c in
          (Created (set_status spam comment),
           {| page_views := page_views db; rate_limits := rate_limits db;
              comments := mark <$> comments db;
              comments_seq := comments_seq db |})
        else (Created comment, db)
    end.

End Handlers.

End CommentsRoute.

(* ===================================================================== *)
(** * Vocabulary of the properties *)
(* ===================================================================== *)

Module Clock.

(** The seconds since the epoch that the calendar of [Time] covers: from
    1970 into the year 9993. *)
Definition covered (sec : Z) : Prop := 0 <= sec < 365 * 8029 * 86400.

End Clock.

Module SpamScore.
Import SpamFilter.

(** The terms of the score, as the design document words them. *)

(** Number of denylist keywords found in the content, ignoring case. *)
Definition keyword_hits (content : string) : Z :=
  Z.of_nat
    (length
       (filter (λ keyword, JS.includes (JS.toLowerCase content) keyword = true)
          SPAM_KEYWORDS)).

Definition suspicious (content : string) : bool :=
  RegExp.test true SUSPICIOUS_LINKS content.

(** The raw hyperlink count. *)
Definition link_count (content : string) : Z :=
  RegExp.match_count false LINK_START content.

(** The content with every hyperlink stripped. *)
Definition without_links (content : string) : string :=
  RegExp.remove_all false LINK content.

Definition keyword_weight (content : string) : Z := 2 * keyword_hits content.

Definition suspicious_weight (content : string) : Z :=
  if suspicious content then 3 else 0.

Definition link_weight (content : string) : Z :=
  if 3 <? link_count content then link_count content else 0.

Definition length_weight (content : string) : Z :=
  if (JS.length content <? 5) || (5000 <? JS.length content) then 1 else 0.

(** "+3 if, after stripping all hyperlinks, remaining text is < 10
    characters while at least one link was present". *)
Definition only_links_weight_stated (content : string) : Z :=
  if (JS.length (without_links content) <? 10) && (1 <=? link_count content)
  then 3 else 0.

Definition stated_score (content : string) : Z :=
  keyword_weight content + suspicious_weight content + link_weight content
  + length_weight content + only_links_weight_stated content.

(** The last term with the remaining text trimmed before it is measured. *)
Definition only_links_weight (content : string) : Z :=
  if (JS.length (JS.trim (without_links content)) <? 10)
     && (1 <=? link_count content)
  then 3 else 0.

Definition weighted_score (content : string) : Z :=
  keyword_weight content + suspicious_weight content + link_weight content
  + length_weight content + only_links_weight content.

End SpamScore.

Module CounterStore.
Import D1 PageViewRepository.

(** Increments issued by concurrent callers reach D1 as single statements,
    which D1 runs one after the other in some order: [calls] is that
    order, each call with the clock at which its statement runs.  The
    result is the final database and what each call returns. *)
Fixpoint exec_increments (calls : list (Z * string)) (db : Database)
  : Database * list Z :=
  match calls with
  | [] => (db, [])
  | (now, slug) :: rest =>
      let '(db, total) := increment now slug db in
      let '(db, totals) := exec_increments rest db in
      (db, total :: totals)
  end.

(** Number of calls for [slug] in a schedule. *)
Definition calls_for (slug : string) (calls : list (Z * string)) : Z :=
  Z.of_nat (length (filter (λ call, call.2 = slug) calls)).

End CounterStore.

Module ViewIngestion.
Import D1 PageViewsRoute.

(** The count a read of [slug] yields: the cache entry when there is one,
    the counter store otherwise. *)
Definition current_count (kv : KVNamespace) (db : Database) (slug : string)
  : JS.jsnum :=
  match getFromKV kv slug with
  | Some count => count
  | None => JS.Num (PageViewRepository.get slug db)
  end.

(** The address POST /:slug takes for the caller. *)
Definition client_ip (req : Request) : string :=
  JS.or_else (CF_Connecting_IP req) (JS.or_else (X_Forwarded_For req) "unknown").

(** The counter of [slug] reads [n], in the store and, when the cache has
    an entry for it, in the cache. *)
Definition reads (slug : string) (n : Z) (st : Database * KVNamespace) : Prop :=
  PageViewRepository.get slug st.1 = n
  ∧ (st.2 !! (KV_PREFIX ++ slug)%string = None
     ∨ st.2 !! (KV_PREFIX ++ slug)%string = Some (JS.toString n)).

(** The cache agrees with the store: every single-key entry is the text
    of the stored count. *)
Definition coherent (st : Database * KVNamespace) : Prop :=
  ∀ slug, reads slug (PageViewRepository.get slug st.1) st.

(** The runtime between two requests: the store, the cache, and the cache
    writes that handlers gave to [waitUntil] and that have not been carried
    out yet, oldest first. *)
Record World : Type := {
  w_db : Database;
  w_kv : KVNamespace;
  w_pending : list Task;
}.

(** A state with no write outstanding. *)
Definition settled (db : Database) (kv : KVNamespace) : World :=
  {| w_db := db; w_kv := kv; w_pending := [] |}.

(** What happens between the requests and the runtime, one thing after the
    other. *)
Inductive Event : Type :=
| Posted (now : Z) (req : Request)
                      (* POST /:slug at clock [now], served to its response *)
| Landed (i : nat).   (* the runtime carries out the outstanding write
                         number [i] *)

Definition step (hashString : string → string) (w : World) (e : Event)
  : list Response * World :=
  match e with
  | Posted now req =>
      let '(resp, db, tasks) :=
        incrementView hashString now req (w_db w) (w_kv w) in
      ([resp],
       {| w_db := db; w_kv := w_kv w; w_pending := w_pending w ++ tasks |})
  | Landed i =>
      match w_pending w !! i with
      | Some task =>
          ([],
           {| w_db := w_db w; w_kv := run_task (w_kv w) task;
              w_pending := delete i (w_pending w) |})
      | None => ([], w)
      end
  end.

(** Requests to POST /:slug, one after the other, each with its clock.  A
    handler answers before the cache write it gave to [waitUntil] is
    carried out; the writes are carried out where the [Landed] events say,
    in the order they say.  The result is the responses and the final
    state. *)
Fixpoint increments (hashString : string → string) (events : list Event)
  (w : World) : list Response * World :=
  match events with
  | [] => ([], w)
  | e :: rest =>
      let '(resp, w) := step hashString w e in
      let '(resps, w) := increments hashString rest w in
      (resp ++ resps, w)
  end.

(** Number of requests among the events. *)
Fixpoint posts (events : list Event) : Z :=
  match events with
  | [] => 0
  | Posted _ _ :: rest => 1 + posts rest
  | Landed _ :: rest => posts rest
  end.

(** The requests among the events are for [slug]. *)
Definition for_slug (slug : string) (e : Event) : Prop :=
  match e with
  | Posted _ req => param_slug req = slug
  | Landed _ => True
  end.

(** The writes are carried out in the order in which they were handed
    over: it is always the oldest outstanding one that lands. *)
Definition in_order (e : Event) : Prop :=
  match e with
  | Posted _ _ => True
  | Landed i => i = 0%nat
  end.

(** Requests spaced by the window: the first at least five minutes after
    the second [last], each further one at least five minutes after the one
    before, all within the seconds that the calendar covers. *)
Fixpoint spaced (last : Z) (events : list Event) : Prop :=
  match events with
  | [] => True
  | Posted now _ :: rest =>
      Clock.covered (now / 1000 - 300) ∧ Clock.covered (now / 1000)
      ∧ last <= now / 1000 - 300 ∧ spaced (now / 1000) rest
  | Landed _ :: rest => spaced last rest
  end.

(** After [n] counted requests for [slug], whatever has landed: the store
    holds [n], and the cache entry of the slug, if there is one, and every
    outstanding write carry the count of one of the requests. *)
Definition writes_within (slug : string) (n : Z) (w : World) : Prop :=
  PageViewRepository.get slug (w_db w) = n
  ∧ (w_kv w !! (KV_PREFIX ++ slug)%string = None
     ∨ ∃ k, 1 <= k <= n
            ∧ w_kv w !! (KV_PREFIX ++ slug)%string = Some (JS.toString k))
  ∧ Forall (λ task, ∃ k, 1 <= k <= n ∧ task = WriteToKV slug k) (w_pending w).

(** After [n] counted requests for [slug] whose writes land in order: the
    first [j] have landed, the cache holds the count of the last of them,
    and the others are outstanding. *)
Definition writes_in_order (slug : string) (n : Z) (w : World) : Prop :=
  PageViewRepository.get slug (w_db w) = n
  ∧ ∃ j, 0 <= j <= n
         ∧ w_kv w !! (KV_PREFIX ++ slug)%string
           = (if j =? 0 then None else Some (JS.toString j))
         ∧ w_pending w = WriteToKV slug <$> seqZ (j + 1) (n - j).

(** The count that the table [page_views] holds for [slug]; a slug with no
    row counts 0. *)
Definition stored_count (db : Database) (slug : string) : Z :=
  match page_views db !! slug with
  | Some row => view_count row
  | None => 0
  end.

(** Every rate-limit record is the text of a second up to [last]. *)
Definition records_until (last : Z) (db : Database) : Prop :=
  ∀ key created_at,
    rate_limits db !! key = Some created_at →
    ∃ sec, created_at = Time.datetime sec ∧ Clock.covered sec ∧ sec <= last.

(** The request was admitted and counted. *)
Definition counted (r : Response) : Prop :=
  match r with
  | Counted _ => True
  | _ => False
  end.

(** The mapping a batch response carries. *)
Definition views_of (r : Response) : option (gmap string JS.jsnum) :=
  match r with
  | Batch views _ => Some views
  | _ => None
  end.

(** The state a second request sees: the tasks of the first have landed,
    or not yet. *)
Definition after_tasks (landed : bool) (tasks : list Task) (kv : KVNamespace)
  : KVNamespace :=
  if landed then settle tasks kv else kv.

(** The slugs that have no single-key entry. *)
Definition uncached (kv : KVNamespace) (slugs : list string) : list string :=
  filter (λ slug, getFromKV kv slug = None) slugs.

(** The size check of GET /batch. *)
Definition bad_size (slugs : list string) : bool :=
  bool_decide (length slugs = 0%nat) || bool_decide (100 < length slugs)%nat.

(** The entry that a batch response has for a requested slug when no
    cached aggregate is served.  A slug that names a member of
    [Object.prototype] has one only when the cache has its single key (and
    [__proto__] never); any other slug has the count that a read yields. *)
Definition batch_entry (kv : KVNamespace) (db : Database) (slug : string)
  : option JS.jsnum :=
  if bool_decide (slug ∈ JSObject.Object_prototype)
  then if String.eqb slug "__proto__" then None else getFromKV kv slug
  else Some (current_count kv db slug).

End ViewIngestion.

Module Threads.
Import D1 CommentRepository.

(** The parent of [c] is a comment of the input. *)
Definition resolves (comments : list Comment) (c : Comment) : bool :=
  match parent_id c with
  | Some parent => bool_decide (parent ∈ id <$> comments)
  | None => false
  end.

(** The comments placed as roots and the replies placed under [parent],
    both in the order of the input. *)
Definition roots_of (comments : list Comment) : list positive :=
  id <$> filter (λ c, resolves comments c = false) comments.

Definition children_of (comments : list Comment) (parent : positive)
  : list positive :=
  id <$> filter (λ c, parent_id c = Some parent) comments.

(** A comment with the given id and parent, its other columns those of [c]. *)
Definition with_ids (c : Comment) (i : positive) (parent : option positive)
  : Comment :=
  {| id := i; slug := slug c; parent_id := parent;
     author_name := author_name c; author_email := author_email c;
     author_website := author_website c; content := content c;
     status := status c; ip_hash := ip_hash c; user_agent := user_agent c;
     created_at := created_at c; updated_at := updated_at c |}.

(** The parent check of the second loop, against the objects in [heap]. *)
Definition is_root (heap : gmap positive CommentWithReplies) (c : Comment)
  : bool :=
  match parent_id c with
  | Some parent => negb (bool_decide (is_Some (heap !! parent)))
  | None => true
  end.

(** An object with further replies appended. *)
Definition add_replies (refs : list positive) (node : CommentWithReplies)
  : CommentWithReplies :=
  {| comment := comment node; replies := replies node ++ refs |}.

End Threads.

Module CommentIngestion.
Import D1 CommentsRoute.

(** The address POST /:slug of the comments route takes for the caller. *)
Definition client_ip (req : Request) : string :=
  JS.or_else (CF_Connecting_IP req) "unknown".

(** Comment submissions served one after the other, each with its clock:
    the status codes of the responses and the final database. *)
Fixpoint submissions (hashString : string → string)
  (calls : list (Z * Request)) (db : Database) : list Z * Database :=
  match calls with
  | [] => ([], db)
  | (now, req) :: rest =>
      let '(resp, db) := submitComment hashString now req db in
      let '(codes, db) := submissions hashString rest db in
      (status_code resp :: codes, db)
  end.

(** The row was stored at clock [t]: its [created_at] is the text of
    [CURRENT_TIMESTAMP] at [t]. *)
Definition stamped (c : Comment) (t : Z) : Prop :=
  created_at c = Time.CURRENT_TIMESTAMP t ∧ Clock.covered (t / 1000).

End CommentIngestion.

Module Scenario.
Import D1.

(** A stand-in for [hashString] in the worked examples; the properties
    hold for every function in its place. *)
Definition plain (ip : string) : string := ip.

(** A reader of the article ["post"]. *)
Definition visit : PageViewsRoute.Request :=
  {| PageViewsRoute.param_slug := "post";
     PageViewsRoute.CF_Connecting_IP := Some "203.0.113.7"%string;
     PageViewsRoute.X_Forwarded_For := None |}.

(** A harmless comment on ["post"] from the same address. *)
Definition remark : CommentsRoute.Request :=
  {| CommentsRoute.param_slug := "post";
     CommentsRoute.CF_Connecting_IP := Some "203.0.113.7"%string;
     CommentsRoute.User_Agent := Some "Mozilla/5.0"%string;
     CommentsRoute.data :=
       {| CommentRepository.in_author_name := "Ann";
          CommentRepository.in_author_email := None;
          CommentRepository.in_author_website := None;
          CommentRepository.in_content := "hello, nice post!";
          CommentRepository.in_parent_id := None |} |}.

(** 2026-11-01 12:00:00 UTC and 2026-11-02 00:00:00 UTC on the clock. *)
Definition noon : Z := 1793534400000.
Definition midnight : Z := 1793577600000.

(** Six submissions within thirty seconds, from [start] on. *)
Definition burst (start : Z) : list (Z * CommentsRoute.Request) :=
  [(start + 1000, remark); (start + 2000, remark); (start + 3000, remark);
   (start + 4000, remark); (start + 5000, remark); (start + 30000, remark)].

(** Another reader of ["post"], at another address. *)
Definition visit_other : PageViewsRoute.Request :=
  {| PageViewsRoute.param_slug := "post";
     PageViewsRoute.CF_Connecting_IP := Some "198.51.100.4"%string;
     PageViewsRoute.X_Forwarded_For := None |}.

(** Requests of these readers and the landing of their cache writes:
    two requests of one reader a second apart; two requests five minutes
    apart with the second write outstanding, and with both writes carried
    out in the wrong order; three requests five minutes apart, each write
    landing before the next request; and two readers a second apart, the
    write of the first landed. *)
Definition twice_in_window : list ViewIngestion.Event :=
  [ViewIngestion.Posted noon visit; ViewIngestion.Landed 0;
   ViewIngestion.Posted (noon + 1000) visit].

Definition second_write_outstanding : list ViewIngestion.Event :=
  [ViewIngestion.Posted noon visit; ViewIngestion.Landed 0;
   ViewIngestion.Posted (noon + 300000) visit].

Definition writes_out_of_order : list ViewIngestion.Event :=
  [ViewIngestion.Posted noon visit; ViewIngestion.Posted (noon + 300000) visit;
   ViewIngestion.Landed 1; ViewIngestion.Landed 0].

Definition three_visits : list ViewIngestion.Event :=
  [ViewIngestion.Posted noon visit; ViewIngestion.Landed 0;
   ViewIngestion.Posted (noon + 300000) visit; ViewIngestion.Landed 0;
   ViewIngestion.Posted (noon + 600000) visit; ViewIngestion.Landed 0].

Definition two_readers : list ViewIngestion.Event :=
  [ViewIngestion.Posted noon visit;
   ViewIngestion.Posted (noon + 1000) visit_other; ViewIngestion.Landed 0].

(** The responses to the requests among [events], and the state they
    leave, from an empty store and cache. *)
Definition answers (events : list ViewIngestion.Event)
  : list PageViewsRoute.Response :=
  (ViewIngestion.increments plain events (ViewIngestion.settled D1.empty ∅)).1.

Definition after (events : list ViewIngestion.Event) : ViewIngestion.World :=
  (ViewIngestion.increments plain events (ViewIngestion.settled D1.empty ∅)).2.

(** The state after the first visit at noon, served to its end, and the
    comments stored by the first five submissions of a burst. *)
Definition visited : Database * gmap string string :=
  (PageViewsRoute.serve_incrementView plain noon visit (D1.empty, ∅)).2.

Definition five_comments (start : Z) : Database :=
  (CommentIngestion.submissions plain (take 5 (burst start)) D1.empty).2.

(** A store with a counter for ["a"], a cache with an entry for ["b"] and,
    under the batch key of the request for ["a"] and ["b"], an aggregate
    that has ["a"] only. *)
Definition store : Database :=
  set_page_views
    <["a"%string :=
        {| view_count := 3; pv_updated_at := Time.CURRENT_TIMESTAMP noon |}]>
    D1.empty.

Definition partial_text : string :=
  String "{" (String "034" (String "a" (String "034" ":5}"))).

Definition cache : gmap string string :=
  <[PageViewsRoute.batchCacheKey ["a"; "b"]%string := partial_text]>
    (<["views:v1:b"%string := "7"%string]> ∅).

(** A stand-in for [JSON.parse] that reads [partial_text]. *)
Definition parse (text : string) : option (gmap string JS.jsnum) :=
  if String.eqb text partial_text
  then Some {["a"%string := JS.Num 5]} else None.


(** A store with counters for ["a"] and for ["constructor"], both slugs
    that POST /:slug accepts. *)
Definition counters : Database :=
  set_page_views
    <["constructor"%string :=
        {| view_count := 2; pv_updated_at := Time.CURRENT_TIMESTAMP noon |}]>
    store.

End Scenario.

(* ===================================================================== *)
(** * More of the sources *)
(* ===================================================================== *)

(** The parts of the sources that the design document says nothing about:
    the remaining queries of db/pageviews.ts and db/comments.ts, the read
    and moderation handlers of routes/comments.ts and routes/admin.ts,
    GET /popular of routes/pageviews.ts, utils/gravatar.ts, the origin
    check of index.ts and the pure functions of routes/contributions.ts.
    The conventions are those of the first part: a number that holds an
    id, a limit or a count of contributions is a [Z], and a query that
    orders its rows returns them in that order, rows that tie in the order
    that the sort leaves them (SQL leaves it open). *)

(* ===================================================================== *)
(** ** JavaScript numbers: [Math.max], [Math.min], [isNaN], [parseInt(s)] *)
(* ===================================================================== *)

Module JSNumber.

(** [Math.max(a, b)] and [Math.min(a, b)]: [NaN] as soon as an argument
    is [NaN]. *)
Definition Math_max (a b : JS.jsnum) : JS.jsnum :=
  match a, b with
  | JS.Num x, JS.Num y => JS.Num (Z.max x y)
  | _, _ => JS.NaN
  end.

Definition Math_min (a b : JS.jsnum) : JS.jsnum :=
  match a, b with
  | JS.Num x, JS.Num y => JS.Num (Z.min x y)
  | _, _ => JS.NaN
  end.

Definition isNaN (a : JS.jsnum) : bool :=
  match a with
  | JS.NaN => true
  | JS.Num _ => false
  end.

(** Value of a hexadecimal digit. *)
Definition hex_value (c : ascii) : option Z :=
  let n := JS.code c in
  if ((48 <=? n) && (n <=? 57))%N then Some (Z.of_N n - 48)
  else if ((97 <=? n) && (n <=? 102))%N then Some (Z.of_N n - 87)
  else if ((65 <=? n) && (n <=? 70))%N then Some (Z.of_N n - 55)
  else None.

(** The longest prefix of hexadecimal digits of [s], read with accumulator
    [acc]; [None] when [s] does not start with one. *)
Fixpoint read_hex (s : string) (acc : option Z) : option Z :=
  match s with
  | String c s' =>
      match hex_value c with
      | Some d => read_hex s' (Some (16 * default 0 acc + d))
      | None => acc
      end
  | EmptyString => acc
  end.

(** [parseInt(s)] with no radix: skip leading white space and an optional
    sign; after [0x] or [0X] read hexadecimal digits, otherwise decimal
    ones; [NaN] when there is no digit. *)
Definition parseInt (s : string) : JS.jsnum :=
  let s := JS.trimStart s in
  let '(negative, s) :=
    match s with
    | String "-"%char r => (true, r)
    | String "+"%char r => (false, r)
    | _ => (false, s)
    end in
  let digits :=
    match s with
    | String "0"%char (String "x"%char r) => read_hex r None
    | String "0"%char (String "X"%char r) => read_hex r None
    | _ => JS.read_digits s None
    end in
  match digits with
  | Some n => JS.Num (if negative then - n else n)
  | None => JS.NaN
  end.

End JSNumber.

(* ===================================================================== *)
(** ** db/pageviews.ts: the ranking and the total *)
(* ===================================================================== *)

Module PageViewQueries.
Import D1.

(** [ORDER BY view_count DESC, updated_at DESC]: the row [a] comes no
    later than the row [b].  Rows that tie on both columns come in an
    order that SQL leaves open. *)
Definition popular_order (a b : string * PageView) : Prop :=
  view_count b.2 < view_count a.2
  ∨ (view_count a.2 = view_count b.2
     ∧ String.le (pv_updated_at b.2) (pv_updated_at a.2)).

#[global] Instance popular_order_dec : RelDecision popular_order :=
  λ a b,
    decide (view_count b.2 < view_count a.2
            ∨ (view_count a.2 = view_count b.2
               ∧ String.le (pv_updated_at b.2) (pv_updated_at a.2))).

(** [LIMIT ?]: the first [limit] rows; a negative limit is no limit. *)
Definition LIMIT {A : Type} (limit : Z) (rows : list A) : list A :=
  if limit <? 0 then rows else take (Z.to_nat limit) rows.

(** [getPopular(limit)]:
    [SELECT slug, view_count FROM page_views
     ORDER BY view_count DESC, updated_at DESC LIMIT ?], then
    [results.results ?? []]. *)
Definition getPopular (limit : Z) (db : Database) : list (string * Z) :=
  let results :=
    (λ row : string * PageView, (row.1, view_count row.2))
      <$> LIMIT limit (merge_sort popular_order (map_to_list (page_views db))) in
  results.

(** [getTotalViews()]: [SELECT SUM(view_count) as total FROM page_views],
    which is NULL on an empty table, then [result?.total ?? 0]. *)
Definition getTotalViews (db : Database) : Z :=
  let total :=
    if decide (page_views db = ∅) then None
    else Some (map_fold (λ _ row total, total + view_count row) 0 (page_views db)) in
  from_option (λ total, total) 0 total.

(** The limit of GET /popular:
    [Math.min(Math.max(parseInt(limitParam || "10", 10), 1), 100)]. *)
Definition popularLimit (limitParam : option string) : JS.jsnum :=
  JSNumber.Math_min
    (JSNumber.Math_max (JS.parseInt (JS.or_else limitParam "10")) (JS.Num 1))
    (JS.Num 100).

End PageViewQueries.

(* ===================================================================== *)
(** ** db/comments.ts: the queries and the status update *)
(* ===================================================================== *)

Module CommentQueries.
Import D1 CommentRepository.

#[global] Instance Status_eq_dec : EqDecision Status.
Proof. solve_decision. Defined.

(** [ORDER BY created_at ASC] and [ORDER BY created_at DESC] on the TEXT
    of the column. *)
Definition created_asc (a b : Comment) : Prop :=
  String.le (created_at a) (created_at b).

Definition created_desc (a b : Comment) : Prop :=
  String.le (created_at b) (created_at a).

#[global] Instance created_asc_dec : RelDecision created_asc :=
  λ a b, decide (String.le (created_at a) (created_at b)).

#[global] Instance created_desc_dec : RelDecision created_desc :=
  λ a b, decide (String.le (created_at b) (created_at a)).

(** The rows of [getBySlug]:
    [SELECT * FROM comments WHERE slug = ? AND status = 'approved'
     ORDER BY created_at ASC]. *)
Definition approved_rows (slug0 : string) (db : Database) : list Comment :=
  merge_sort created_asc
    (filter (λ c, slug c = slug0 ∧ status c = approved) (comments db)).

(** [getBySlug(slug)]: the rows, nested. *)
Definition getBySlug (slug0 : string) (db : Database)
  : list positive * gmap positive CommentWithReplies :=
  let results := approved_rows slug0 db in
  nestComments results.

(** [countBySlug(slug)]:
    [SELECT COUNT( * ) as count FROM comments
     WHERE slug = ? AND status = 'approved'], then [result?.count || 0]. *)
Definition countBySlug (slug0 : string) (db : Database) : Z :=
  let count :=
    Z.of_nat
      (length (filter (λ c, slug c = slug0 ∧ status c = approved) (comments db))) in
  if count =? 0 then 0 else count.

(** [getPending(limit)]:
    [SELECT * FROM comments WHERE status IN ('pending', 'spam')
     ORDER BY created_at DESC LIMIT ?]. *)
Definition getPending (limit : Z) (db : Database) : list Comment :=
  PageViewQueries.LIMIT limit
    (merge_sort created_desc
       (filter (λ c, status c = pending ∨ status c = spam) (comments db))).

(** [updateStatus(id, status)]:
    [UPDATE comments SET status = ?, updated_at = CURRENT_TIMESTAMP
     WHERE id = ?] (and the trigger that refreshes [updated_at]), then
    [result.success]. *)
Definition updateStatus (now : Z) (id0 : Z) (st : Status) (db : Database)
  : Database * bool :=
  let update c :=
    if decide (Z.pos (id c) = id0)
    then set_updated_at (Time.CURRENT_TIMESTAMP now) (set_status st c)
    else c in
  ({| page_views := page_views db; rate_limits := rate_limits db;
      comments := update <$> comments db;
      comments_seq := comments_seq db |}, true).

End CommentQueries.

(* ===================================================================== *)
(** ** utils/gravatar.ts *)
(* ===================================================================== *)

Module Gravatar.

Definition GRAVATAR_BASE_URL : string := "https://www.gravatar.com/avatar".

(** [getGravatarUrl(email, size, defaultImage)]; [size] is printed by the
    template literal. *)
Definition getGravatarUrl (email : option string) (size : Z)
  (defaultImage : string) : string :=
  match email with
  | Some (String c e) =>
      let hash := JS.trim (JS.toLowerCase (String c e)) in
      (GRAVATAR_BASE_URL ++ "/" ++ hash ++ "?d=" ++ defaultImage ++ "&s="
         ++ JS.toString size)%string
  | _ =>
      (GRAVATAR_BASE_URL ++ "?d=" ++ defaultImage ++ "&s=" ++ JS.toString size)%string
  end.

(** The defaults of the parameters: [size = 48],
    [defaultImage = "identicon"]. *)
Definition avatar (email : option string) : string :=
  getGravatarUrl email 48 "identicon".

End Gravatar.

(* ===================================================================== *)
(** ** routes/comments.ts: the read handlers *)
(* ===================================================================== *)

Module CommentsRead.
Import D1 CommentRepository.

(** A [CommentWithReplies] value with its [avatar_url]. *)
#[warnings="-register-all"]
Inductive Avatared : Type :=
| avatared (c : Comment) (avatar_url : string) (replies : list Avatared).

(** [addAvatarUrl(comment)]: the comment with its avatar, and so for its
    replies. *)
Fixpoint addAvatarUrl (t : Thread) : Avatared :=
  match t with
  | thread c replies =>
      avatared c (Gravatar.avatar (author_email c)) (List.map addAvatarUrl replies)
  end.

Inductive Response : Type :=
| Listed (comments : list Avatared) (total : Z)
                                  (* 200 { success: true, comments, total } *)
| Count (count : Z)               (* 200 { success: true, count } *)
| ServerError.                    (* 500 { success: false, message } *)

(** GET /:slug.  The value of [getBySlug] is read out of its objects by
    [nested]; replies that never end leave [addAvatarUrl] without an end,
    which the handler's [catch] answers. *)
Definition listComments (slug0 : string) (db : Database) : Response :=
  match nested (CommentQueries.approved_rows slug0 db) with
  | Some comments =>
      let commentsWithAvatar := List.map addAvatarUrl comments in
      Listed commentsWithAvatar (Z.of_nat (length comments))
  | None => ServerError
  end.

(** GET /:slug/count. *)
Definition countComments (slug0 : string) (db : Database) : Response :=
  Count (CommentQueries.countBySlug slug0 db).

End CommentsRead.

(* ===================================================================== *)
(** ** routes/admin.ts: the moderation handlers *)
(* ===================================================================== *)

(** The handlers as they run once [simpleBasicAuth] has let the request
    through; the check of the credentials is not modelled. *)
Module AdminRoute.
Import D1.

Inductive Response : Type :=
| Pending (comments : list Comment)   (* 200 { success: true, comments } *)
| InvalidId                           (* 400 { success: false, message } *)
| Done (message : string).            (* 200 { success: true, message } *)

Definition APPROVED_MESSAGE : string := "已批准".
Definition REJECTED_MESSAGE : string := "已拒绝".

(** GET /api/admin/comments. *)
Definition pendingComments (db : Database) : Response :=
  Pending (CommentQueries.getPending 50 db).

(** POST /api/admin/comments/:id/approve and .../reject. *)
Definition moderate (st : Status) (message : string) (now : Z)
  (idParam : string) (db : Database) : Response * Database :=
  let id := JSNumber.parseInt idParam in
  match id with
  | JS.NaN => (InvalidId, db)
  | JS.Num id =>
      let '(db, _) := CommentQueries.updateStatus now id st db in
      (Done message, db)
  end.

Definition approve : Z → string → Database → Response * Database :=
  moderate approved APPROVED_MESSAGE.

Definition reject : Z → string → Database → Response * Database :=
  moderate rejected REJECTED_MESSAGE.

End AdminRoute.

(* ===================================================================== *)
(** ** index.ts: the origins that CORS admits *)
(* ===================================================================== *)

Module Cors.

Definition allowedOrigins : list string :=
  [ "https://kon-carol.xyz"; "https://www.kon-carol.xyz";
    "https://blog.kon-carol.xyz"; "https://carols-blog.pages.dev";
    "http://localhost:4321"; "http://localhost:8787" ]%string.

(** The class [[a-z0-9-]]. *)
Definition label_char (c : ascii) : bool :=
  let n := JS.code c in
  ((97 <=? n) && (n <=? 122) || (48 <=? n) && (n <=? 57) || (n =? 45))%N.

(** [[a-z0-9-]*] followed by [k], greedy. *)
Fixpoint label_chars (k : string → option string) (s : string)
  : option string :=
  match s with
  | String c s' =>
      if label_char c
      then match label_chars k s' with
           | Some r => Some r
           | None => k s
           end
      else k s
  | EmptyString => k s
  end.

(** [[a-z0-9-]+] followed by [k]. *)
Definition label (k : string → option string) (s : string) : option string :=
  match s with
  | String c s' => if label_char c then label_chars k s' else None
  | EmptyString => None
  end.

(** [$]: the input ends here. *)
Definition at_end (s : string) : option string :=
  match s with
  | EmptyString => Some s
  | String _ _ => None
  end.

(** [origin.match(/^https:\/\/[a-z0-9-]+\.carols-blog\.pages\.dev$/)]
    finds a match; [^] lets the match start at the first position only. *)
Definition preview (origin : string) : bool :=
  bool_decide
    (is_Some
       (RegExp.run false (RegExp.str "https://")
          (label (RegExp.run false (RegExp.str ".carols-blog.pages.dev") at_end))
          origin)).

(** The [origin] function of the CORS middleware: the origin to allow, or
    [null]. *)
Definition origin (o : string) : option string :=
  if bool_decide (o ∈ allowedOrigins) then Some o
  else if preview o then Some o
  else None.

End Cors.

(* ===================================================================== *)
(** ** routes/contributions.ts: merging and the heat map *)
(* ===================================================================== *)

(** Dates are those of UTC, the time zone of the runtime. *)
Module Contributions.

Record ContributionDay : Type := {
  date : string;
  count : Z;
  githubCount : Z;
  gitcodeCount : Z;
  level : Z;
}.

Record ContributionResponse : Type := {
  weeks : list (list ContributionDay);
  total : Z;
  githubTotal : Z;
  gitcodeTotal : Z;
  updatedAt : string;
}.

(** A value of the merged map: [{ count, github, gitcode }]. *)
Record Merged : Type := {
  m_count : Z;
  m_github : Z;
  m_gitcode : Z;
}.

(** [mergeContributions(githubData, gitcodeData)]. *)
Definition mergeContributions (githubData gitcodeData : gmap string Z)
  : gmap string Merged :=
  let allDates :=
    remove_dups ((map_to_list githubData).*1 ++ (map_to_list gitcodeData).*1) in
  fold_left
    (λ merged date,
       let github := default 0 (githubData !! date) in
       let gitcode := default 0 (gitcodeData !! date) in
       <[date := {| m_count := github + gitcode; m_github := github;
                    m_gitcode := gitcode |}]> merged)
    allDates ∅.

(** [calculateLevel(count)]. *)
Definition calculateLevel (count : Z) : Z :=
  if count =? 0 then 0
  else if count <=? 3 then 1
  else if count <=? 6 then 2
  else if count <=? 9 then 3
  else 4.

(** The state of the loops of [generateHeatmapData]. *)
Record Heatmap : Type := {
  h_weeks : list (list ContributionDay);
  h_total : Z;
  h_githubTotal : Z;
  h_gitcodeTotal : Z;
}.

(** The body of the inner loop: day [d] of week [w]. *)
Definition heatmap_day (mergedData : gmap string Merged) (startDate w : Z)
  (acc : list ContributionDay * Heatmap) (d : Z)
  : list ContributionDay * Heatmap :=
  let '(week, h) := acc in
  let dateStr := Time.date_text (startDate + (w * 7 + d)) in
  let data :=
    default {| m_count := 0; m_github := 0; m_gitcode := 0 |}
      (mergedData !! dateStr) in
  (week ++ [{| date := dateStr; count := m_count data;
               githubCount := m_github data; gitcodeCount := m_gitcode data;
               level := calculateLevel (m_count data) |}],
   {| h_weeks := h_weeks h;
      h_total := h_total h + m_count data;
      h_githubTotal := h_githubTotal h + m_github data;
      h_gitcodeTotal := h_gitcodeTotal h + m_gitcode data |}).

(** The body of the outer loop: week [w]. *)
Definition heatmap_week (mergedData : gmap string Merged) (startDate : Z)
  (h : Heatmap) (w : Z) : Heatmap :=
  let '(week, h) :=
    fold_left (heatmap_day mergedData startDate w) (seqZ 0 7) ([], h) in
  {| h_weeks := h_weeks h ++ [week]; h_total := h_total h;
     h_githubTotal := h_githubTotal h; h_gitcodeTotal := h_gitcodeTotal h |}.

(** [generateHeatmapData(mergedData)], with the clock [today] at its
    start and the clock [finished] at which [updatedAt] is taken. *)
Definition generateHeatmapData (today finished : Z)
  (mergedData : gmap string Merged) : ContributionResponse :=
  let startDate := today / 86400000 - 52 * 7 in
  let h :=
    fold_left (heatmap_week mergedData startDate) (seqZ 0 52)
      {| h_weeks := []; h_total := 0; h_githubTotal := 0; h_gitcodeTotal := 0 |} in
  {| weeks := h_weeks h; total := h_total h; githubTotal := h_githubTotal h;
     gitcodeTotal := h_gitcodeTotal h;
     updatedAt := Time.toISOString finished |}.

End Contributions.

(* ===================================================================== *)
(** * Vocabulary of the further properties *)
(* ===================================================================== *)

Module Html.

(** The characters that [sanitizeHtml] rewrites. *)
Definition special (c : ascii) : bool :=
  Ascii.eqb c "&" || Ascii.eqb c "<" || Ascii.eqb c ">"
  || Ascii.eqb c "034" || Ascii.eqb c "'".

(** The entity that stands for a special character; any other character
    stands for itself. *)
Definition escape (c : ascii) : string :=
  if Ascii.eqb c "&" then "&amp;"
  else if Ascii.eqb c "<" then "&lt;"
  else if Ascii.eqb c ">" then "&gt;"
  else if Ascii.eqb c "034" then "&quot;"
  else if Ascii.eqb c "'" then "&#x27;"
  else String c EmptyString.

(** The characters of a text. *)
Definition chars (s : string) : list ascii := list_ascii_of_string s.

(** The text made of the given pieces. *)
Definition joined (pieces : list string) : string :=
  fold_right String.append EmptyString pieces.

(** Number of special characters of a text. *)
Definition specials (s : string) : Z :=
  Z.of_nat (length (filter (λ c, special c = true) (chars s))).

End Html.

Module Traffic.
Import D1 PageViewsRoute.

(** One request to the view routes. *)
Inductive Call : Type :=
| PostView (now : Z) (req : Request)      (* POST /:slug at clock [now] *)
| GetView (slug : string)                 (* GET /:slug *)
| GetBatch (slugs : list string).         (* GET /batch, the slugs asked *)

(** The requests served one after the other, each to its end: the state
    they leave. *)
Definition serve (hashString : string → string)
  (JSON_parse : string → option (gmap string JS.jsnum))
  (st : Database * KVNamespace) (call : Call) : Database * KVNamespace :=
  match call with
  | PostView now req => (serve_incrementView hashString now req st).2
  | GetView slug => (serve_getView slug st).2
  | GetBatch slugs => (serve_getViewsBatch JSON_parse slugs st).2
  end.

Definition serve_all (hashString : string → string)
  (JSON_parse : string → option (gmap string JS.jsnum))
  (calls : list Call) (st : Database * KVNamespace) : Database * KVNamespace :=
  fold_left (serve hashString JSON_parse) calls st.

(** The slug check of GET /:slug. *)
Definition invalid_get_slug (slug : string) : bool :=
  String.eqb slug EmptyString || (500 <? JS.length slug).

End Traffic.

Module Ranking.
Import D1.

(** The order of a ranking: the row [a] has at least the views of [b]. *)
Definition by_count_desc (a b : string * Z) : Prop := b.2 <= a.2.

(** The order of the moderation queue: [a] is at least as new as [b]. *)
Definition newest_first (a b : Comment) : Prop :=
  String.le (created_at b) (created_at a).

(** The number of rows [LIMIT limit] lets through, out of [n]. *)
Definition limited (limit : Z) (n : nat) : nat :=
  if limit <? 0 then n else Nat.min (Z.to_nat limit) n.

(** A comment waits for moderation. *)
Definition waiting (c : Comment) : Prop := status c = pending ∨ status c = spam.

End Ranking.

Module Moderation.
Import D1.

(** The rows of [comments] as AUTOINCREMENT and the FOREIGN KEY keep
    them: the ids grow along the table, and a parent is a row of the table
    with a smaller id than its reply. *)
Definition well_formed (db : Database) : Prop :=
  StronglySorted (λ a b, (id a < id b)%positive) (comments db)
  ∧ Forall
      (λ c, ∀ p, parent_id c = Some p →
                 (p < id c)%positive ∧ p ∈ id <$> comments db)
      (comments db).

(** One request that writes to [comments]. *)
Inductive Op : Type :=
| Submit (now : Z) (req : CommentsRoute.Request)
                                      (* POST /api/comments/:slug *)
| Approve (now : Z) (idParam : string)
                                      (* POST .../comments/:id/approve *)
| Reject (now : Z) (idParam : string).
                                      (* POST .../comments/:id/reject *)

Definition step (hashString : string → string) (db : Database) (op : Op)
  : Database :=
  match op with
  | Submit now req => (CommentsRoute.submitComment hashString now req db).2
  | Approve now idParam => (AdminRoute.approve now idParam db).2
  | Reject now idParam => (AdminRoute.reject now idParam db).2
  end.

(** The requests served one after the other. *)
Definition run (hashString : string → string) (ops : list Op) (db : Database)
  : Database :=
  fold_left (step hashString) ops db.

(** The status a submission is stored with. *)
Definition verdict (data : CommentRepository.CreateCommentInput) : Status :=
  if SpamFilter.isSpam
       (SpamFilter.checkSpam (CommentRepository.in_content data)
          (CommentRepository.in_author_name data))
  then spam else pending.

(** The public comments of [slug0], as the count query selects them. *)
Definition published (slug0 : string) (db : Database) : list Comment :=
  filter (λ c, slug c = slug0 ∧ status c = approved) (comments db).

End Moderation.

Module Listing.
Import D1 CommentRepository CommentsRead.

(** The comment at the top of a thread. *)
Definition root (t : Thread) : Comment :=
  match t with thread c _ => c end.

Definition top (a : Avatared) : Comment :=
  match a with avatared c _ _ => c end.

(** The thread without its avatars. *)
Fixpoint strip (a : Avatared) : Thread :=
  match a with
  | avatared c _ replies => thread c (List.map strip replies)
  end.

(** Every comment of the thread, at every depth, carries the avatar of
    its own email. *)
Fixpoint avatars_set (a : Avatared) : bool :=
  match a with
  | avatared c avatar_url replies =>
      String.eqb avatar_url (Gravatar.avatar (author_email c))
      && forallb avatars_set replies
  end.

(** The comments of a thread, the replies at every depth included. *)
Fixpoint flat (t : Thread) : list Comment :=
  match t with
  | thread c replies => c :: List.concat (List.map flat replies)
  end.

(** The comments that a list response shows. *)
Definition shown (comments : list Avatared) : list Comment :=
  List.concat (List.map (λ a, flat (strip a)) comments).

(** Number of rows of [rows] with an id above [x]. *)
Definition above (rows : list Comment) (x : positive) : nat :=
  length (filter (λ c, (x < id c)%positive) rows).

(** The email as [getGravatarUrl] puts it in the address. *)
Definition normalized (email : string) : string :=
  JS.trim (JS.toLowerCase email).

End Listing.

Module BatchQuery.

(** A slug that can be named in a comma-separated list. *)
Definition comma_free (s : string) : Prop :=
  Forall (λ c, c ≠ ","%char) (Html.chars s).

End BatchQuery.

Module Origins.

(** A host label as the preview pattern takes it: one or more of
    [a-z], [0-9] and [-]. *)
Definition label_text (l : string) : Prop :=
  l ≠ EmptyString ∧ Forall (λ c, Cors.label_char c = true) (Html.chars l).

(** The origin of the preview deployment with the given label. *)
Definition preview_origin (l : string) : string :=
  ("https://" ++ l ++ ".carols-blog.pages.dev")%string.

End Origins.

Module HeatMapDays.
Import Contributions.

(** The entry of a day (days since 1970-01-01) in the heat map. *)
Definition day_entry (mergedData : gmap string Merged) (day : Z)
  : ContributionDay :=
  let data :=
    default {| m_count := 0; m_github := 0; m_gitcode := 0 |}
      (mergedData !! Time.date_text day) in
  {| date := Time.date_text day; count := m_count data;
     githubCount := m_github data; gitcodeCount := m_gitcode data;
     level := calculateLevel (m_count data) |}.

(** The day on which the clock [today] falls, and the 364 days of the
    heat map taken at that clock: from 364 days before to the day
    before. *)
Definition day_of (today : Z) : Z := today / 86400000.

Definition days (today : Z) : list Z :=
  (λ i, day_of today - 364 + i) <$> seqZ 0 364.

Definition sum_of (f : ContributionDay → Z) (l : list ContributionDay) : Z :=
  foldr (λ d acc, f d + acc) 0 l.

(** The days that the calendar of [Time] covers. *)
Definition covered_day (day : Z) : Prop := 0 <= day < 365 * 8029.

End HeatMapDays.

Module Cases.
Import D1.

(** A reply to comment 1 of ["post"], from another address. *)
Definition reply : CommentsRoute.Request :=
  {| CommentsRoute.param_slug := "post";
     CommentsRoute.CF_Connecting_IP := Some "198.51.100.4"%string;
     CommentsRoute.User_Agent := None;
     CommentsRoute.data :=
       {| CommentRepository.in_author_name := "Bob";
          CommentRepository.in_author_email := Some "Bob@Example.org"%string;
          CommentRepository.in_author_website := None;
          CommentRepository.in_content := "thanks, Ann";
          CommentRepository.in_parent_id := Some 1%positive |} |}.

(** The remark of [Scenario] and the reply to it, both approved by the
    moderator two minutes later. *)
Definition thread_db : Database :=
  Moderation.run Scenario.plain
    [Moderation.Submit Scenario.noon Scenario.remark;
     Moderation.Submit (Scenario.noon + 60000) reply;
     Moderation.Approve (Scenario.noon + 120000) "1";
     Moderation.Approve (Scenario.noon + 120000) "2"]
    D1.empty.

End Cases.

(* ===================================================================== *)
(** * Properties *)
(* ===================================================================== *)

(** ** Numbers printed and read back *)

Section NumberText.
Import JS.

Lemma digit_char_is_digit (d : Z) :
  0 <= d < 10 → is_digit (digit_char d) = true ∧ digit_value (digit_char d) = d.
Proof.
  intros Hd.
  assert (d = 0 ∨ d = 1 ∨ d = 2 ∨ d = 3 ∨ d = 4 ∨ d = 5 ∨ d = 6 ∨ d = 7
          ∨ d = 8 ∨ d = 9) as Hcases by lia.
  repeat (destruct Hcases as [-> | Hcases]; [split; reflexivity |]).
  subst d. split; reflexivity.
Qed.

Lemma digit_plain (c : ascii) :
  is_digit c = true →
  is_space c = false ∧ c ≠ "-"%char ∧ c ≠ "+"%char.
Proof.
  destruct c as [[] [] [] [] [] [] [] []]; cbv; intros H;
    try discriminate H; repeat split; discriminate.
Qed.

(** The text of [n] starts with a digit. *)
Lemma digits_of_head (fuel : nat) (n : Z) (acc : string) :
  ∃ c rest, digits_of fuel n acc = String c rest ∧ is_digit c = true.
Proof.
  revert n acc. induction fuel as [| fuel IH]; intros n acc; simpl.
  - eexists _, _. split; [reflexivity |].
    apply digit_char_is_digit, Z.mod_pos_bound. lia.
  - destruct (n <? 10).
    + eexists _, _. split; [reflexivity |].
      apply digit_char_is_digit, Z.mod_pos_bound. lia.
    + apply IH.
Qed.

(** Reading the text of [n] shifts the accumulator by the digits of [n]. *)
Lemma read_digits_of (fuel : nat) :
  ∀ (n : Z) (acc : string) (a : option Z),
    0 <= n < 2 ^ (Z.of_nat fuel + 1) →
    ∃ k : Z, 0 < k ∧
      read_digits (digits_of fuel n acc) a
      = read_digits acc (Some (10 ^ k * default 0 a + n)).
Proof.
  induction fuel as [| fuel IH]; intros n acc a Hn.
  - change (2 ^ (Z.of_nat 0 + 1)) with 2 in Hn.
    exists 1. split; [lia |]. simpl.
    rewrite Z.mod_small by lia.
    destruct (digit_char_is_digit n) as [-> ->]; [lia |].
    f_equal; f_equal; lia.
  - simpl digits_of. destruct (Z.ltb_spec n 10) as [Hlt | Hge].
    + exists 1. split; [lia |]. simpl.
      rewrite Z.mod_small by lia.
      destruct (digit_char_is_digit n) as [-> ->]; [lia |].
      f_equal; f_equal; lia.
    + assert (0 <= n / 10 < 2 ^ (Z.of_nat fuel + 1)) as Hdiv.
      { replace (Z.of_nat (S fuel) + 1) with (Z.succ (Z.of_nat fuel + 1)) in Hn by lia.
        rewrite Z.pow_succ_r in Hn by lia.
        split; [apply Z.div_pos; lia |].
        apply Z.div_lt_upper_bound; lia. }
      destruct (IH (n / 10) (String (digit_char (n mod 10)) acc) a Hdiv)
        as (k & Hk & ->).
      exists (k + 1). split; [lia |]. simpl.
      destruct (digit_char_is_digit (n mod 10)) as [-> ->];
        [apply Z.mod_pos_bound; lia |].
      f_equal; f_equal. rewrite Z.pow_add_r by lia.
      pose proof (Z.div_mod n 10). lia.
Qed.

Lemma log2_fuel (n : Z) :
  0 <= n → 0 <= n < 2 ^ (Z.of_nat (Z.to_nat (Z.log2 n)) + 1).
Proof.
  intros Hn. rewrite Z2Nat.id by apply Z.log2_nonneg.
  destruct (Z.eq_dec n 0) as [-> | Hne]; [cbv; split; [discriminate | reflexivity] |].
  pose proof (Z.log2_spec n). replace (Z.succ (Z.log2 n)) with (Z.log2 n + 1) in * by lia.
  lia.
Qed.

Lemma parseInt_digits (fuel : nat) (n : Z) :
  0 <= n < 2 ^ (Z.of_nat fuel + 1) →
  read_digits (digits_of fuel n EmptyString) None = Some n.
Proof.
  intros Hn. destruct (read_digits_of fuel n EmptyString None Hn) as (k & _ & ->).
  simpl. f_equal. lia.
Qed.

(** [parseInt(n.toString(), 10)] is [n]. *)
Lemma parseInt_toString (n : Z) : parseInt (toString n) = Num n.
Proof.
  unfold toString. destruct (Z.ltb_spec n 0) as [Hneg | Hpos].
  - unfold parseInt. cbn [trimStart]. change (is_space "-"%char) with false. cbv iota.
    rewrite parseInt_digits by (apply log2_fuel; lia).
    f_equal. lia.
  - destruct (digits_of_head (Z.to_nat (Z.log2 n)) n EmptyString) as (c & rest & Heq & Hc).
    pose proof (parseInt_digits (Z.to_nat (Z.log2 n)) n (log2_fuel n Hpos)) as Hread.
    rewrite Heq in *. destruct (digit_plain c Hc) as (Hsp & Hm & Hp).
    unfold parseInt. cbn [trimStart]. rewrite Hsp.
    assert ((let '(negative, s0) :=
               match String c rest with
               | String "-"%char r => (true, r)
               | String "+"%char r => (false, r)
               | _ => (false, String c rest)
               end in
             match read_digits s0 None with
             | Some n0 => Num (if negative then - n0 else n0)
             | None => NaN
             end) = Num n) as ->; [| reflexivity].
    destruct c as [[] [] [] [] [] [] [] []]; try (rewrite Hread; reflexivity);
      congruence.
Qed.

End NumberText.

(** ** Time stamps in order *)

Section TimeOrder.
Import Time Clock.

(** The two formats at a few instants, leap days among them. *)
Example time_texts :
  CURRENT_TIMESTAMP 0 = "1970-01-01 00:00:00"%string
  ∧ CURRENT_TIMESTAMP 951868799999 = "2000-02-29 23:59:59"%string
  ∧ CURRENT_TIMESTAMP 4107542400000 = "2100-03-01 00:00:00"%string
  ∧ toISOString 1709251199999 = "2024-02-29T23:59:59.999Z"%string
  ∧ five_minutes_ago 1793534430123 = "2026-11-01 11:55:30"%string.
Proof. vm_compute. repeat split. Qed.

Lemma year_length_bounds (y : Z) : 365 <= year_length y <= 366.
Proof. unfold year_length. destruct (is_leap y); lia. Qed.

Lemma year_from_year (fuel : nat) :
  ∀ y days, y <= (year_from fuel y days).1 <= y + Z.of_nat fuel.
Proof.
  induction fuel as [| fuel IH]; intros y days; cbn [year_from].
  - cbn. lia.
  - destruct (days <? year_length y); [cbn; lia |].
    specialize (IH (y + 1) (days - year_length y)). lia.
Qed.

(** A later day is in a later year, or in the same year at a later day. *)
Lemma year_from_mono (fuel : nat) :
  ∀ y a b, a < b →
    (year_from fuel y a).1 < (year_from fuel y b).1
    ∨ ((year_from fuel y a).1 = (year_from fuel y b).1
       ∧ (year_from fuel y a).2 < (year_from fuel y b).2).
Proof.
  induction fuel as [| fuel IH]; intros y a b Hab; cbn [year_from].
  - right. cbn. lia.
  - destruct (Z.ltb_spec a (year_length y)) as [Ha | Ha];
      destruct (Z.ltb_spec b (year_length y)) as [Hb | Hb]; try lia.
    + right. cbn. lia.
    + left. cbn [fst].
      pose proof (year_from_year fuel (y + 1) (b - year_length y)). lia.
    + apply IH. lia.
Qed.

(** Within the years walked, the day of the year is a day of that year. *)
Lemma year_from_day (fuel : nat) :
  ∀ y days, 0 <= days < 365 * Z.of_nat fuel →
    0 <= (year_from fuel y days).2
    < year_length (year_from fuel y days).1.
Proof.
  induction fuel as [| fuel IH]; intros y days Hdays; [lia |].
  cbn [year_from]. pose proof (year_length_bounds y).
  destruct (Z.ltb_spec days (year_length y)) as [Hlt | Hge]; [cbn; lia |].
  apply IH. lia.
Qed.

Lemma month_from_month (lengths : list Z) :
  ∀ m day, m <= (month_from lengths m day).1.
Proof.
  induction lengths as [| len rest IH]; intros m day; cbn [month_from].
  - cbn. lia.
  - destruct (day <? len); [cbn; lia |].
    specialize (IH (m + 1) (day - len)). lia.
Qed.

Lemma month_from_mono (lengths : list Z) :
  ∀ m a b, a < b →
    (month_from lengths m a).1 < (month_from lengths m b).1
    ∨ ((month_from lengths m a).1 = (month_from lengths m b).1
       ∧ (month_from lengths m a).2 < (month_from lengths m b).2).
Proof.
  induction lengths as [| len rest IH]; intros m a b Hab; cbn [month_from].
  - right. cbn. lia.
  - destruct (Z.ltb_spec a len) as [Ha | Ha];
      destruct (Z.ltb_spec b len) as [Hb | Hb]; try lia.
    + right. cbn. lia.
    + left. cbn [fst]. pose proof (month_from_month rest (m + 1) (b - len)). lia.
    + apply IH. lia.
Qed.

Lemma month_from_bounds (lengths : list Z) :
  Forall (λ len, len <= 31) lengths →
  ∀ m day, 0 <= day < foldr Z.add 0 lengths →
    (month_from lengths m day).1 < m + Z.of_nat (length lengths)
    ∧ 1 <= (month_from lengths m day).2 <= 31.
Proof.
  induction 1 as [| len rest Hlen Hrest IH]; intros m day Hday;
    cbn [month_from foldr length] in *; [lia |].
  destruct (Z.ltb_spec day len) as [Hlt | Hge]; [cbn; lia |].
  specialize (IH (m + 1) (day - len)). lia.
Qed.

Lemma month_lengths_sum (y : Z) :
  foldr Z.add 0 (month_lengths y) = year_length y
  ∧ Forall (λ len, len <= 31) (month_lengths y).
Proof.
  unfold month_lengths, year_length.
  destruct (is_leap y); (split; [reflexivity | repeat constructor; lia]).
Qed.

Lemma YEARS_value : Z.of_nat YEARS = 8029.
Proof. unfold YEARS. rewrite Z2Nat.id; lia. Qed.

(** The days that the calendar covers. *)
Lemma civil_bounds (days : Z) :
  0 <= days < 365 * 8029 →
  1970 <= (civil_from_days days).1.1 <= 9999
  ∧ 1 <= (civil_from_days days).1.2 <= 12
  ∧ 1 <= (civil_from_days days).2 <= 31.
Proof.
  intros Hdays. unfold civil_from_days.
  pose proof (year_from_year YEARS 1970 days) as Hyear.
  pose proof (year_from_day YEARS 1970 days) as Hday.
  rewrite YEARS_value in *. specialize (Hday Hdays).
  destruct (year_from YEARS 1970 days) as [y doy]. cbn [fst snd] in *.
  destruct (month_lengths_sum y) as [Hsum Hlens].
  pose proof (month_from_month (month_lengths y) 1 doy) as Hmonth.
  pose proof (month_from_bounds (month_lengths y) Hlens 1 doy) as Hbounds.
  rewrite Hsum in Hbounds. specialize (Hbounds Hday).
  destruct (month_from (month_lengths y) 1 doy) as [m d]. cbn [fst snd] in *.
  change (Z.of_nat (length (month_lengths y))) with 12 in Hbounds. lia.
Qed.

(** A later day has a later civil date. *)
Lemma civil_mono (a b : Z) :
  a < b →
  (civil_from_days a).1.1 < (civil_from_days b).1.1
  ∨ ((civil_from_days a).1.1 = (civil_from_days b).1.1
     ∧ ((civil_from_days a).1.2 < (civil_from_days b).1.2
        ∨ ((civil_from_days a).1.2 = (civil_from_days b).1.2
           ∧ (civil_from_days a).2 < (civil_from_days b).2))).
Proof.
  intros Hab. unfold civil_from_days.
  destruct (year_from_mono YEARS 1970 a b Hab) as [Hyear | [Hyear Hday]];
    destruct (year_from YEARS 1970 a) as [ya da];
    destruct (year_from YEARS 1970 b) as [yb db]; cbn [fst snd] in *.
  - left. destruct (month_from (month_lengths ya) 1 da),
      (month_from (month_lengths yb) 1 db). exact Hyear.
  - subst yb. right.
    pose proof (month_from_mono (month_lengths ya) 1 da db Hday) as Hmonth.
    destruct (month_from (month_lengths ya) 1 da),
      (month_from (month_lengths ya) 1 db). cbn [fst snd] in *.
    split; [reflexivity | exact Hmonth].
Qed.

Lemma append_cons (a : ascii) (s t : string) :
  (String a s ++ t)%string = String a (s ++ t)%string.
Proof. reflexivity. Qed.

Lemma append_assoc (s t u : string) :
  ((s ++ t) ++ u)%string = (s ++ t ++ u)%string.
Proof.
  induction s as [| a s IH]; [reflexivity |].
  rewrite !append_cons, IH. reflexivity.
Qed.

Lemma append_nil_l (s : string) : (EmptyString ++ s)%string = s.
Proof. reflexivity. Qed.

Lemma append_nil_r (s : string) : (s ++ EmptyString)%string = s.
Proof.
  induction s as [| a s IH]; [reflexivity |].
  rewrite append_cons, IH. reflexivity.
Qed.

Lemma compare_cons_same (c : ascii) (r1 r2 : string) :
  String.compare (String c r1) (String c r2) = String.compare r1 r2.
Proof.
  cbn [String.compare]. unfold Ascii.compare. rewrite N.compare_refl. reflexivity.
Qed.

(** Digits compare as the numbers they print. *)
Lemma digit_char_compare (a b : Z) :
  0 <= a < 10 → 0 <= b < 10 →
  Ascii.compare (JS.digit_char a) (JS.digit_char b) = (a ?= b).
Proof.
  intros Ha Hb.
  assert (a = 0 ∨ a = 1 ∨ a = 2 ∨ a = 3 ∨ a = 4 ∨ a = 5 ∨ a = 6 ∨ a = 7
          ∨ a = 8 ∨ a = 9) as Hacases by lia.
  assert (b = 0 ∨ b = 1 ∨ b = 2 ∨ b = 3 ∨ b = 4 ∨ b = 5 ∨ b = 6 ∨ b = 7
          ∨ b = 8 ∨ b = 9) as Hbcases by lia.
  clear Ha Hb.
  repeat (destruct Hacases as [-> | Hacases]);
    try subst a;
    repeat (destruct Hbcases as [-> | Hbcases]);
    try subst b; reflexivity.
Qed.

(** Two digits in front of a text compare as their number, then the text. *)
Lemma pad2_compare (a b : Z) (r1 r2 : string) :
  0 <= a < 100 → 0 <= b < 100 →
  String.compare (pad2 a ++ r1) (pad2 b ++ r2)
  = match a ?= b with
    | Eq => String.compare r1 r2
    | c => c
    end.
Proof.
  intros Ha Hb. unfold pad2. rewrite !append_cons. cbn [String.compare].
  rewrite !digit_char_compare by (Z.div_mod_to_equations; lia).
  change (EmptyString ++ r1)%string with r1.
  change (EmptyString ++ r2)%string with r2.
  destruct (Z.compare_spec (a / 10 mod 10) (b / 10 mod 10));
    destruct (Z.compare_spec (a mod 10) (b mod 10));
    destruct (Z.compare_spec a b); try reflexivity;
    exfalso; Z.div_mod_to_equations; lia.
Qed.

Lemma pad4_split (y : Z) :
  0 <= y < 10000 → pad4 y = (pad2 (y / 100) ++ pad2 (y mod 100))%string.
Proof.
  intros Hy. unfold pad4, pad3, pad2. rewrite !append_cons.
  change (EmptyString ++ ?s)%string with s.
  replace (y / 100 / 10 mod 10) with (y / 1000 mod 10)
    by (Z.div_mod_to_equations; lia).
  replace (y / 100 mod 10) with (y / 100 mod 10) by reflexivity.
  replace (y mod 100 / 10 mod 10) with (y / 10 mod 10)
    by (Z.div_mod_to_equations; lia).
  replace (y mod 100 mod 10) with (y mod 10)
    by (Z.div_mod_to_equations; lia).
  reflexivity.
Qed.

Lemma pad4_compare (a b : Z) (r1 r2 : string) :
  0 <= a < 10000 → 0 <= b < 10000 →
  String.compare (pad4 a ++ r1) (pad4 b ++ r2)
  = match a ?= b with
    | Eq => String.compare r1 r2
    | c => c
    end.
Proof.
  intros Ha Hb. rewrite !pad4_split, !append_assoc by assumption.
  rewrite pad2_compare by (Z.div_mod_to_equations; lia).
  rewrite pad2_compare by (Z.div_mod_to_equations; lia).
  destruct (Z.compare_spec (a / 100) (b / 100));
    destruct (Z.compare_spec (a mod 100) (b mod 100));
    destruct (Z.compare_spec a b); try reflexivity;
    exfalso; Z.div_mod_to_equations; lia.
Qed.

(** The time of day compares as its second. *)
Lemma time_text_compare (a b : Z) :
  0 <= a < 86400 → 0 <= b < 86400 →
  String.compare (time_text a) (time_text b) = (a ?= b).
Proof.
  intros Ha Hb. unfold time_text.
  rewrite <- (append_nil_r (pad2 (a mod 60))), <- (append_nil_r (pad2 (b mod 60))).
  rewrite pad2_compare by (Z.div_mod_to_equations; lia).
  rewrite ?append_cons, ?append_nil_l, compare_cons_same.
  rewrite pad2_compare by (Z.div_mod_to_equations; lia).
  rewrite ?append_cons, ?append_nil_l, compare_cons_same.
  rewrite pad2_compare by (Z.div_mod_to_equations; lia).
  cbn [String.compare].
  destruct (Z.compare_spec (a / 3600) (b / 3600));
    destruct (Z.compare_spec (a / 60 mod 60) (b / 60 mod 60));
    destruct (Z.compare_spec (a mod 60) (b mod 60));
    destruct (Z.compare_spec a b); try reflexivity;
    exfalso; Z.div_mod_to_equations; lia.
Qed.

(** Dates in front of a text compare as their day numbers, then the text. *)
Lemma date_text_compare (a b : Z) (r1 r2 : string) :
  0 <= a < 365 * 8029 → 0 <= b < 365 * 8029 →
  String.compare (date_text a ++ r1) (date_text b ++ r2)
  = match a ?= b with
    | Eq => String.compare r1 r2
    | c => c
    end.
Proof.
  intros Ha Hb. unfold date_text.
  pose proof (civil_bounds _ Ha) as Hbounds_a.
  pose proof (civil_bounds _ Hb) as Hbounds_b.
  assert (a < b ∨ a = b ∨ b < a) as [Hlt | [Heq | Hgt]] by lia.
  - pose proof (civil_mono _ _ Hlt) as Hmono.
    destruct (civil_from_days a) as [[ya ma] da].
    destruct (civil_from_days b) as [[yb mb] db].
    cbn [fst snd] in *. rewrite !append_assoc, !append_cons, !append_nil_l.
    rewrite pad4_compare, compare_cons_same by lia.
    rewrite pad2_compare, compare_cons_same by lia.
    rewrite pad2_compare by lia.
    destruct (Z.compare_spec a b); try lia.
    destruct (Z.compare_spec ya yb); try lia; try reflexivity.
    destruct (Z.compare_spec ma mb); try lia; try reflexivity.
    destruct (Z.compare_spec da db); try lia; reflexivity.
  - subst b. destruct (civil_from_days a) as [[ya ma] da].
    cbn [fst snd] in *. rewrite !append_assoc, !append_cons, !append_nil_l.
    rewrite pad4_compare, compare_cons_same by lia.
    rewrite pad2_compare, compare_cons_same by lia.
    rewrite pad2_compare by lia.
    rewrite !Z.compare_refl. reflexivity.
  - pose proof (civil_mono _ _ Hgt) as Hmono.
    destruct (civil_from_days a) as [[ya ma] da].
    destruct (civil_from_days b) as [[yb mb] db].
    cbn [fst snd] in *. rewrite !append_assoc, !append_cons, !append_nil_l.
    rewrite pad4_compare, compare_cons_same by lia.
    rewrite pad2_compare, compare_cons_same by lia.
    rewrite pad2_compare by lia.
    destruct (Z.compare_spec a b); try lia.
    destruct (Z.compare_spec ya yb); try lia; try reflexivity.
    destruct (Z.compare_spec ma mb); try lia; try reflexivity.
    destruct (Z.compare_spec da db); try lia; reflexivity.
Qed.

(** The texts of [datetime] compare as the seconds they print. *)
Lemma datetime_compare (a b : Z) :
  covered a → covered b →
  String.compare (datetime a) (datetime b) = (a ?= b).
Proof.
  unfold covered. intros Ha Hb. unfold datetime.
  rewrite date_text_compare by (Z.div_mod_to_equations; lia).
  rewrite !append_cons, !append_nil_l, compare_cons_same.
  rewrite time_text_compare by (apply Z.mod_pos_bound; lia).
  destruct (Z.compare_spec (a / 86400) (b / 86400));
    destruct (Z.compare_spec (a mod 86400) (b mod 86400));
    destruct (Z.compare_spec a b); try reflexivity;
    exfalso; Z.div_mod_to_equations; lia.
Qed.

(** A [datetime] text is greater than an ISO 8601 text exactly when its
    day is a later one: on the same day the space sorts before the [T]. *)
Lemma datetime_gt_iso (sec ms : Z) :
  covered sec → covered (ms / 1000) →
  text_gt (datetime sec) (toISOString ms) = (ms / 86400000 <? sec / 86400).
Proof.
  unfold covered. intros Hsec Hms. unfold text_gt, String.ltb, datetime, toISOString.
  rewrite date_text_compare by (Z.div_mod_to_equations; lia).
  rewrite !append_cons, !append_nil_l. cbn [String.compare].
  unfold Z.ltb. destruct (ms / 86400000 ?= sec / 86400); reflexivity.
Qed.

(** SQLite's comparison of two [datetime] texts is the comparison of the
    seconds. *)
Lemma datetime_gt (a b : Z) :
  covered a → covered b →
  text_gt (datetime a) (datetime b) = (b <? a).
Proof.
  intros Ha Hb. unfold text_gt, String.ltb.
  rewrite (datetime_compare b a Hb Ha). unfold Z.ltb. reflexivity.
Qed.

End TimeOrder.

(** ** The scan of a global pattern *)

Section RegExpFacts.
Import RegExp.

(** The fuel of [scan] is enough as soon as it exceeds the length of the
    input: the scan then visits every position, whatever the fuel. *)
Lemma scan_fuel (icase : bool) (p : pattern) (fuel1 : nat) :
  ∀ (fuel2 : nat) (s : string),
    (String.length s < fuel1)%nat → (String.length s < fuel2)%nat →
    scan fuel1 icase p s = scan fuel2 icase p s.
Proof.
  induction fuel1 as [| fuel1 IH]; intros fuel2 s H1 H2; [lia |].
  destruct fuel2 as [| fuel2]; [lia |].
  cbn [scan].
  destruct (match_here icase p s) as [rest |].
  - destruct (Nat.ltb_spec (String.length rest) (String.length s)) as [Hlt | Hge].
    + rewrite (IH fuel2 rest) by lia. reflexivity.
    + destruct s as [| c s']; [reflexivity |].
      cbn [String.length] in H1, H2.
      rewrite (IH fuel2 s') by lia. reflexivity.
  - destruct s as [| c s']; [reflexivity |].
    cbn [String.length] in H1, H2.
    rewrite (IH fuel2 s') by lia. reflexivity.
Qed.

(** The text outside the matches is never longer than the input. *)
Lemma scan_length (icase : bool) (p : pattern) (fuel : nat) :
  ∀ s : string,
    (String.length (scan fuel icase p s).2 <= String.length s)%nat.
Proof.
  induction fuel as [| fuel IH]; intros s; cbn [scan]; [cbn; lia |].
  destruct (match_here icase p s) as [rest |].
  - destruct (Nat.ltb_spec (String.length rest) (String.length s)) as [Hlt | Hge].
    + specialize (IH rest). destruct (scan fuel icase p rest) as [n out].
      cbn [snd] in *. lia.
    + destruct s as [| c s']; [cbn; lia |].
      specialize (IH s'). destruct (scan fuel icase p s') as [n out].
      cbn [snd String.length] in *. lia.
  - destruct s as [| c s']; [cbn; lia |].
    specialize (IH s'). destruct (scan fuel icase p s') as [n out].
    cbn [snd String.length] in *. lia.
Qed.

End RegExpFacts.

(** ** The spam score *)

Section SpamScoreFacts.
Import SpamFilter SpamScore.

(** The keyword loop adds 2 for every keyword that is found. *)
Lemma keyword_loop (found : string → bool) (keywords : list string) (score : Z) :
  fold_left (λ score keyword, if found keyword then score + 2 else score)
    keywords score
  = score + 2 * Z.of_nat (length (filter (λ keyword, found keyword = true) keywords)).
Proof.
  revert score. induction keywords as [| keyword keywords IH]; intros score.
  - simpl. lia.
  - cbn [fold_left]. rewrite IH, filter_cons.
    destruct (found keyword) eqn:Hfound.
    + rewrite decide_True by reflexivity. cbn [length]. lia.
    + rewrite decide_False by discriminate. lia.
Qed.

Lemma score_of_result (b : bool) (r : option string) (t : Z) :
  score (if b then {| isSpam := true; reason := r; score := t |}
         else {| isSpam := false; reason := None; score := t |}) = t.
Proof. destruct b; reflexivity. Qed.

Lemma isSpam_of_result (b : bool) (r : option string) (t : Z) :
  isSpam (if b then {| isSpam := true; reason := r; score := t |}
          else {| isSpam := false; reason := None; score := t |}) = b.
Proof. destruct b; reflexivity. Qed.

Lemma score_weighted (content authorName : string) :
  score (checkSpam content authorName) = weighted_score content.
Proof.
  unfold checkSpam. cbv zeta. rewrite score_of_result.
  rewrite (keyword_loop (JS.includes (JS.toLowerCase content))).
  unfold weighted_score, keyword_weight, keyword_hits, suspicious_weight,
    link_weight, length_weight, only_links_weight, suspicious, link_count,
    without_links.
  generalize (Z.of_nat (length (filter (λ keyword,
    JS.includes (JS.toLowerCase content) keyword = true) SPAM_KEYWORDS))).
  generalize (RegExp.test true SUSPICIOUS_LINKS content).
  generalize (RegExp.match_count false LINK_START content).
  generalize (JS.length (JS.trim (RegExp.remove_all false LINK content))).
  generalize (JS.length content).
  intros len rest links sus hits.
  destruct sus;
    destruct (Z.ltb_spec rest 10); destruct (Z.ltb_spec 0 links);
    destruct (Z.leb_spec 1 links); destruct (Z.ltb_spec 3 links);
    destruct (Z.ltb_spec len 5); destruct (Z.ltb_spec 5000 len);
    cbn [andb orb]; lia.
Qed.

(** The two contents the design document scores. *)
Example checkSpam_documented_cases :
  score (checkSpam "buy now viagra http://a http://b http://c http://d" "x") = 8
  ∧ isSpam (checkSpam "buy now viagra http://a http://b http://c http://d" "x")
    = true
  ∧ checkSpam "hello, nice post!" "x"
    = {| isSpam := false; reason := None; score := 0 |}.
Proof. vm_compute. repeat split. Qed.

(** C10: the result of [checkSpam] does not depend on the author name. *)
Theorem checkSpam_author_independent (content a1 a2 : string) :
  checkSpam content a1 = checkSpam content a2
  ∧ score (checkSpam content a1) = score (checkSpam content a2)
  ∧ isSpam (checkSpam content a1) = isSpam (checkSpam content a2).
Proof.
  assert (checkSpam content a1 = checkSpam content a2) as Heq.
  { unfold checkSpam. reflexivity. }
  rewrite Heq. auto.
Qed.

(** C5, as the code has it: the score of [checkSpam] is the sum of the
    five weights, where the text left after stripping the hyperlinks is
    trimmed before its length is compared with 10; and [isSpam] holds
    exactly when the score is at least 3. *)
Theorem checkSpam_weighted_score (content authorName : string) :
  score (checkSpam content authorName)
  = keyword_weight content + suspicious_weight content + link_weight content
    + length_weight content + only_links_weight content
  ∧ (isSpam (checkSpam content authorName) = true
     ↔ 3 <= score (checkSpam content authorName)).
Proof.
  split; [apply score_weighted |].
  unfold checkSpam. cbv zeta. rewrite score_of_result, isSpam_of_result.
  apply Z.leb_le.
Qed.

(** C5, as stated, fails: with ["see here: http://a.b"] the text left
    after stripping the link is ["see here: "], ten characters, so the
    stated sum is 0; [checkSpam] trims it to nine and scores 3. *)
Lemma checkSpam_stated_score_differs :
  stated_score "see here: http://a.b" = 0
  ∧ score (checkSpam "see here: http://a.b" "reader") = 3
  ∧ isSpam (checkSpam "see here: http://a.b" "reader") = true.
Proof. vm_compute. repeat split. Qed.

End SpamScoreFacts.

(** ** The counter store *)

Section CounterStoreFacts.
Import D1 PageViewRepository CounterStore.

Lemma increment_total (now : Z) (slug : string) (db : Database) :
  (increment now slug db).2 = get slug db + 1.
Proof.
  unfold increment, get. destruct (page_views db !! slug); reflexivity.
Qed.

Lemma get_increment (now : Z) (slug other : string) (db : Database) :
  get other (increment now slug db).1
  = get other db + (if decide (slug = other) then 1 else 0).
Proof.
  unfold increment, get. cbn [fst set_page_views page_views].
  destruct (decide (slug = other)) as [-> | Hne].
  - rewrite lookup_insert_eq. destruct (page_views db !! other); reflexivity.
  - rewrite lookup_insert_ne by done. lia.
Qed.

Lemma calls_for_cons (slug : string) (call : Z * string)
  (calls : list (Z * string)) :
  calls_for slug (call :: calls)
  = (if decide (call.2 = slug) then 1 else 0) + calls_for slug calls.
Proof.
  unfold calls_for. rewrite filter_cons.
  destruct (decide (call.2 = slug)); cbn [length]; lia.
Qed.

(** No increment is lost, whatever the order. *)
Lemma exec_increments_count (calls : list (Z * string)) :
  ∀ (db : Database) (slug : string),
    get slug (exec_increments calls db).1 = get slug db + calls_for slug calls.
Proof.
  induction calls as [| [now s] calls IH]; intros db slug.
  - unfold calls_for. simpl. lia.
  - cbn [exec_increments].
    destruct (increment now s db) as [db1 total] eqn:Hinc.
    specialize (IH db1 slug).
    destruct (exec_increments calls db1) as [dbN totals].
    cbn [fst] in *. rewrite IH, calls_for_cons.
    pose proof (get_increment now s slug db) as Hget.
    rewrite Hinc in Hget. cbn [fst snd] in *. rewrite Hget. lia.
Qed.

(** Every call returns the count as it stands after its own statement. *)
Lemma exec_increments_totals (calls : list (Z * string)) :
  ∀ (db : Database) (j : nat) (now : Z) (slug : string),
    calls !! j = Some (now, slug) →
    (exec_increments calls db).2 !! j
    = Some (get slug db + calls_for slug (take (S j) calls)).
Proof.
  induction calls as [| [now0 s0] calls IH]; intros db j now slug Hj.
  - discriminate.
  - cbn [exec_increments].
    pose proof (increment_total now0 s0 db) as Htotal.
    pose proof (get_increment now0 s0 slug db) as Hget.
    destruct (increment now0 s0 db) as [db1 total].
    specialize (IH db1).
    destruct (exec_increments calls db1) as [dbN totals].
    cbn [fst snd] in *.
    destruct j as [| j].
    + injection Hj as -> ->. cbn [take lookup list_lookup].
      rewrite calls_for_cons. cbn [snd]. rewrite decide_True by done.
      unfold calls_for. simpl. f_equal. lia.
    + cbn [lookup list_lookup] in Hj |- *.
      change (totals !! j = Some (get slug db + calls_for slug ((now0, s0) :: take (S j) calls))).
      rewrite (IH j now slug Hj), calls_for_cons, Hget. cbn [snd].
      f_equal. lia.
Qed.

(** C1: [increment] is one insert-or-update-and-return step.  It creates
    the counter at 1 when the slug has none, adds exactly 1 otherwise,
    returns the total it stored and touches no other counter; and since
    it is a single statement, any order in which D1 runs the statements
    of concurrent callers counts every one of them. *)
Theorem increment_atomic_upsert (now : Z) (slug : string) (db : Database) :
  (page_views db !! slug = None → (increment now slug db).2 = 1)
  ∧ (∀ row, page_views db !! slug = Some row →
       (increment now slug db).2 = view_count row + 1)
  ∧ view_count <$> page_views (increment now slug db).1 !! slug
    = Some (increment now slug db).2
  ∧ (∀ other, other ≠ slug →
       page_views (increment now slug db).1 !! other = page_views db !! other)
  ∧ (∀ calls : list (Z * string),
       get slug (exec_increments calls db).1
       = get slug db + calls_for slug calls)
  ∧ (∀ (calls : list (Z * string)) (j : nat) (t : Z),
       calls !! j = Some (t, slug) →
       (exec_increments calls db).2 !! j
       = Some (get slug db + calls_for slug (take (S j) calls))).
Proof.
  repeat split.
  - intros Hnone. unfold increment. rewrite Hnone. reflexivity.
  - intros row Hrow. unfold increment. rewrite Hrow. reflexivity.
  - unfold increment. cbn [fst snd set_page_views page_views].
    rewrite lookup_insert_eq. reflexivity.
  - intros other Hne. unfold increment. cbn [fst set_page_views page_views].
    rewrite lookup_insert_ne by done. reflexivity.
  - intros calls. apply exec_increments_count.
  - intros calls j t Hj. eapply exec_increments_totals, Hj.
Qed.

(** Three callers, two of them for ["post"]: the new counter reads 2, and
    the two callers were told 1 and 2. *)
Lemma increment_atomic_upsert_example :
  (increment 0 "post" D1.empty).2 = 1
  ∧ get "post"
      (exec_increments [(0, "post"); (5, "other"); (9, "post")]%string D1.empty).1
    = 2
  ∧ (exec_increments [(0, "post"); (5, "other"); (9, "post")]%string D1.empty).2
    !! 2%nat = Some 2.
Proof.
  pose proof (increment_atomic_upsert 0 "post" D1.empty)
    as (Hnew & _ & _ & _ & Hcount & Htotals).
  split; [apply Hnew; reflexivity |].
  split.
  - rewrite Hcount. reflexivity.
  - rewrite (Htotals _ 2%nat 9) by reflexivity. reflexivity.
Defined.

End CounterStoreFacts.

(** ** The order of [sort] and the cache keys *)

Section CacheKeys.
Import D1 PageViewsRoute.

(** Sorting forgets the order of the request. *)
Lemma sorted_permutation (l1 l2 : list string) :
  l1 ≡ₚ l2 → sorted l1 = sorted l2.
Proof.
  intros Hperm. unfold sorted.
  apply (Sorted_unique String.le).
  - apply Sorted_merge_sort, _.
  - apply Sorted_merge_sort, _.
  - rewrite !merge_sort_Permutation. exact Hperm.
Qed.

Lemma batchCacheKey_permutation (l1 l2 : list string) :
  l1 ≡ₚ l2 → batchCacheKey l1 = batchCacheKey l2.
Proof.
  intros Hperm. unfold batchCacheKey. rewrite (sorted_permutation l1 l2 Hperm).
  reflexivity.
Qed.

(** Single keys determine their slug, and no single key is a batch key. *)
Lemma single_key_inj (a b : string) :
  (KV_PREFIX ++ a)%string = (KV_PREFIX ++ b)%string → a = b.
Proof. apply String.app_inj. Qed.

Lemma single_key_not_batch (a b : string) :
  (KV_PREFIX ++ a)%string ≠ (KV_BATCH_PREFIX ++ b)%string.
Proof. cbv [KV_PREFIX KV_BATCH_PREFIX String.append]. congruence. Qed.

Lemma batchCacheKey_not_single (slugs : list string) (a : string) :
  (KV_PREFIX ++ a)%string ≠ batchCacheKey slugs.
Proof. apply single_key_not_batch. Qed.

End CacheKeys.

(** ** Batch reads *)

Section ObjectFacts.
Context {A : Type}.

Lemma set_plain (o : gmap string A) (k : string) (a : A) :
  k ≠ "__proto__"%string → JSObject.set o k a = <[k := a]> o.
Proof.
  intros Hk. unfold JSObject.set. apply String.eqb_neq in Hk. rewrite Hk.
  destruct (o !! k); reflexivity.
Qed.

Lemma set_proto (o : gmap string A) (a : A) :
  o !! "__proto__"%string = None → JSObject.set o "__proto__" a = o.
Proof. intros Hnone. unfold JSObject.set. rewrite Hnone. reflexivity. Qed.

(** An assignment under another name leaves a property as it was. *)
Lemma lookup_set_ne (o : gmap string A) (k s : string) (a : A) :
  s ≠ k → JSObject.set o k a !! s = o !! s.
Proof.
  intros Hne. unfold JSObject.set.
  destruct (o !! k); [apply lookup_insert_ne; congruence |].
  destruct (String.eqb k "__proto__"); [reflexivity |].
  apply lookup_insert_ne; congruence.
Qed.

(** An assignment under any name but [__proto__] is seen by a read of the
    own property. *)
Lemma lookup_set_eq (o : gmap string A) (k : string) (a : A) :
  k ≠ "__proto__"%string → JSObject.set o k a !! k = Some a.
Proof. intros Hk. rewrite set_plain by exact Hk. apply lookup_insert_eq. Qed.

(** No assignment of the routes gives an object an own [__proto__]. *)
Lemma lookup_set_proto (o : gmap string A) (k : string) (a : A) :
  o !! "__proto__"%string = None →
  JSObject.set o k a !! "__proto__"%string = None.
Proof.
  intros Hnone. destruct (decide (k = "__proto__"%string)) as [-> | Hk].
  - rewrite set_proto; assumption.
  - rewrite lookup_set_ne by congruence. exact Hnone.
Qed.

End ObjectFacts.

Section BatchReads.
Import D1 PageViewsRoute ViewIngestion.

Lemma decide_elem_of_cons {A} (s a : string) (slugs : list string) (x y : A) :
  (if decide (s ∈ a :: slugs) then x else y)
  = if decide (s = a) then x else if decide (s ∈ slugs) then x else y.
Proof.
  destruct (decide (s ∈ a :: slugs)) as [Hin | Hin];
    destruct (decide (s = a)) as [Heq | Hne]; try reflexivity;
    destruct (decide (s ∈ slugs)) as [Hin' | Hin']; try reflexivity;
    rewrite elem_of_cons in Hin; tauto.
Qed.

Lemma readOne_missing (kv : KVNamespace) (slugs : list string) :
  ∀ found missing,
    (fold_left (readOne kv) slugs (found, missing)).2 = missing ++ uncached kv slugs.
Proof.
  unfold uncached.
  induction slugs as [| a slugs IH]; intros found missing; cbn [fold_left].
  - rewrite app_nil_r. reflexivity.
  - rewrite filter_cons. unfold readOne at 2.
    destruct (getFromKV kv a) as [v |] eqn:Ha.
    + rewrite IH, decide_False by discriminate. reflexivity.
    + rewrite IH, decide_True by reflexivity. rewrite <- app_assoc. reflexivity.
Qed.

(** [found] never gets an own [__proto__]. *)
Lemma readOne_proto (kv : KVNamespace) (slugs : list string) :
  ∀ found missing,
    found !! "__proto__"%string = None →
    (fold_left (readOne kv) slugs (found, missing)).1 !! "__proto__"%string = None.
Proof.
  induction slugs as [| a slugs IH]; intros found missing Hnone; cbn [fold_left];
    [exact Hnone |].
  unfold readOne at 2. destruct (getFromKV kv a) as [v |]; apply IH;
    [apply lookup_set_proto |]; exact Hnone.
Qed.

(** Under every other name, [found] has the cache entry of a requested
    slug. *)
Lemma readOne_found (kv : KVNamespace) (slugs : list string) :
  ∀ found missing s,
    s ≠ "__proto__"%string →
    (fold_left (readOne kv) slugs (found, missing)).1 !! s
    = if decide (s ∈ slugs)
      then match getFromKV kv s with
           | Some v => Some v
           | None => found !! s
           end
      else found !! s.
Proof.
  induction slugs as [| a slugs IH]; intros found missing s Hs; cbn [fold_left].
  - rewrite decide_False by apply not_elem_of_nil. reflexivity.
  - unfold readOne at 2.
    rewrite decide_elem_of_cons.
    destruct (getFromKV kv a) as [v |] eqn:Ha; rewrite IH by exact Hs; clear IH;
      destruct (decide (s = a)) as [-> | Hne];
      destruct (decide (_ ∈ slugs)) as [Hin | Hin];
      try rewrite Ha; try rewrite lookup_set_eq by exact Hs;
      try rewrite lookup_set_ne by congruence;
      try reflexivity.
Qed.

(** [getMany] has the count of every requested slug that has a counter,
    except under [__proto__], where the assignment is lost. *)
Lemma getMany_lookup (slugs : list string) (db : Database) (s : string) :
  PageViewRepository.getMany slugs db !! s
  = if decide (s ∈ slugs ∧ s ≠ "__proto__"%string)
    then view_count <$> page_views db !! s else None.
Proof.
  unfold PageViewRepository.getMany. destruct slugs as [| a slugs].
  - rewrite decide_False by (intros [H _]; by apply not_elem_of_nil in H).
    apply lookup_empty.
  - cbv zeta.
    assert (∀ rows : gmap string PageView,
              map_fold (λ slug row views,
                          JSObject.set views slug (view_count row)) ∅ rows
              !! "__proto__"%string = None
              ∧ (s ≠ "__proto__"%string →
                 map_fold (λ slug row views,
                             JSObject.set views slug (view_count row)) ∅ rows
                 !! s = view_count <$> rows !! s)) as Hfold.
    { intros rows.
      apply (map_fold_weak_ind
               (λ (views : gmap string Z) (rows : gmap string PageView),
                  views !! "__proto__"%string = None
                  ∧ (s ≠ "__proto__"%string →
                     views !! s = view_count <$> rows !! s))).
      - split; [apply lookup_empty |]. intros _.
        rewrite !lookup_empty. reflexivity.
      - intros slug row m views Hnone [Hproto IH]. split.
        + apply lookup_set_proto, Hproto.
        + intros Hs. destruct (decide (s = slug)) as [-> | Hne].
          * rewrite lookup_set_eq by exact Hs. rewrite lookup_insert_eq.
            reflexivity.
          * rewrite lookup_set_ne by exact Hne.
            rewrite lookup_insert_ne by congruence. apply IH, Hs. }
    destruct (Hfold (filter (λ row, row.1 ∈ a :: slugs) (page_views db)))
      as [Hproto Hplain].
    destruct (decide (s = "__proto__"%string)) as [-> | Hs].
    + rewrite decide_False by tauto. exact Hproto.
    + rewrite (Hplain Hs), map_lookup_filter.
      destruct (page_views db !! s) as [row |]; cbn.
      * rewrite option_guard_decide.
        destruct (decide (s ∈ a :: slugs)) as [Hin | Hout].
        -- rewrite decide_True by tauto. reflexivity.
        -- rewrite decide_False by tauto. reflexivity.
      * destruct (decide (s ∈ a :: slugs ∧ s ≠ "__proto__"%string)); reflexivity.
Qed.

(** The order of the slugs asked of [getMany] is immaterial (the callbacks
    of [getManyFromKV] may push onto [missing] in any order). *)
Lemma getMany_permutation (l1 l2 : list string) (db : Database) :
  l1 ≡ₚ l2 → PageViewRepository.getMany l1 db = PageViewRepository.getMany l2 db.
Proof.
  intros Hperm. apply map_eq. intros s. rewrite !getMany_lookup.
  destruct (decide (s ∈ l1 ∧ _)) as [[H1 Hs] | H1];
    destruct (decide (s ∈ l2 ∧ _)) as [[H2 Hs'] | H2];
    try reflexivity; exfalso.
  - apply H2. split; [rewrite <- Hperm |]; assumption.
  - apply H1. split; [rewrite Hperm |]; assumption.
Qed.

(** The merge loop under a name other than [__proto__], and under
    [__proto__] when the spread has no such property. *)
Lemma merge_lookup (f : string → JSObject.value) (slugs : list string) :
  ∀ (result : gmap string JSObject.value) (s : string),
    s ≠ "__proto__"%string →
    fold_left (λ result slug, JSObject.set result slug (f slug)) slugs result !! s
    = if decide (s ∈ slugs) then Some (f s) else result !! s.
Proof.
  induction slugs as [| a slugs IH]; intros result s Hs; cbn [fold_left].
  - rewrite decide_False by apply not_elem_of_nil. reflexivity.
  - rewrite IH by exact Hs. rewrite decide_elem_of_cons.
    destruct (decide (s = a)) as [-> | Hne];
      destruct (decide (_ ∈ slugs)) as [Hin | Hin];
      try rewrite lookup_set_eq by exact Hs;
      try rewrite lookup_set_ne by congruence;
      reflexivity.
Qed.

Lemma merge_proto (f : string → JSObject.value) (slugs : list string) :
  ∀ result : gmap string JSObject.value,
    result !! "__proto__"%string = None →
    fold_left (λ result slug, JSObject.set result slug (f slug)) slugs result
    !! "__proto__"%string = None.
Proof.
  induction slugs as [| a slugs IH]; intros result Hnone; cbn [fold_left];
    [exact Hnone |].
  apply IH, lookup_set_proto, Hnone.
Qed.

(** What [writeManyToKV] leaves under every key. *)
Lemma writeManyToKV_single (kv : KVNamespace) (views : gmap string Z) (s : string) :
  writeManyToKV kv views !! (KV_PREFIX ++ s)%string
  = match views !! s with
    | Some count => Some (JS.toString count)
    | None => kv !! (KV_PREFIX ++ s)%string
    end.
Proof.
  unfold writeManyToKV.
  apply (map_fold_weak_ind
           (λ r m, r !! (KV_PREFIX ++ s)%string
                   = match m !! s with
                     | Some count => Some (JS.toString count)
                     | None => kv !! (KV_PREFIX ++ s)%string
                     end)).
  - rewrite lookup_empty. reflexivity.
  - intros a count m r Hnone IH. unfold writeToKV.
    destruct (decide (a = s)) as [-> | Hne].
    + rewrite !lookup_insert_eq. reflexivity.
    + rewrite lookup_insert_ne by (intros H; apply single_key_inj in H; done).
      rewrite lookup_insert_ne by done. exact IH.
Qed.

Lemma writeManyToKV_other (kv : KVNamespace) (views : gmap string Z) (k : string) :
  (∀ s, k ≠ (KV_PREFIX ++ s)%string) → writeManyToKV kv views !! k = kv !! k.
Proof.
  intros Hk. unfold writeManyToKV.
  apply (map_fold_weak_ind (λ r (m : gmap string Z), r !! k = kv !! k)).
  - reflexivity.
  - intros a count m r _ IH. unfold writeToKV.
    rewrite lookup_insert_ne by (intros H; apply (Hk a); done). exact IH.
Qed.

(** No task writes under a batch key. *)
Lemma settle_batch_key (tasks : list Task) :
  ∀ (kv : KVNamespace) (x : string),
    settle tasks kv !! (KV_BATCH_PREFIX ++ x)%string
    = kv !! (KV_BATCH_PREFIX ++ x)%string.
Proof.
  unfold settle.
  induction tasks as [| t tasks IH]; intros kv x; cbn [fold_left]; [reflexivity |].
  rewrite IH. destruct t as [slug count | views]; cbn [run_task].
  - unfold writeToKV. apply lookup_insert_ne, single_key_not_batch.
  - apply writeManyToKV_other. intros s H. symmetry in H.
    exact (single_key_not_batch _ _ H).
Qed.

(** Writing the store's counts of uncached slugs back into the cache does
    not change what a read yields. *)
Lemma current_count_backfill (kv : KVNamespace) (db : Database)
  (slugs : list string) (s : string) :
  current_count
    (writeManyToKV kv (PageViewRepository.getMany (uncached kv slugs) db)) db s
  = current_count kv db s.
Proof.
  unfold current_count, getFromKV.
  rewrite writeManyToKV_single, getMany_lookup.
  destruct (decide (s ∈ uncached kv slugs ∧ _)) as [[Hin _] | Hout]; [| reflexivity].
  apply list_elem_of_filter in Hin as [Hnone _].
  unfold getFromKV in Hnone. unfold PageViewRepository.get.
  destruct (kv !! (KV_PREFIX ++ s)%string); [discriminate |].
  destruct (page_views db !! s) as [row |]; cbn; [| reflexivity].
  rewrite parseInt_toString. reflexivity.
Qed.

Lemma bad_size_permutation (l1 l2 : list string) :
  l1 ≡ₚ l2 → bad_size l1 = bad_size l2.
Proof. intros Hperm. unfold bad_size. rewrite (Permutation_length Hperm). reflexivity. Qed.

(** Without its aggregate entry, a batch read goes by the single keys,
    which the removal leaves alone. *)
Lemma readOne_delete_batch (kv : KVNamespace) (key : string) (slugs : list string) :
  (∀ s, (KV_PREFIX ++ s)%string ≠ key) →
  ∀ acc, fold_left (readOne (delete key kv)) slugs acc
         = fold_left (readOne kv) slugs acc.
Proof.
  intros Hkey. induction slugs as [| a slugs IH]; intros acc; cbn [fold_left];
    [reflexivity |].
  rewrite IH. f_equal. unfold readOne, getFromKV.
  rewrite lookup_delete_ne by (intros H; exact (Hkey a (eq_sym H))).
  reflexivity.
Qed.

End BatchReads.

Section BatchFacts.
Import D1 PageViewsRoute ViewIngestion.
Variable JSON_parse : string → option (gmap string JS.jsnum).

(** The cached aggregate depends on the entry under the batch key only. *)
Lemma cachedAggregate_ext (kv kv' : KVNamespace) (slugs : list string) :
  kv' !! batchCacheKey slugs = kv !! batchCacheKey slugs →
  cachedAggregate JSON_parse kv' slugs = cachedAggregate JSON_parse kv slugs.
Proof. unfold cachedAggregate. intros ->. reflexivity. Qed.

Lemma cachedAggregate_settle (tasks : list Task) (kv : KVNamespace)
  (slugs : list string) :
  cachedAggregate JSON_parse (settle tasks kv) slugs
  = cachedAggregate JSON_parse kv slugs.
Proof. apply cachedAggregate_ext, settle_batch_key. Qed.

Lemma hasAll_permutation (data : gmap string JS.jsnum) (l1 l2 : list string) :
  l1 ≡ₚ l2 →
  forallb (λ slug, JSObject.defined (JSObject.get data slug)) l1
  = forallb (λ slug, JSObject.defined (JSObject.get data slug)) l2.
Proof.
  intros Hperm. apply eq_true_iff_eq. rewrite !forallb_forall.
  split; intros H x Hx; apply H; apply list_elem_of_In; apply list_elem_of_In in Hx.
  - rewrite Hperm. exact Hx.
  - rewrite <- Hperm. exact Hx.
Qed.

Lemma cachedAggregate_permutation (kv : KVNamespace) (l1 l2 : list string) :
  l1 ≡ₚ l2 →
  cachedAggregate JSON_parse kv l1 = cachedAggregate JSON_parse kv l2.
Proof.
  intros Hperm. unfold cachedAggregate.
  rewrite (batchCacheKey_permutation l1 l2 Hperm).
  destruct (kv !! batchCacheKey l2) as [cached |]; [| reflexivity].
  destruct (String.eqb cached EmptyString); [reflexivity |].
  destruct (JSON_parse cached) as [data |]; [| reflexivity].
  cbv zeta. rewrite (hasAll_permutation data l1 l2 Hperm). reflexivity.
Qed.

(** What the check of a served aggregate has seen: under every requested
    slug a property of the aggregate, or a member of [Object.prototype]. *)
Lemma cachedAggregate_hasAll (kv : KVNamespace) (slugs : list string)
  (data : gmap string JS.jsnum) :
  cachedAggregate JSON_parse kv slugs = Some data →
  ∀ s, s ∈ slugs → is_Some (data !! s) ∨ s ∈ JSObject.Object_prototype.
Proof.
  unfold cachedAggregate.
  destruct (kv !! batchCacheKey slugs) as [cached |]; [| discriminate].
  destruct (String.eqb cached EmptyString); [discriminate |].
  destruct (JSON_parse cached) as [data' |]; [| discriminate].
  cbv zeta.
  destruct (forallb _ slugs) eqn:Hall; [| discriminate].
  intros [= <-] s Hs. rewrite forallb_forall in Hall.
  apply list_elem_of_In in Hs. apply Hall in Hs.
  unfold JSObject.get in Hs. destruct (data' !! s); [left; eauto |].
  case_bool_decide; [right; assumption | discriminate].
Qed.

(** A served aggregate is the mapping of the response: the merge copies
    its properties, and gives the response nothing that [c.json] writes. *)
Lemma getViewsBatch_hit (slugs : list string) (db : Database) (kv : KVNamespace)
  (data : gmap string JS.jsnum) :
  bad_size slugs = false →
  cachedAggregate JSON_parse kv slugs = Some data →
  getViewsBatch JSON_parse slugs db kv = (Batch data "kv", []).
Proof.
  intros Hsize Hhit. unfold getViewsBatch, getManyFromKV.
  fold (bad_size slugs). rewrite Hsize, Hhit. cbn.
  f_equal. f_equal.
  pose proof (cachedAggregate_hasAll kv slugs data Hhit) as Hall.
  set (f := λ slug : string,
         coalesce (JSObject.get data slug)
           (JSObject.get (∅ : gmap string Z) slug)).
  change (JSObject.json
            (fold_left (λ result slug, JSObject.set result slug (f slug)) slugs
               (JSObject.number <$> data)) = data).
  assert (∀ a, a ∈ slugs →
               f a = match data !! a with
                     | Some n => JSObject.number n
                     | None => JSObject.member
                     end) as Hf.
  { intros a Ha. subst f. cbn beta. unfold JSObject.get at 1.
    destruct (Hall a Ha) as [[n ->] | Hproto]; [reflexivity |].
    destruct (data !! a); [reflexivity |].
    rewrite bool_decide_eq_true_2 by exact Hproto. reflexivity. }
  clearbody f.
  assert (∀ (l : list string) (result : gmap string JSObject.value),
            (∀ s, s ∈ l → s ∈ slugs) →
            (∀ s, result !! s = JSObject.number <$> data !! s
                  ∨ (data !! s = None ∧ result !! s = Some JSObject.member)) →
            ∀ s, fold_left (λ result slug, JSObject.set result slug (f slug)) l
                   result !! s = JSObject.number <$> data !! s
                 ∨ (data !! s = None
                    ∧ fold_left (λ result slug, JSObject.set result slug (f slug))
                        l result !! s = Some JSObject.member)) as Hloop.
  { induction l as [| a l IH]; intros result Hl Hresult; [exact Hresult |].
    cbn [fold_left]. apply IH; [intros s Hs; apply Hl; by right |].
    intros s. destruct (decide (s = a)) as [-> | Hne];
      [| rewrite lookup_set_ne by exact Hne; apply Hresult].
    assert (a ∈ slugs) as Ha by (apply Hl; by left).
    rewrite (Hf a Ha). unfold JSObject.set.
    destruct (Hresult a) as [Hown | [Hnone Hmember]].
    - destruct (data !! a) as [n |] eqn:Hdata; cbn in Hown; rewrite Hown.
      + rewrite lookup_insert_eq. by left.
      + destruct (String.eqb a "__proto__").
        * left. exact Hown.
        * right. split; [reflexivity | apply lookup_insert_eq].
    - rewrite Hnone, Hmember.
      right. split; [reflexivity | apply lookup_insert_eq]. }
  apply map_eq. intros s. unfold JSObject.json. rewrite lookup_omap.
  destruct (Hloop slugs (JSObject.number <$> data)) with (s := s)
    as [-> | [-> ->]].
  - intros ? ?; assumption.
  - intros s'. left. apply lookup_fmap.
  - destruct (data !! s); reflexivity.
  - reflexivity.
Qed.

(** Without a served aggregate the response has, for every requested slug,
    the entry that [batch_entry] describes, and the counts that the store
    gave are handed to the cache. *)
Lemma getViewsBatch_miss (slugs : list string) (db : Database) (kv : KVNamespace) :
  bad_size slugs = false →
  cachedAggregate JSON_parse kv slugs = None →
  ∃ views cache,
    getViewsBatch JSON_parse slugs db kv
    = (Batch views cache,
       if bool_decide (0 < length (uncached kv slugs))%nat
       then [WriteManyToKV (PageViewRepository.getMany (uncached kv slugs) db)]
       else [])
    ∧ ∀ s, views !! s
           = if decide (s ∈ slugs) then batch_entry kv db s else None.
Proof.
  intros Hsize Hmiss. unfold getViewsBatch, getManyFromKV.
  fold (bad_size slugs). rewrite Hsize, Hmiss.
  pose proof (readOne_missing kv slugs ∅ []) as Hmissing.
  pose proof (readOne_found kv slugs ∅ []) as Hfound.
  pose proof (readOne_proto kv slugs ∅ [] (lookup_empty _)) as Hproto.
  destruct (fold_left (readOne kv) slugs (∅, [])) as [found missing].
  cbn [fst snd app] in Hmissing, Hfound, Hproto. subst missing.
  set (dbResults := if bool_decide (0 < length (uncached kv slugs))%nat
                    then _ else _).
  assert (dbResults
          = (if bool_decide (0 < length (uncached kv slugs))%nat
             then PageViewRepository.getMany (uncached kv slugs) db else ∅,
             if bool_decide (0 < length (uncached kv slugs))%nat
             then [WriteManyToKV (PageViewRepository.getMany (uncached kv slugs) db)]
             else [])) as ->.
  { subst dbResults. case_bool_decide; reflexivity. }
  eexists _, _. split; [reflexivity |].
  intros s. unfold JSObject.json, batch_entry. rewrite lookup_omap.
  destruct (decide (s = "__proto__"%string)) as [-> | Hs].
  { rewrite merge_proto by (rewrite lookup_fmap, Hproto; reflexivity).
    destruct (decide (_ ∈ slugs)); reflexivity. }
  rewrite (merge_lookup
             (λ slug, coalesce (JSObject.get found slug) (JSObject.get _ slug)))
    by exact Hs.
  apply String.eqb_neq in Hs as Hs'. rewrite Hs'.
  case_decide as Hin.
  2:{ rewrite lookup_fmap, (Hfound s) by (apply String.eqb_neq; exact Hs').
      rewrite decide_False by exact Hin. rewrite lookup_empty. reflexivity. }
  cbn. unfold JSObject.get at 1.
  rewrite (Hfound s) by (apply String.eqb_neq; exact Hs').
  rewrite decide_True by exact Hin. rewrite lookup_empty.
  unfold current_count.
  destruct (getFromKV kv s) as [v |] eqn:Hkv.
  { cbn [coalesce]. case_bool_decide; reflexivity. }
  case_bool_decide as Hmember; cbn [coalesce]; [reflexivity |].
  assert (s ∈ uncached kv slugs) as Huncached.
  { unfold uncached. apply list_elem_of_filter. split; assumption. }
  rewrite bool_decide_eq_true_2
    by (destruct (uncached kv slugs); [by apply elem_of_nil in Huncached | cbn; lia]).
  unfold JSObject.get. rewrite getMany_lookup.
  rewrite decide_True by (split; [exact Huncached | apply String.eqb_neq; exact Hs']).
  rewrite bool_decide_eq_false_2 by exact Hmember.
  unfold PageViewRepository.get.
  destruct (page_views db !! s); reflexivity.
Qed.

Lemma getViewsBatch_bad_size (slugs : list string) (db : Database)
  (kv : KVNamespace) :
  bad_size slugs = true → getViewsBatch JSON_parse slugs db kv = (Invalid, []).
Proof.
  intros Hbad. unfold getViewsBatch. fold (bad_size slugs). rewrite Hbad.
  reflexivity.
Qed.

(** For slugs that name no member of [Object.prototype] the batch read is
    independent of the order: a request for [l1] and then a request for a
    reordering [l2] of it, whether or not the cache writes of the first
    have landed, carry the same mapping. *)
Lemma getViewsBatch_order_plain (l1 l2 : list string) (db : Database)
  (kv : KVNamespace) (landed : bool) :
  l1 ≡ₚ l2 →
  Forall (λ s, s ∉ JSObject.Object_prototype) l1 →
  batchCacheKey l1 = batchCacheKey l2
  ∧ views_of (getViewsBatch JSON_parse l1 db kv).1
    = views_of
        (getViewsBatch JSON_parse l2 db
           (after_tasks landed (getViewsBatch JSON_parse l1 db kv).2 kv)).1.
Proof.
  intros Hperm Hplain. split; [exact (batchCacheKey_permutation l1 l2 Hperm) |].
  pose proof (bad_size_permutation l1 l2 Hperm) as Hsize.
  destruct (bad_size l1) eqn:Hbad1; symmetry in Hsize.
  { rewrite !getViewsBatch_bad_size by assumption. reflexivity. }
  pose proof (cachedAggregate_permutation kv l1 l2 Hperm) as Hagg.
  destruct (cachedAggregate JSON_parse kv l1) as [data |] eqn:Hhit; symmetry in Hagg.
  - rewrite (getViewsBatch_hit l1 db kv data Hbad1 Hhit). cbn [fst snd].
    assert (after_tasks landed [] kv = kv) as -> by (destruct landed; reflexivity).
    rewrite (getViewsBatch_hit l2 db kv data Hsize Hagg). reflexivity.
  - destruct (getViewsBatch_miss l1 db kv Hbad1 Hhit) as (views & cache & -> & Hviews).
    cbn [fst snd views_of].
    set (kv' := after_tasks landed _ kv).
    assert (cachedAggregate JSON_parse kv' l2 = None) as Hmiss'.
    { rewrite <- Hagg. subst kv'. unfold after_tasks.
      destruct landed; [apply cachedAggregate_settle | reflexivity]. }
    assert (∀ s, current_count kv' db s = current_count kv db s) as Hcurrent.
    { intros s. subst kv'. unfold after_tasks.
      destruct landed; [| reflexivity].
      case_bool_decide; [| reflexivity].
      apply current_count_backfill. }
    destruct (getViewsBatch_miss l2 db kv' Hsize Hmiss') as (views' & cache' & -> & Hviews').
    cbn [fst views_of]. f_equal. apply map_eq. intros s. rewrite Hviews, Hviews'.
    destruct (decide (s ∈ l1)) as [H1 | H1]; destruct (decide (s ∈ l2)) as [H2 | H2];
      try reflexivity.
    + rewrite Forall_forall in Hplain. unfold batch_entry.
      rewrite bool_decide_eq_false_2 by (apply Hplain, H1).
      rewrite Hcurrent. reflexivity.
    + exfalso. apply H2. rewrite <- Hperm. exact H1.
    + exfalso. apply H1. rewrite Hperm. exact H2.
Qed.

(** A cached aggregate that lacks a requested slug is not consulted when
    the slug names no member of [Object.prototype]. *)
Lemma cachedAggregate_partial (kv : KVNamespace) (slugs : list string)
  (cached : string) (data : gmap string JS.jsnum) (s : string) :
  kv !! batchCacheKey slugs = Some cached →
  JSON_parse cached = Some data →
  s ∈ slugs → data !! s = None → s ∉ JSObject.Object_prototype →
  cachedAggregate JSON_parse kv slugs = None.
Proof.
  intros Hkv Hparse Hs Hnone Hplain. unfold cachedAggregate. rewrite Hkv.
  destruct (String.eqb cached EmptyString); [reflexivity |].
  rewrite Hparse. cbv zeta.
  destruct (forallb _ slugs) eqn:Hall; [| reflexivity].
  rewrite forallb_forall in Hall. apply list_elem_of_In in Hs.
  apply Hall in Hs. unfold JSObject.get in Hs. rewrite Hnone in Hs.
  rewrite bool_decide_eq_false_2 in Hs by exact Hplain. discriminate.
Qed.

(** An aggregate that lacks a requested slug which names no member of
    [Object.prototype] is treated as no aggregate at all. *)
Lemma cached_aggregate_plain_names (kv : KVNamespace) (slugs : list string)
  (cached : string) (data : gmap string JS.jsnum) (db : Database) (s : string) :
  kv !! batchCacheKey slugs = Some cached →
  JSON_parse cached = Some data →
  s ∈ slugs → data !! s = None → s ∉ JSObject.Object_prototype →
  getManyFromKV JSON_parse kv slugs
  = getManyFromKV JSON_parse (delete (batchCacheKey slugs) kv) slugs
  ∧ getViewsBatch JSON_parse slugs db kv
    = getViewsBatch JSON_parse slugs db (delete (batchCacheKey slugs) kv).
Proof.
  intros Hkv Hparse Hs Hnone Hplain.
  pose proof (cachedAggregate_partial kv slugs cached data s Hkv Hparse Hs Hnone
                Hplain) as Hmiss.
  assert (cachedAggregate JSON_parse (delete (batchCacheKey slugs) kv) slugs = None)
    as Hmiss'.
  { unfold cachedAggregate. rewrite lookup_delete_eq. reflexivity. }
  assert (∀ a, (KV_PREFIX ++ a)%string ≠ batchCacheKey slugs) as Hkeys.
  { intros a. apply batchCacheKey_not_single. }
  assert (getManyFromKV JSON_parse kv slugs
          = getManyFromKV JSON_parse (delete (batchCacheKey slugs) kv) slugs)
    as Hread.
  { unfold getManyFromKV. rewrite Hmiss, Hmiss'.
    symmetry. apply readOne_delete_batch, Hkeys. }
  split; [exact Hread |].
  unfold getViewsBatch. rewrite Hread. reflexivity.
Qed.

(** The check of the aggregate reads through the prototype: an aggregate
    that lacks requested slugs is served all the same when every slug it
    lacks names a member of [Object.prototype], and the response is the
    aggregate as it is, without those slugs. *)
Lemma cached_aggregate_inherited (kv : KVNamespace) (slugs : list string)
  (cached : string) (data : gmap string JS.jsnum) (db : Database) :
  bad_size slugs = false →
  kv !! batchCacheKey slugs = Some cached →
  cached ≠ EmptyString →
  JSON_parse cached = Some data →
  (∀ s, s ∈ slugs → is_Some (data !! s) ∨ s ∈ JSObject.Object_prototype) →
  getManyFromKV JSON_parse kv slugs = (data, [])
  ∧ getViewsBatch JSON_parse slugs db kv = (Batch data "kv", []).
Proof.
  intros Hsize Hkv Hnonempty Hparse Hall.
  assert (cachedAggregate JSON_parse kv slugs = Some data) as Hhit.
  { unfold cachedAggregate. rewrite Hkv.
    apply String.eqb_neq in Hnonempty. rewrite Hnonempty, Hparse. cbv zeta.
    assert (forallb (λ slug, JSObject.defined (JSObject.get data slug)) slugs
            = true) as ->; [| reflexivity].
    apply forallb_forall. intros s Hs. apply list_elem_of_In in Hs.
    unfold JSObject.get. destruct (Hall s Hs) as [[n ->] | Hproto]; [reflexivity |].
    destruct (data !! s); [reflexivity |].
    rewrite bool_decide_eq_true_2 by exact Hproto. reflexivity. }
  split; [unfold getManyFromKV; rewrite Hhit; reflexivity |].
  apply getViewsBatch_hit; assumption.
Qed.

(** C8: the batch route never writes under a batch key.  Whatever a batch
    request finds, the cache holds under every batch key what it held
    before, also after the tasks of the request have run; an aggregate
    that was missed is missed again by the same request. *)
Theorem getViewsBatch_leaves_aggregate (slugs : list string) (db : Database)
  (kv : KVNamespace) :
  (∀ x, settle (getViewsBatch JSON_parse slugs db kv).2 kv
          !! (KV_BATCH_PREFIX ++ x)%string
        = kv !! (KV_BATCH_PREFIX ++ x)%string)
  ∧ cachedAggregate JSON_parse
      (settle (getViewsBatch JSON_parse slugs db kv).2 kv) slugs
    = cachedAggregate JSON_parse kv slugs.
Proof.
  split; [intros x; apply settle_batch_key | apply cachedAggregate_settle].
Qed.

End BatchFacts.

(** ** Single-slug increments and reads *)

Section IngestionFacts.
Import D1 PageViewsRoute ViewIngestion.
Variable hashString : string → string.

Lemma checkRateLimit_denied (now : Z) (db : Database) (ipHash slug : string) :
  allowed (checkRateLimit now db ipHash slug).2 = false →
  (checkRateLimit now db ipHash slug).1 = db.
Proof.
  unfold checkRateLimit.
  destruct (rate_limits db !! (ipHash ++ ":" ++ slug)%string) as [created |];
    [destruct (Time.text_gt created (Time.five_minutes_ago now)) |]; cbn;
    congruence.
Qed.

Lemma checkRateLimit_page_views (now : Z) (db : Database) (ipHash slug : string) :
  page_views (checkRateLimit now db ipHash slug).1 = page_views db.
Proof.
  unfold checkRateLimit.
  destruct (rate_limits db !! (ipHash ++ ":" ++ slug)%string) as [created |];
    [destruct (Time.text_gt created (Time.five_minutes_ago now)) |];
    reflexivity.
Qed.

(** A denied request is answered with a read and changes nothing. *)
Lemma incrementView_limited (now : Z) (req : Request) (db : Database)
  (kv : KVNamespace) :
  invalid_post_slug (param_slug req) = false →
  allowed (checkRateLimit now db (hashString (client_ip req)) (param_slug req)).2
  = false →
  incrementView hashString now req db kv
  = (Limited (current_count kv db (param_slug req)), db, []).
Proof.
  intros Hvalid Hdenied. unfold incrementView. rewrite Hvalid.
  fold (client_ip req).
  pose proof (checkRateLimit_denied _ _ _ _ Hdenied) as Hdb.
  destruct (checkRateLimit now db (hashString (client_ip req)) (param_slug req))
    as [db1 rateLimit].
  cbn [fst snd] in *. subst db1. rewrite Hdenied. reflexivity.
Qed.

(** An admitted request adds one to the counter and schedules the write
    of the new total into the cache. *)
Lemma incrementView_admitted (now : Z) (req : Request) (db : Database)
  (kv : KVNamespace) :
  invalid_post_slug (param_slug req) = false →
  allowed (checkRateLimit now db (hashString (client_ip req)) (param_slug req)).2
  = true →
  ∃ db',
    incrementView hashString now req db kv
    = (Counted (PageViewRepository.get (param_slug req) db + 1), db',
       [WriteToKV (param_slug req) (PageViewRepository.get (param_slug req) db + 1)])
    ∧ PageViewRepository.get (param_slug req) db'
      = PageViewRepository.get (param_slug req) db + 1.
Proof.
  intros Hvalid Hallowed. unfold incrementView. rewrite Hvalid.
  fold (client_ip req).
  pose proof (checkRateLimit_page_views now db (hashString (client_ip req))
                (param_slug req)) as Hpv.
  destruct (checkRateLimit now db (hashString (client_ip req)) (param_slug req))
    as [db1 rateLimit].
  cbn [fst snd] in *. rewrite Hallowed. cbn [negb].
  pose proof (increment_total now (param_slug req) db1) as Htotal.
  pose proof (get_increment now (param_slug req) (param_slug req) db1) as Hget.
  destruct (PageViewRepository.increment now (param_slug req) db1) as [db2 count].
  cbn [fst snd] in *. rewrite decide_True in Hget by reflexivity.
  assert (PageViewRepository.get (param_slug req) db1
          = PageViewRepository.get (param_slug req) db) as Hsame.
  { unfold PageViewRepository.get. rewrite Hpv. reflexivity. }
  rewrite Hsame in *. subst count. eexists. split; [reflexivity | exact Hget].
Qed.

(** The responses of POST /:slug: invalid, limited or counted. *)
Lemma incrementView_cases (now : Z) (req : Request) (db : Database)
  (kv : KVNamespace) :
  (invalid_post_slug (param_slug req) = true
   ∧ incrementView hashString now req db kv = (Invalid, db, []))
  ∨ (invalid_post_slug (param_slug req) = false
     ∧ allowed (checkRateLimit now db (hashString (client_ip req))
                  (param_slug req)).2 = false
     ∧ incrementView hashString now req db kv
       = (Limited (current_count kv db (param_slug req)), db, []))
  ∨ (invalid_post_slug (param_slug req) = false
     ∧ ∃ db',
         incrementView hashString now req db kv
         = (Counted (PageViewRepository.get (param_slug req) db + 1), db',
            [WriteToKV (param_slug req)
               (PageViewRepository.get (param_slug req) db + 1)])
         ∧ PageViewRepository.get (param_slug req) db'
           = PageViewRepository.get (param_slug req) db + 1).
Proof.
  destruct (invalid_post_slug (param_slug req)) eqn:Hvalid.
  - left. split; [reflexivity |]. unfold incrementView. rewrite Hvalid. reflexivity.
  - right.
    destruct (allowed (checkRateLimit now db (hashString (client_ip req))
                         (param_slug req)).2) eqn:Hallowed.
    + right. split; [reflexivity |]. apply incrementView_admitted; assumption.
    + left. repeat split; try assumption. apply incrementView_limited; assumption.
Qed.

Lemma stored_count_get (db : Database) (slug : string) :
  stored_count db slug = PageViewRepository.get slug db.
Proof.
  unfold stored_count, PageViewRepository.get.
  destruct (page_views db !! slug); reflexivity.
Qed.

Lemma increments_cons (e : Event) (events : list Event) (w : World) :
  increments hashString (e :: events) w
  = ((step hashString w e).1
       ++ (increments hashString events (step hashString w e).2).1,
     (increments hashString events (step hashString w e).2).2).
Proof.
  cbn [increments]. destruct (step hashString w e) as [resp w1]. cbn [fst snd].
  destruct (increments hashString events w1) as [resps w2]. reflexivity.
Qed.

(** A counted request for [slug] adds one to its counter and hands the
    write of the new count to the runtime; the cache is as it was. *)
Lemma step_counted (now : Z) (req : Request) (w : World) :
  Forall counted (step hashString w (Posted now req)).1 →
  ∃ db',
    step hashString w (Posted now req)
    = ([Counted (PageViewRepository.get (param_slug req) (w_db w) + 1)],
       {| w_db := db'; w_kv := w_kv w;
          w_pending :=
            w_pending w
              ++ [WriteToKV (param_slug req)
                    (PageViewRepository.get (param_slug req) (w_db w) + 1)] |})
    ∧ PageViewRepository.get (param_slug req) db'
      = PageViewRepository.get (param_slug req) (w_db w) + 1.
Proof.
  cbn [step].
  destruct (incrementView_cases now req (w_db w) (w_kv w))
    as [[_ ->] | [(_ & _ & ->) | (_ & db' & -> & Hget)]]; cbn [fst].
  - intros H. apply Forall_cons in H as [[] _].
  - intros H. apply Forall_cons in H as [[] _].
  - intros _. exists db'. split; [reflexivity | exact Hget].
Qed.

(** The runtime carrying out a write leaves the store alone. *)
Lemma step_landed (i : nat) (w : World) :
  (step hashString w (Landed i)).1 = []
  ∧ w_db (step hashString w (Landed i)).2 = w_db w.
Proof. cbn [step]. destruct (w_pending w !! i); split; reflexivity. Qed.

(** Whatever lands and whenever, the store counts every request, and the
    cache holds the count of one of them. *)
Lemma increments_within (slug : string) (events : list Event) :
  ∀ (n : Z) (w : World),
    0 <= n →
    writes_within slug n w →
    Forall (for_slug slug) events →
    Forall counted (increments hashString events w).1 →
    writes_within slug (n + posts events) (increments hashString events w).2.
Proof.
  induction events as [| e events IH]; intros n w Hn Hw Hslug Hcounted.
  - cbn. rewrite Z.add_0_r. exact Hw.
  - apply Forall_cons in Hslug as [He Hslug].
    rewrite increments_cons in Hcounted |- *. cbn [fst snd] in *.
    apply Forall_app in Hcounted as [Hfirst Hrest].
    destruct Hw as (Hstore & Hcache & Hpending).
    destruct e as [now req | i]; cbn [for_slug posts] in *.
    + subst slug.
      destruct (step_counted now req w Hfirst) as (db' & Hstep & Hget).
      rewrite Hstep in Hrest |- *. cbn [snd] in *.
      replace (n + (1 + posts events)) with (n + 1 + posts events) by lia.
      apply IH; [lia | | exact Hslug | exact Hrest].
      split; [cbn; lia |]. cbn [w_kv w_pending]. split.
      * destruct Hcache as [Hnone | (k & Hk & Hsome)]; [left; exact Hnone |].
        right. exists k. split; [lia | exact Hsome].
      * apply Forall_app. split.
        -- eapply Forall_impl; [exact Hpending |].
           intros task (k & Hk & ->). exists k. split; [lia | reflexivity].
        -- constructor; [| constructor].
           exists (n + 1). split; [lia |]. rewrite Hstore. reflexivity.
    + apply IH; [exact Hn | | exact Hslug | exact Hrest].
      cbn [step]. destruct (w_pending w !! i) as [task |] eqn:Htask;
        cbn [snd]; [| repeat split; assumption].
      split; [exact Hstore |]. cbn [w_kv w_pending].
      pose proof (proj1 (Forall_lookup _ _) Hpending i task Htask)
        as (k & Hk & ->).
      split.
      * right. exists k. split; [exact Hk |]. cbn [run_task]. unfold writeToKV.
        apply lookup_insert_eq.
      * apply Forall_delete, Hpending.
Qed.

(** When the writes land in order, the cache holds the count of the last
    request whose write has landed. *)
Lemma increments_in_order (slug : string) (events : list Event) :
  ∀ (n : Z) (w : World),
    writes_in_order slug n w →
    Forall (for_slug slug) events →
    Forall in_order events →
    Forall counted (increments hashString events w).1 →
    writes_in_order slug (n + posts events) (increments hashString events w).2.
Proof.
  induction events as [| e events IH]; intros n w Hw Hslug Horder Hcounted.
  - cbn. rewrite Z.add_0_r. exact Hw.
  - apply Forall_cons in Hslug as [He Hslug].
    apply Forall_cons in Horder as [Hi Horder].
    rewrite increments_cons in Hcounted |- *. cbn [fst snd] in *.
    apply Forall_app in Hcounted as [Hfirst Hrest].
    destruct Hw as (Hstore & j & Hj & Hcache & Hpending).
    destruct e as [now req | i]; cbn [for_slug in_order posts] in *.
    + subst slug.
      destruct (step_counted now req w Hfirst) as (db' & Hstep & Hget).
      rewrite Hstep in Hrest |- *. cbn [snd] in *.
      replace (n + (1 + posts events)) with (n + 1 + posts events) by lia.
      apply IH; [| exact Hslug | exact Horder | exact Hrest].
      split; [cbn; lia |]. exists j. cbn [w_kv w_pending].
      split; [lia |]. split; [exact Hcache |].
      rewrite Hpending, Hstore.
      replace (n + 1 - j) with ((n - j) + 1) by lia.
      rewrite seqZ_app by lia. rewrite fmap_app. f_equal.
      replace (j + 1 + (n - j)) with (n + 1) by lia. reflexivity.
    + subst i. apply IH; [| exact Hslug | exact Horder | exact Hrest].
      cbn [step].
      destruct (Z.eq_dec j n) as [-> | Hlt].
      * assert (w_pending w = []) as Hnil
          by (rewrite Hpending, Z.sub_diag; reflexivity).
        rewrite Hnil. cbn [lookup list_lookup snd].
        split; [exact Hstore |]. exists n.
        split; [lia |]. split; [exact Hcache |].
        rewrite Hnil, Z.sub_diag. reflexivity.
      * rewrite Hpending, (seqZ_cons (j + 1) (n - j)) by lia.
        rewrite fmap_cons.
        cbn [lookup list_lookup snd w_db w_kv w_pending delete list_delete
               run_task].
        split; [exact Hstore |]. exists (j + 1).
        split; [lia |]. split.
        -- cbn [w_kv]. unfold writeToKV. rewrite lookup_insert_eq.
           destruct (Z.eqb_spec (j + 1) 0); [lia | reflexivity].
        -- cbn [w_pending]. f_equal. f_equal; lia.
Qed.

(** [getView] on a cache that has no entry for the slug, or the entry of
    the count [n] that the store holds. *)
Lemma getView_reads (slug : string) (n : Z) (st : Database * KVNamespace) :
  invalid_post_slug slug = false →
  reads slug n st →
  (getView slug st.1 st.2).1 = View slug (JS.Num n) "kv".
Proof.
  intros Hvalid [Hstore Hcache]. unfold getView.
  unfold invalid_post_slug in Hvalid.
  apply orb_false_elim in Hvalid as [Hvalid _].
  apply orb_false_elim in Hvalid as [Hvalid _].
  rewrite Hvalid. unfold getFromKV.
  destruct Hcache as [-> | ->]; cbn [fst].
  - rewrite Hstore. reflexivity.
  - rewrite parseInt_toString. reflexivity.
Qed.

(** C2, with the rate limiter and the detached cache writes in the
    picture.  Requests to [incrementView] for a valid slug [s], one after
    the other from a state with no counter, no cache entry and no
    outstanding write for [s], each of them admitted and counted, leave the
    stored counter at their number [N], whatever the runtime has carried
    out.  [getView(s)] answers [N] once the cache writes of the requests
    have all landed, in the order of the requests, and also while the cache
    has no entry for [s]; in every case it answers the count of one of the
    requests. *)
Theorem sequential_increments_counted (s : string) (events : list Event)
  (db : Database) (kv : KVNamespace) :
  invalid_post_slug s = false →
  page_views db !! s = None →
  kv !! (KV_PREFIX ++ s)%string = None →
  Forall (for_slug s) events →
  Forall counted (increments hashString events (settled db kv)).1 →
  stored_count (w_db (increments hashString events (settled db kv)).2) s
  = posts events
  ∧ (Forall in_order events →
     w_pending (increments hashString events (settled db kv)).2 = [] →
     (getView s (w_db (increments hashString events (settled db kv)).2)
        (w_kv (increments hashString events (settled db kv)).2)).1
     = View s (JS.Num (posts events)) "kv")
  ∧ (w_kv (increments hashString events (settled db kv)).2
       !! (KV_PREFIX ++ s)%string = None →
     (getView s (w_db (increments hashString events (settled db kv)).2)
        (w_kv (increments hashString events (settled db kv)).2)).1
     = View s (JS.Num (posts events)) "kv")
  ∧ ∃ k,
      (getView s (w_db (increments hashString events (settled db kv)).2)
         (w_kv (increments hashString events (settled db kv)).2)).1
      = View s (JS.Num k) "kv"
      ∧ k <= posts events ∧ (0 < posts events → 1 <= k).
Proof.
  intros Hvalid Hfresh Hcold Hslug Hcounted.
  assert (PageViewRepository.get s db = 0) as Hzero
    by (unfold PageViewRepository.get; rewrite Hfresh; reflexivity).
  assert (0 <= posts events) as Hposts.
  { clear. induction events as [| [now req | i] events IH]; cbn [posts]; lia. }
  pose proof (increments_within s events 0 (settled db kv) (Z.le_refl 0)) as Hany.
  pose proof (increments_in_order s events 0 (settled db kv)) as Hfifo.
  destruct (increments hashString events (settled db kv)) as [resps w].
  cbn [fst snd] in *. rewrite Z.add_0_l in Hany, Hfifo.
  destruct Hany as (Hstore & Hcache & _);
    [split; [exact Hzero | split; [left; exact Hcold | constructor]]
    | exact Hslug | exact Hcounted |].
  split; [rewrite stored_count_get; exact Hstore |].
  split; [| split].
  - intros Horder Hsettled.
    destruct Hfifo as (_ & j & Hj & Hentry & Hpending);
      [split; [exact Hzero |]; exists 0;
       split; [lia | split; [exact Hcold | reflexivity]]
      | exact Hslug | exact Horder | exact Hcounted |].
    rewrite Hsettled in Hpending. symmetry in Hpending.
    apply fmap_nil_inv in Hpending.
    assert (j = posts events) as ->.
    { destruct (Z.eq_dec j (posts events)) as [-> | Hne]; [reflexivity |].
      rewrite (seqZ_cons (j + 1)) in Hpending by lia. discriminate. }
    apply (getView_reads s (posts events) (w_db w, w_kv w) Hvalid).
    split; [exact Hstore |]. cbn [snd]. rewrite Hentry.
    destruct (posts events =? 0); [left | right]; reflexivity.
  - intros Hnone.
    apply (getView_reads s (posts events) (w_db w, w_kv w) Hvalid).
    split; [exact Hstore | left; exact Hnone].
  - destruct Hcache as [Hnone | (k & Hk & Hsome)].
    + exists (posts events). split; [| lia].
      apply (getView_reads s (posts events) (w_db w, w_kv w) Hvalid).
      split; [exact Hstore | left; exact Hnone].
    + exists k. split; [| lia].
      unfold getView. unfold invalid_post_slug in Hvalid.
      apply orb_false_elim in Hvalid as [Hvalid _].
      apply orb_false_elim in Hvalid as [Hvalid _].
      rewrite Hvalid. unfold getFromKV. rewrite Hsome, parseInt_toString.
      reflexivity.
Qed.

(** What the limiter leaves in [rate_limits]. *)
Lemma checkRateLimit_allowed (now : Z) (db : Database) (ipHash slug : string) :
  Clock.covered (now / 1000 - 300) → Clock.covered (now / 1000) →
  records_until (now / 1000 - 300) db →
  allowed (checkRateLimit now db ipHash slug).2 = true
  ∧ records_until (now / 1000) (checkRateLimit now db ipHash slug).1.
Proof.
  intros Hstart Hnow Hold.
  assert (records_until (now / 1000)
            (set_rate_limits
               <[(ipHash ++ ":" ++ slug)%string := Time.CURRENT_TIMESTAMP now]> db))
    as Hnew.
  { intros key text. cbn [set_rate_limits rate_limits].
    rewrite lookup_insert. case_decide; intros Htext.
    - injection Htext as <-. exists (now / 1000). split; [reflexivity |].
      split; [exact Hnow | lia].
    - destruct (Hold _ _ Htext) as (sec & -> & Hsec & Hle).
      exists sec. split; [reflexivity |]. split; [exact Hsec | lia]. }
  unfold checkRateLimit.
  destruct (rate_limits db !! (ipHash ++ ":" ++ slug)%string) as [created |] eqn:Hkey;
    [| split; [reflexivity | exact Hnew]].
  destruct (Hold _ _ Hkey) as (sec & -> & Hsec & Hle).
  unfold Time.five_minutes_ago. rewrite datetime_gt by assumption.
  destruct (Z.ltb_spec (now / 1000 - 300) sec); [lia |].
  split; [reflexivity | exact Hnew].
Qed.

Lemma increment_rate_limits (now : Z) (slug : string) (db : Database) :
  rate_limits (PageViewRepository.increment now slug db).1 = rate_limits db.
Proof. reflexivity. Qed.

(** Requests for valid slugs that are spaced by the window are all
    admitted and counted, whoever sends them and whatever lands in
    between. *)
Lemma spaced_increments_counted (events : list Event) :
  ∀ (last : Z) (w : World),
    records_until last (w_db w) →
    spaced last events →
    Forall (λ e, match e with
                 | Posted _ req => invalid_post_slug (param_slug req) = false
                 | Landed _ => True
                 end) events →
    Forall counted (increments hashString events w).1.
Proof.
  induction events as [| [now req | i] events IH]; intros last w Hold Hspaced Hvalid.
  - constructor.
  - destruct Hspaced as (Hstart & Hnow & Hgap & Hspaced).
    apply Forall_cons in Hvalid as [Hreq Hvalid].
    assert (records_until (now / 1000 - 300) (w_db w)) as Hold'.
    { intros key text Htext. destruct (Hold _ _ Htext) as (sec & -> & Hsec & Hle).
      exists sec. split; [reflexivity |]. split; [exact Hsec | lia]. }
    destruct (checkRateLimit_allowed now (w_db w) (hashString (client_ip req))
                (param_slug req) Hstart Hnow Hold') as [Hallowed Hnew].
    rewrite increments_cons. cbn [fst snd step]. unfold incrementView.
    rewrite Hreq. fold (client_ip req).
    destruct (checkRateLimit now (w_db w) (hashString (client_ip req))
                (param_slug req)) as [db1 rateLimit].
    cbn [fst snd] in Hallowed, Hnew. rewrite Hallowed. cbn [negb].
    pose proof (increment_rate_limits now (param_slug req) db1) as Hrl.
    destruct (PageViewRepository.increment now (param_slug req) db1)
      as [db2 count].
    cbn [fst snd app] in *. constructor; [exact I |].
    apply (IH (now / 1000)); [| exact Hspaced | exact Hvalid].
    cbn [w_db]. intros key text. rewrite Hrl. apply Hnew.
  - apply Forall_cons in Hvalid as [_ Hvalid]. cbn [spaced] in Hspaced.
    rewrite increments_cons. cbn [fst snd].
    destruct (step_landed i w) as [-> Hdb]. cbn [app].
    apply (IH last); [rewrite Hdb; exact Hold | exact Hspaced | exact Hvalid].
Qed.

(** A request that follows a counted one of the same caller for the same
    slug within five minutes is denied, whatever [hashString] is. *)
Lemma repeated_increment_limited (now now' : Z) (req : Request)
  (st : Database * KVNamespace) :
  Clock.covered (now / 1000) → Clock.covered (now' / 1000 - 300) →
  counted (serve_incrementView hashString now req st).1 →
  now' / 1000 - 300 < now / 1000 →
  ∃ count,
    (serve_incrementView hashString now' req
       (serve_incrementView hashString now req st).2).1 = Limited count.
Proof.
  intros Hnow Hstart. unfold serve_incrementView, incrementView.
  destruct (invalid_post_slug (param_slug req)) eqn:Hvalid; [intros [] |].
  fold (client_ip req).
  assert (rate_limits (checkRateLimit now st.1 (hashString (client_ip req))
                         (param_slug req)).1
          !! (hashString (client_ip req) ++ ":" ++ param_slug req)%string
          = Some (Time.datetime (now / 1000))
          ∨ allowed (checkRateLimit now st.1 (hashString (client_ip req))
                       (param_slug req)).2 = false) as Hrecord.
  { unfold checkRateLimit.
    destruct (rate_limits st.1 !! _) as [created |];
      [destruct (Time.text_gt created (Time.five_minutes_ago now)) |]; cbn;
      try (right; reflexivity); left; apply lookup_insert_eq. }
  destruct (checkRateLimit now st.1 (hashString (client_ip req)) (param_slug req))
    as [db1 rateLimit].
  cbn [fst snd] in Hrecord.
  destruct (allowed rateLimit) eqn:Hallowed; cbn [negb]; [| intros []].
  destruct Hrecord as [Hrecord | Hfalse]; [| discriminate].
  pose proof (increment_rate_limits now (param_slug req) db1) as Hrl.
  destruct (PageViewRepository.increment now (param_slug req) db1) as [db2 count].
  cbn [fst snd] in *. intros _ Hwithin.
  unfold checkRateLimit. rewrite Hrl, Hrecord.
  unfold Time.five_minutes_ago. rewrite datetime_gt by assumption.
  destruct (Z.ltb_spec (now' / 1000 - 300) (now / 1000)); [| lia].
  cbn. eexists. reflexivity.
Qed.

(** A read of a counter that reads [n] yields [n]. *)
Lemma current_count_reads (slug : string) (n : Z) (st : Database * KVNamespace) :
  reads slug n st → current_count st.2 st.1 slug = JS.Num n.
Proof.
  intros [Hstore Hcache]. unfold current_count, getFromKV.
  destruct Hcache as [-> | ->].
  - rewrite Hstore. reflexivity.
  - rewrite parseInt_toString. reflexivity.
Qed.

(** The cold start is coherent, and every request served to its end keeps
    the cache coherent with the store. *)
Lemma coherent_cold (db : Database) : coherent (db, ∅).
Proof. intros slug. split; [reflexivity | left; apply lookup_empty]. Qed.

Lemma coherent_incrementView (now : Z) (req : Request)
  (st : Database * KVNamespace) :
  coherent st → coherent (serve_incrementView hashString now req st).2.
Proof.
  intros Hst. unfold serve_incrementView, incrementView.
  destruct (invalid_post_slug (param_slug req)); [exact Hst |].
  fold (client_ip req).
  pose proof (checkRateLimit_page_views now st.1 (hashString (client_ip req))
                (param_slug req)) as Hpv.
  destruct (checkRateLimit now st.1 (hashString (client_ip req)) (param_slug req))
    as [db1 rateLimit].
  cbn [fst] in Hpv.
  assert (∀ slug, PageViewRepository.get slug db1
                  = PageViewRepository.get slug st.1) as Hsame.
  { intros slug. unfold PageViewRepository.get. rewrite Hpv. reflexivity. }
  destruct (allowed rateLimit); cbn [negb].
  - pose proof (increment_total now (param_slug req) db1) as Htotal.
    pose proof (λ other, get_increment now (param_slug req) other db1) as Hget.
    destruct (PageViewRepository.increment now (param_slug req) db1)
      as [db2 count].
    cbn [fst snd] in *. intros slug. unfold reads. cbn [fst snd settle fold_left run_task].
    split; [reflexivity |]. unfold writeToKV. rewrite Hget, Htotal.
    destruct (decide (param_slug req = slug)) as [-> | Hne].
    + right. rewrite lookup_insert_eq. reflexivity.
    + rewrite lookup_insert_ne
        by (intros H; apply single_key_inj in H; contradiction).
      rewrite Z.add_0_r, Hsame. apply Hst.
  - cbn [snd settle fold_left]. intros slug. unfold reads. cbn [fst snd].
    rewrite Hsame. apply Hst.
Qed.

Lemma coherent_getView (slug : string) (st : Database * KVNamespace) :
  coherent st → coherent (serve_getView slug st).2.
Proof.
  intros Hst. unfold serve_getView, getView.
  destruct (String.eqb slug EmptyString || (500 <? JS.length slug));
    [exact Hst |].
  destruct (getFromKV st.2 slug) as [count |]; [exact Hst |].
  cbn [snd settle fold_left run_task]. intros other. unfold reads. cbn [fst snd].
  split; [reflexivity |]. unfold writeToKV.
  destruct (decide (slug = other)) as [-> | Hne].
  - right. apply lookup_insert_eq.
  - rewrite lookup_insert_ne
      by (intros H; apply single_key_inj in H; contradiction).
    apply Hst.
Qed.

Lemma coherent_getViewsBatch
  (JSON_parse : string → option (gmap string JS.jsnum)) (slugs : list string)
  (st : Database * KVNamespace) :
  coherent st → coherent (serve_getViewsBatch JSON_parse slugs st).2.
Proof.
  intros Hst. unfold serve_getViewsBatch.
  destruct (bad_size slugs) eqn:Hsize.
  { rewrite getViewsBatch_bad_size by exact Hsize. exact Hst. }
  destruct (cachedAggregate JSON_parse st.2 slugs) as [data |] eqn:Hagg.
  { rewrite (getViewsBatch_hit JSON_parse slugs st.1 st.2 data Hsize Hagg).
    exact Hst. }
  destruct (getViewsBatch_miss JSON_parse slugs st.1 st.2 Hsize Hagg)
    as (views & cache & -> & _).
  case_bool_decide; [| exact Hst].
  cbn [snd settle fold_left run_task]. intros slug. unfold reads. cbn [fst snd].
  split; [reflexivity |].
  rewrite writeManyToKV_single, getMany_lookup.
  destruct (decide (slug ∈ uncached st.2 slugs ∧ _)) as [Hin | Hout];
    [| apply Hst].
  unfold PageViewRepository.get.
  destruct (page_views st.1 !! slug) as [row |] eqn:Hrow; cbn.
  - right. reflexivity.
  - destruct (Hst slug) as [_ Hcache]. unfold PageViewRepository.get in Hcache.
    rewrite Hrow in Hcache. exact Hcache.
Qed.

(** C3, with the cache in the picture: a view request that the rate
    limiter denies is answered with status 200 and a count that was read
    and not written: the number in the cache entry of the slug when there
    is one, the count in the table otherwise.  That is the count in the
    table whenever the cache has no entry for the slug or the entry of
    that count.  The database is left as it was and nothing is handed to
    the runtime.  No response of the view route has status 429; the
    comments route answers a denied submission with 429 and stores
    nothing. *)
Theorem rate_limited_requests (now : Z) (req : Request) (db : Database)
  (kv : KVNamespace) (creq : CommentsRoute.Request) :
  (invalid_post_slug (param_slug req) = false →
   allowed (checkRateLimit now db (hashString (client_ip req)) (param_slug req)).2
   = false →
   ∃ count,
     incrementView hashString now req db kv = (Limited count, db, [])
     ∧ status_code (incrementView hashString now req db kv).1.1 = 200
     ∧ (∀ text, kv !! (KV_PREFIX ++ param_slug req)%string = Some text →
                count = JS.parseInt text)
     ∧ (kv !! (KV_PREFIX ++ param_slug req)%string = None →
        count = JS.Num (stored_count db (param_slug req)))
     ∧ (kv !! (KV_PREFIX ++ param_slug req)%string
        = Some (JS.toString (stored_count db (param_slug req))) →
        count = JS.Num (stored_count db (param_slug req))))
  ∧ status_code (incrementView hashString now req db kv).1.1 ≠ 429
  ∧ (RateLimit.allowed
       (RateLimit.checkRateLimit now db
          (hashString (CommentIngestion.client_ip creq))) = false →
     CommentsRoute.submitComment hashString now creq db
     = (CommentsRoute.TooManyRequests, db)
     ∧ CommentsRoute.status_code
         (CommentsRoute.submitComment hashString now creq db).1 = 429).
Proof.
  split; [| split].
  - intros Hvalid Hdenied.
    rewrite (incrementView_limited now req db kv Hvalid Hdenied).
    exists (current_count kv db (param_slug req)).
    split; [reflexivity |]. split; [reflexivity |].
    unfold current_count, getFromKV. rewrite stored_count_get.
    split; [| split].
    + intros text ->. reflexivity.
    + intros ->. reflexivity.
    + intros ->. apply parseInt_toString.
  - destruct (incrementView_cases now req db kv)
      as [[_ ->] | [(_ & _ & ->) | (_ & db' & -> & _)]]; cbn; discriminate.
  - intros Hdenied. unfold CommentsRoute.submitComment.
    fold (CommentIngestion.client_ip creq). rewrite Hdenied.
    split; reflexivity.
Qed.

End IngestionFacts.

(** ** The thread materializer *)

Section ThreadFacts.
Import D1 CommentRepository Threads.

(** First loop: one object per id, each without replies. *)
Lemma commentMap_lookup (comments : list Comment) :
  ∀ (m : gmap positive CommentWithReplies) (p : positive),
    (is_Some
       (fold_left (λ m c, <[id c := {| comment := c; replies := [] |}]> m)
          comments m !! p)
     ↔ p ∈ id <$> comments ∨ is_Some (m !! p))
    ∧ (p ∈ id <$> comments →
       ∃ c, c ∈ comments ∧ id c = p
            ∧ fold_left (λ m c, <[id c := {| comment := c; replies := [] |}]> m)
                comments m !! p
              = Some {| comment := c; replies := [] |}).
Proof.
  induction comments as [| c comments IH]; intros m p; cbn [fold_left].
  - rewrite fmap_nil. split.
    + split; [auto | intros [H | H]; [by apply elem_of_nil in H | exact H]].
    + intros H. by apply elem_of_nil in H.
  - destruct (IH (<[id c := {| comment := c; replies := [] |}]> m) p) as [Hdom Hnew].
    rewrite fmap_cons, elem_of_cons. split.
    + rewrite Hdom, lookup_insert_is_Some. clear.
      destruct (decide (id c = p)) as [-> | Hne]; intuition congruence.
    + intros Hin. destruct (decide (p ∈ id <$> comments)) as [Hlater | Hnot].
      * destruct (Hnew Hlater) as (c' & Hc' & Hid & Hlook).
        exists c'. split; [apply elem_of_cons; right; exact Hc' | auto].
      * destruct Hin as [-> | Hin]; [| contradiction].
        exists c. split; [apply elem_of_cons; left; reflexivity |]. split; [reflexivity |].
        clear Hdom Hnew IH.
        assert (∀ l (m : gmap positive CommentWithReplies) node,
                  id c ∉ id <$> l → m !! id c = Some node →
                  fold_left (λ m c, <[id c := {| comment := c; replies := [] |}]> m)
                    l m !! id c = Some node) as Hkeep.
        { induction l as [| d l IHl]; intros m' node Hd Hm'; cbn [fold_left];
            [exact Hm' |].
          rewrite fmap_cons, not_elem_of_cons in Hd. destruct Hd as [Hd Hl].
          apply IHl; [exact Hl |]. rewrite lookup_insert_ne by congruence.
          exact Hm'. }
        apply Hkeep; [exact Hnot | apply lookup_insert_eq].
Qed.

Lemma add_replies_push (ref : positive) (refs : list positive)
  (node : CommentWithReplies) :
  add_replies refs (push ref node) = add_replies (ref :: refs) node.
Proof. unfold add_replies, push. cbn. rewrite <- app_assoc. reflexivity. Qed.

Lemma add_replies_nil (node : CommentWithReplies) : add_replies [] node = node.
Proof. destruct node. unfold add_replies. cbn. rewrite app_nil_r. reflexivity. Qed.

Lemma attach_root (rootComments : list positive)
  (heap : gmap positive CommentWithReplies) (c : Comment) :
  is_root heap c = true →
  attach (rootComments, heap) c = (rootComments ++ [id c], heap).
Proof.
  unfold is_root, attach. destruct (parent_id c) as [parent |]; [| reflexivity].
  destruct (bool_decide (is_Some (heap !! parent))); [discriminate | reflexivity].
Qed.

Lemma attach_reply (rootComments : list positive)
  (heap : gmap positive CommentWithReplies) (c : Comment) :
  is_root heap c = false →
  ∃ parent, parent_id c = Some parent ∧ is_Some (heap !! parent)
            ∧ attach (rootComments, heap) c
              = (rootComments, alter (push (id c)) parent heap).
Proof.
  unfold is_root, attach. destruct (parent_id c) as [parent |]; [| discriminate].
  destruct (bool_decide (is_Some (heap !! parent))) eqn:Hhas; [| discriminate].
  intros _. exists parent. apply bool_decide_eq_true in Hhas. auto.
Qed.

Lemma is_root_alter (f : CommentWithReplies → CommentWithReplies)
  (parent : positive) (heap : gmap positive CommentWithReplies) (c : Comment) :
  is_root (alter f parent heap) c = is_root heap c.
Proof.
  unfold is_root. destruct (parent_id c) as [q |]; [| reflexivity].
  f_equal. apply bool_decide_ext. rewrite lookup_alter_is_Some. reflexivity.
Qed.

(** Second loop: a comment whose parent has no object goes to the roots,
    every other one goes to the end of the replies of its parent. *)
Lemma nest_loop (comments : list Comment) :
  ∀ (rootComments : list positive) (heap : gmap positive CommentWithReplies),
    (fold_left attach comments (rootComments, heap)).1
    = rootComments ++ (id <$> filter (λ c, is_root heap c = true) comments)
    ∧ ∀ p, (fold_left attach comments (rootComments, heap)).2 !! p
           = add_replies (id <$> filter (λ c, parent_id c = Some p) comments)
               <$> heap !! p.
Proof.
  induction comments as [| c comments IH]; intros rootComments heap;
    cbn [fold_left].
  - rewrite app_nil_r. split; [reflexivity |]. intros p. cbn.
    destruct (heap !! p) as [node |]; cbn; [rewrite add_replies_nil |]; reflexivity.
  - rewrite filter_cons. destruct (is_root heap c) eqn:Hroot.
    + rewrite (attach_root _ _ _ Hroot), decide_True by reflexivity.
      destruct (IH (rootComments ++ [id c]) heap) as [-> Hheap]. split.
      * rewrite fmap_cons, <- app_assoc. reflexivity.
      * intros p. rewrite Hheap, filter_cons.
        destruct (decide (parent_id c = Some p)) as [Hp | Hp]; [| reflexivity].
        unfold is_root in Hroot. rewrite Hp in Hroot.
        apply negb_true_iff, bool_decide_eq_false in Hroot.
        destruct (heap !! p) as [node |]; [| reflexivity].
        exfalso. apply Hroot. eauto.
    + destruct (attach_reply rootComments heap c Hroot)
        as (parent & Hparent & Hhas & ->).
      rewrite decide_False by discriminate.
      destruct (IH rootComments (alter (push (id c)) parent heap)) as [-> Hheap].
      split.
      * f_equal. f_equal. apply list_filter_iff. intros d.
        rewrite is_root_alter. reflexivity.
      * intros p. rewrite Hheap, filter_cons.
        destruct (decide (parent_id c = Some p)) as [Hp | Hp].
        -- assert (parent = p) as -> by congruence.
           rewrite lookup_alter_eq, fmap_cons.
           destruct (heap !! p) as [node |]; cbn;
             [rewrite add_replies_push |]; reflexivity.
        -- rewrite lookup_alter_ne by congruence. reflexivity.
Qed.

(** C9: [nestComments] never fails.  Its roots are, in the order of the
    input, the comments whose [parent_id] is null or names no comment of
    the input; the replies of every comment are, in the order of the
    input, the comments that name it as their parent; every object is a
    comment of the input under its own id.  The three comments 1, 2 (a
    reply to 1) and 3 (a reply to the absent 99) come out as the two roots
    1, with the single reply 2, and 3. *)
Theorem nestComments_threads (comments : list Comment) :
  (nestComments comments).1 = roots_of comments
  ∧ (∀ p, replies <$> (nestComments comments).2 !! p
          = if decide (p ∈ id <$> comments)
            then Some (children_of comments p) else None)
  ∧ (∀ p node, (nestComments comments).2 !! p = Some node →
               comment node ∈ comments ∧ id (comment node) = p)
  ∧ (∀ c1 c2 c3 : Comment,
       nested [with_ids c1 1 None; with_ids c2 2 (Some 1%positive);
               with_ids c3 3 (Some 99%positive)]
       = Some [thread (with_ids c1 1 None)
                 [thread (with_ids c2 2 (Some 1%positive)) []];
               thread (with_ids c3 3 (Some 99%positive)) []]).
Proof.
  unfold nestComments.
  set (commentMap :=
         fold_left (λ m c, <[id c := {| comment := c; replies := [] |}]> m)
           comments ∅).
  destruct (nest_loop comments [] commentMap) as [Hroots Hheap].
  assert (∀ p, is_Some (commentMap !! p) ↔ p ∈ id <$> comments) as Hdom.
  { intros p. subst commentMap.
    destruct (commentMap_lookup comments ∅ p) as [-> _].
    rewrite lookup_empty. split; [intros [H | [? [=]]]; exact H | auto]. }
  split; [| split; [| split]].
  - rewrite Hroots. cbn [app]. unfold roots_of. f_equal.
    apply list_filter_iff. intros c. unfold is_root, resolves.
    destruct (parent_id c) as [parent |]; [| tauto].
    rewrite (bool_decide_ext _ _ (Hdom parent)).
    destruct (bool_decide (parent ∈ id <$> comments)); cbn; split; congruence.
  - intros p. rewrite Hheap. destruct (decide (p ∈ id <$> comments)) as [Hin | Hout].
    + subst commentMap.
      destruct (commentMap_lookup comments ∅ p) as [_ Hnew].
      destruct (Hnew Hin) as (c & _ & _ & ->). reflexivity.
    + destruct (commentMap !! p) as [node |] eqn:Hp; [| reflexivity].
      exfalso. apply Hout, Hdom. eauto.
  - intros p node. rewrite Hheap. intros Hnode.
    assert (p ∈ id <$> comments) as Hin.
    { apply Hdom. destruct (commentMap !! p); [eauto | discriminate]. }
    subst commentMap.
    destruct (commentMap_lookup comments ∅ p) as [_ Hnew].
    destruct (Hnew Hin) as (c & Hc & Hid & Hlook).
    rewrite Hlook in Hnode. injection Hnode as <-. cbn. auto.
  - intros c1 c2 c3. reflexivity.
Qed.

End ThreadFacts.

(** ** Worked cases *)

Section WorkedCases.
Import D1 Scenario.

(** C2, as stated, fails.  Two requests for ["post"] from one address, one
    second apart, are two calls of [incrementView], yet [getView] answers
    1: the second falls into the five-minute window of the first.  Two
    requests five minutes apart are both counted, yet [getView] answers 1
    as long as the cache write of the second is outstanding, and it goes
    on answering 1 when the two writes were carried out in the wrong
    order. *)
Lemma second_increment_within_window :
  ViewIngestion.posts twice_in_window = 2
  ∧ answers twice_in_window
    = [PageViewsRoute.Counted 1; PageViewsRoute.Limited (JS.Num 1)]
  ∧ ViewIngestion.w_pending (after twice_in_window) = []
  ∧ (PageViewsRoute.getView "post"
       (ViewIngestion.w_db (after twice_in_window))
       (ViewIngestion.w_kv (after twice_in_window))).1
    = PageViewsRoute.View "post" (JS.Num 1) "kv"
  ∧ answers second_write_outstanding
    = [PageViewsRoute.Counted 1; PageViewsRoute.Counted 2]
  ∧ (PageViewsRoute.getView "post"
       (ViewIngestion.w_db (after second_write_outstanding))
       (ViewIngestion.w_kv (after second_write_outstanding))).1
    = PageViewsRoute.View "post" (JS.Num 1) "kv"
  ∧ answers writes_out_of_order
    = [PageViewsRoute.Counted 1; PageViewsRoute.Counted 2]
  ∧ ViewIngestion.w_pending (after writes_out_of_order) = []
  ∧ (PageViewsRoute.getView "post"
       (ViewIngestion.w_db (after writes_out_of_order))
       (ViewIngestion.w_kv (after writes_out_of_order))).1
    = PageViewsRoute.View "post" (JS.Num 1) "kv".
Proof. vm_compute. repeat split. Qed.

(** Three requests five minutes apart, the cache write of each landing
    before the next: all are counted, and [getView] answers 3. *)
Lemma sequential_increments_counted_spaced :
  answers three_visits
  = [PageViewsRoute.Counted 1; PageViewsRoute.Counted 2; PageViewsRoute.Counted 3]
  ∧ (PageViewsRoute.getView "post"
       (ViewIngestion.w_db (after three_visits))
       (ViewIngestion.w_kv (after three_visits))).1
    = PageViewsRoute.View "post" (JS.Num 3) "kv".
Proof.
  destruct (sequential_increments_counted plain "post" three_visits D1.empty ∅)
    as (_ & Hread & _).
  - reflexivity.
  - reflexivity.
  - reflexivity.
  - repeat constructor.
  - vm_compute. repeat constructor.
  - split; [vm_compute; reflexivity |]. apply Hread.
    + repeat constructor.
    + vm_compute. reflexivity.
Defined.

(** C3, as stated, fails.  A reader is counted at noon, another reader one
    second later, and the cache write of the first lands.  The first
    reader's next request, within the window, is answered 1 from the
    cache while the counter stands at 2. *)
Lemma limited_request_behind_counter :
  answers two_readers = [PageViewsRoute.Counted 1; PageViewsRoute.Counted 2]
  ∧ PageViewsRoute.incrementView plain (noon + 2000) visit
      (ViewIngestion.w_db (after two_readers))
      (ViewIngestion.w_kv (after two_readers))
    = (PageViewsRoute.Limited (JS.Num 1),
       ViewIngestion.w_db (after two_readers), [])
  ∧ ViewIngestion.stored_count (ViewIngestion.w_db (after two_readers)) "post"
    = 2.
Proof. vm_compute. repeat split. Qed.

(** A view request one second after a counted one, whose cache write is
    still outstanding, is answered with the count in the table, 1; and a
    sixth comment thirty seconds after midnight, five having been stored
    since midnight, is refused. *)
Lemma rate_limited_requests_cases :
  PageViewsRoute.incrementView plain (noon + 1000) visit visited.1 ∅
  = (PageViewsRoute.Limited (JS.Num 1), visited.1, [])
  ∧ ViewIngestion.stored_count visited.1 "post" = 1
  ∧ CommentsRoute.submitComment plain (midnight + 30000) remark
      (five_comments midnight)
    = (CommentsRoute.TooManyRequests, five_comments midnight).
Proof.
  destruct (rate_limited_requests plain (noon + 1000) visit visited.1 ∅
              remark) as (Hview & _ & _).
  destruct (rate_limited_requests plain (midnight + 30000) visit
              (five_comments midnight) ∅ remark) as (_ & _ & Hcomment).
  destruct Hview as (count & -> & _ & _ & Hstore & _);
    [vm_compute; reflexivity | vm_compute; reflexivity |].
  rewrite (Hstore eq_refl).
  split; [vm_compute; reflexivity |].
  split; [vm_compute; reflexivity |].
  apply Hcomment. vm_compute. reflexivity.
Defined.

(** After a common prefix, the space of SQLite sorts before the [T] of
    ISO 8601. *)
Lemma space_before_T (prefix x y : string) :
  String.ltb (prefix ++ "T" ++ y)%string (prefix ++ " " ++ x)%string = false.
Proof.
  unfold String.ltb.
  induction prefix as [| a prefix IH].
  - reflexivity.
  - rewrite !append_cons. cbn [String.compare].
    unfold Ascii.compare at 1. rewrite N.compare_refl. exact IH.
Qed.

(** C4, the defect in general: a comment created on the UTC day on which
    the window starts is never counted, however recent it is. *)
Lemma created_same_day_not_counted (created now : Z) :
  created / 1000 / 86400 = (now - RateLimit.RATE_LIMIT_WINDOW) / 86400000 →
  Time.text_gt (Time.CURRENT_TIMESTAMP created)
    (Time.toISOString (now - RateLimit.RATE_LIMIT_WINDOW)) = false.
Proof.
  intros Hday.
  unfold Time.text_gt, Time.CURRENT_TIMESTAMP, Time.datetime, Time.toISOString.
  rewrite Hday. apply space_before_T.
Qed.

(** C4, the defect at large: rows stored on the UTC day on which the
    window starts, or before, are not counted, so the limiter allows the
    submission however many of them fall within the last minute. *)
Lemma checkRateLimit_blind_within_day (now : Z) (db : Database) (ipHash : string) :
  Clock.covered ((now - RateLimit.RATE_LIMIT_WINDOW) / 1000) →
  Forall
    (λ c, ∃ t, CommentIngestion.stamped c t
               ∧ t / 1000 / 86400
                 <= (now - RateLimit.RATE_LIMIT_WINDOW) / 86400000)
    (comments db) →
  RateLimit.checkRateLimit now db ipHash
  = {| RateLimit.allowed := true; RateLimit.remaining := 5 |}.
Proof.
  intros Hwindow Hrows. unfold RateLimit.checkRateLimit.
  assert (filter
            (λ c, ip_hash c = ipHash
                  ∧ Time.text_gt (created_at c)
                      (Time.toISOString (now - RateLimit.RATE_LIMIT_WINDOW))
                    = true)
            (comments db) = []) as ->; [| reflexivity].
  induction Hrows as [| c rows (t & [Htext Ht] & Hday) _ IH]; [reflexivity |].
  rewrite filter_cons, IH. rewrite decide_False; [reflexivity |].
  intros [_ Hgt]. rewrite Htext in Hgt. unfold Time.CURRENT_TIMESTAMP in Hgt.
  rewrite datetime_gt_iso in Hgt by assumption.
  apply Z.ltb_lt in Hgt. lia.
Qed.

(** C4 at a failing input: six comments from one address between 12:00:01
    and 12:00:30 of one day.  At the sixth, the five stored rows are less
    than a minute old, yet none of them is counted: the limiter allows the
    sixth, and all six submissions are answered 201. *)
Theorem sixth_comment_within_a_minute_accepted :
  created_at <$> comments (five_comments noon)
  = ["2026-11-01 12:00:01"; "2026-11-01 12:00:02"; "2026-11-01 12:00:03";
     "2026-11-01 12:00:04"; "2026-11-01 12:00:05"]%string
  ∧ Time.toISOString (noon + 30000 - RateLimit.RATE_LIMIT_WINDOW)
    = "2026-11-01T11:59:30.000Z"%string
  ∧ RateLimit.checkRateLimit (noon + 30000) (five_comments noon)
      (plain "203.0.113.7")
    = {| RateLimit.allowed := true; RateLimit.remaining := 5 |}
  ∧ (CommentIngestion.submissions plain (burst noon) D1.empty).1
    = [201; 201; 201; 201; 201; 201].
Proof. vm_compute. repeat split. Qed.

(** The limiter does count across midnight: the same burst right after
    midnight has its sixth submission refused. *)
Lemma sixth_comment_after_midnight_refused :
  (CommentIngestion.submissions plain (burst midnight) D1.empty).1
  = [201; 201; 201; 201; 201; 429].
Proof. vm_compute. reflexivity. Qed.

(** C8 at a failing input: a batch request for ["a"] on a cold cache
    writes the single key of ["a"] and nothing under the batch key, and the
    same request again is answered from the single key. *)
Lemma batch_aggregate_not_written :
  (PageViewsRoute.serve_getViewsBatch parse ["a"]%string (store, ∅)).2.2
  = <["views:v1:a"%string := "3"%string]> ∅
  ∧ (PageViewsRoute.serve_getViewsBatch parse ["a"]%string (store, ∅)).2.2
      !! PageViewsRoute.batchCacheKey ["a"]%string = None
  ∧ (PageViewsRoute.serve_getViewsBatch parse ["a"]%string (store, ∅)).1
    = PageViewsRoute.Batch (<["a"%string := JS.Num 3]> ∅) "mixed"
  ∧ (PageViewsRoute.serve_getViewsBatch parse ["a"]%string
       (PageViewsRoute.serve_getViewsBatch parse ["a"]%string (store, ∅)).2).1
    = PageViewsRoute.Batch (<["a"%string := JS.Num 3]> ∅) "kv".
Proof. vm_compute. repeat split. Qed.

(** C6 at a failing input: the store counts 3 views of ["a"] and 2 of
    ["constructor"], the cache is empty.  The request for ["a"] and
    ["constructor"] is answered without ["constructor"], whose place in
    the merge is taken by the member of [Object.prototype]; its task
    writes both single keys, and the request for the same slugs in the
    other order, right after, is answered with both. *)
Theorem getViewsBatch_constructor_differs :
  PageViewsRoute.getViewsBatch parse ["a"; "constructor"]%string counters ∅
  = (PageViewsRoute.Batch {["a"%string := JS.Num 3]} "mixed",
     [PageViewsRoute.WriteManyToKV
        (<["a"%string := 3]> {["constructor"%string := 2]})])
  ∧ PageViewsRoute.settle
      (PageViewsRoute.getViewsBatch parse ["a"; "constructor"]%string counters ∅).2
      ∅
    = <["views:v1:a"%string := "3"%string]>
        {["views:v1:constructor"%string := "2"%string]}
  ∧ PageViewsRoute.getViewsBatch parse ["constructor"; "a"]%string counters
      (PageViewsRoute.settle
         (PageViewsRoute.getViewsBatch parse ["a"; "constructor"]%string
            counters ∅).2 ∅)
    = (PageViewsRoute.Batch
         (<["a"%string := JS.Num 3]> {["constructor"%string := JS.Num 2]}) "kv",
       [])
  ∧ PageViewsRoute.batchCacheKey ["a"; "constructor"]%string
    = PageViewsRoute.batchCacheKey ["constructor"; "a"]%string.
Proof. vm_compute. repeat split. Qed.


(** The aggregate of the request for ["a"; "b"] has ["a"] only, and ["b"]
    names no member of [Object.prototype]: the aggregate is not served, not
    even for ["a"], whose count comes from the store. *)
Lemma cached_aggregate_partial_case :
  PageViewsRoute.getViewsBatch parse ["a"; "b"]%string store cache
  = PageViewsRoute.getViewsBatch parse ["a"; "b"]%string store
      (delete (PageViewsRoute.batchCacheKey ["a"; "b"]%string) cache)
  ∧ ViewIngestion.views_of
      (PageViewsRoute.getViewsBatch parse ["a"; "b"]%string store cache).1
    = Some (<["a"%string := JS.Num 3]> (<["b"%string := JS.Num 7]> ∅)).
Proof. vm_compute. repeat split. Qed.

End WorkedCases.

(* ===================================================================== *)
(** * Further properties *)
(* ===================================================================== *)

(** ** Escaping *)

Section SanitizeFacts.
Import CommentsRoute Html.

Lemma replace_char_app (c : ascii) (by_ s t : string) :
  replace_char c by_ (s ++ t) = (replace_char c by_ s ++ replace_char c by_ t)%string.
Proof.
  induction s as [|a s IH]; [reflexivity|].
  rewrite append_cons. cbn [replace_char]. rewrite IH.
  destruct (Ascii.eqb a c).
  - by rewrite append_assoc.
  - by rewrite append_cons.
Qed.

Lemma sanitizeHtml_cons (a : ascii) (s : string) :
  sanitizeHtml (String a s) = (escape a ++ sanitizeHtml s)%string.
Proof.
  unfold sanitizeHtml, escape. cbn [replace_char].
  destruct (Ascii.eqb_spec a "&") as [->|Hamp].
  { rewrite !replace_char_app. reflexivity. }
  cbn [replace_char].
  destruct (Ascii.eqb_spec a "<") as [->|Hlt].
  { rewrite !replace_char_app. reflexivity. }
  cbn [replace_char].
  destruct (Ascii.eqb_spec a ">") as [->|Hgt].
  { rewrite !replace_char_app. reflexivity. }
  cbn [replace_char].
  destruct (Ascii.eqb_spec a "034") as [->|Hq].
  { rewrite !replace_char_app. reflexivity. }
  cbn [replace_char].
  destruct (Ascii.eqb_spec a "'") as [->|Ha].
  { reflexivity. }
  by rewrite append_cons, append_nil_l.
Qed.

Lemma chars_app (s t : string) : chars (s ++ t) = chars s ++ chars t.
Proof.
  induction s as [|a s IH]; [reflexivity|].
  rewrite append_cons. unfold chars in *. cbn. by rewrite IH.
Qed.

(** Every character is special and stands as its entity, or stands for
    itself. *)
Lemma escape_cases (c : ascii) :
  (special c = true
   ∧ (c = "&"%char ∧ escape c = "&amp;"%string
      ∨ c = "<"%char ∧ escape c = "&lt;"%string
      ∨ c = ">"%char ∧ escape c = "&gt;"%string
      ∨ c = "034"%char ∧ escape c = "&quot;"%string
      ∨ c = "'"%char ∧ escape c = "&#x27;"%string))
  ∨ (special c = false ∧ escape c = String c EmptyString).
Proof.
  unfold special, escape.
  destruct (Ascii.eqb_spec c "&") as [->|?]; [left; split; [done|tauto]|].
  destruct (Ascii.eqb_spec c "<") as [->|?]; [left; split; [done|tauto]|].
  destruct (Ascii.eqb_spec c ">") as [->|?]; [left; split; [done|tauto]|].
  destruct (Ascii.eqb_spec c "034") as [->|?]; [left; split; [done|tauto]|].
  destruct (Ascii.eqb_spec c "'") as [->|?]; [left; split; [done|tauto]|].
  by right.
Qed.

Lemma special_false (c : ascii) :
  special c = false →
  c ≠ "&"%char ∧ c ≠ "<"%char ∧ c ≠ ">"%char ∧ c ≠ "034"%char ∧ c ≠ "'"%char.
Proof.
  unfold special. intros H. repeat split; intros ->; discriminate H.
Qed.

(** X1: the five replacements of [sanitizeHtml], run one after the other,
    come to a single pass that writes every character as [escape] has it
    (the entities written for [&] are not escaped again), and the output
    has no [<], [>], double quote or apostrophe left. *)
Theorem sanitizeHtml_single_pass (s : string) :
  sanitizeHtml s = joined (escape <$> chars s)
  ∧ Forall (λ c, c ≠ "<" ∧ c ≠ ">" ∧ c ≠ "034" ∧ c ≠ "'")%char
      (chars (sanitizeHtml s)).
Proof.
  induction s as [|a s [IH1 IH2]]; [by split; [|constructor]|].
  rewrite sanitizeHtml_cons. split.
  - unfold chars. cbn. by rewrite IH1.
  - rewrite chars_app. apply Forall_app. split; [|done].
    destruct (escape_cases a) as [[_ H]|[Hs ->]].
    + destruct H as [[_ ->]|[[_ ->]|[[_ ->]|[[_ ->]|[_ ->]]]]];
        repeat constructor; discriminate.
    + apply special_false in Hs. repeat constructor; tauto.
Qed.

(** X2: [sanitizeHtml] loses nothing: two texts with the same escaped
    text are the same text. *)
Theorem sanitizeHtml_injective (s1 s2 : string) :
  sanitizeHtml s1 = sanitizeHtml s2 → s1 = s2.
Proof.
  revert s2. induction s1 as [|a s1 IH]; intros [|b s2].
  - done.
  - rewrite sanitizeHtml_cons.
    destruct (escape_cases b) as [[_ H]|[_ ->]];
      [destruct H as [[_ ->]|[[_ ->]|[[_ ->]|[[_ ->]|[_ ->]]]]]|];
      rewrite ?append_cons; discriminate.
  - rewrite sanitizeHtml_cons.
    destruct (escape_cases a) as [[_ H]|[_ ->]];
      [destruct H as [[_ ->]|[[_ ->]|[[_ ->]|[[_ ->]|[_ ->]]]]]|];
      rewrite ?append_cons; discriminate.
  - rewrite !sanitizeHtml_cons.
    destruct (escape_cases a) as [[_ Ha]|[Ha Ea]];
      destruct (escape_cases b) as [[_ Hb]|[Hb Eb]]; intros H.
    + destruct Ha as [[-> Ea]|[[-> Ea]|[[-> Ea]|[[-> Ea]|[-> Ea]]]]];
        destruct Hb as [[-> Eb]|[[-> Eb]|[[-> Eb]|[[-> Eb]|[-> Eb]]]]];
        rewrite ?Ea, ?Eb in H; rewrite ?append_cons, ?append_nil_l in H;
        try discriminate H; f_equal; apply IH; congruence.
    + apply special_false in Hb. rewrite Eb in H.
      destruct Ha as [[-> Ea]|[[-> Ea]|[[-> Ea]|[[-> Ea]|[-> Ea]]]]];
        rewrite Ea in H; rewrite ?append_cons, ?append_nil_l in H;
        injection H as H _; destruct Hb as [Hb _]; congruence.
    + apply special_false in Ha. rewrite Ea in H.
      destruct Hb as [[-> Eb]|[[-> Eb]|[[-> Eb]|[[-> Eb]|[-> Eb]]]]];
        rewrite Eb in H; rewrite ?append_cons, ?append_nil_l in H;
        injection H as H _; destruct Ha as [Ha _]; congruence.
    + rewrite Ea, Eb in H. rewrite ?append_cons, ?append_nil_l in H.
      injection H as -> H. f_equal. by apply IH.
Qed.

Lemma sanitizeHtml_injective_example :
  sanitizeHtml "a<b" = sanitizeHtml "a<b" ∧ "a<b"%string = "a<b"%string.
Proof.
  split; [reflexivity|].
  apply (sanitizeHtml_injective "a<b" "a<b"). reflexivity.
Defined.

Lemma length_app (s t : string) :
  JS.length (s ++ t) = JS.length s + JS.length t.
Proof.
  unfold JS.length. induction s as [|a s IH]; [by rewrite append_nil_l|].
  rewrite append_cons. cbn [String.length]. lia.
Qed.

Lemma specials_cons (a : ascii) (s : string) :
  specials (String a s) = (if special a then 1 else 0) + specials s.
Proof.
  unfold specials, chars. cbn [list_ascii_of_string].
  rewrite filter_cons. destruct (decide (special a = true)) as [->|H].
  - cbn [length]. lia.
  - destruct (special a); [done|]. lia.
Qed.

Lemma specials_nonneg (s : string) : 0 <= specials s.
Proof. unfold specials. lia. Qed.

Lemma length_cons (a : ascii) (s : string) :
  JS.length (String a s) = 1 + JS.length s.
Proof. unfold JS.length. cbn [String.length]. lia. Qed.

Lemma escape_length (a : ascii) :
  1 + 3 * (if special a then 1 else 0) <= JS.length (escape a)
  ∧ JS.length (escape a) <= 1 + 5 * (if special a then 1 else 0).
Proof.
  destruct (escape_cases a) as [[-> H]|[-> ->]].
  - destruct H as [[_ ->]|[[_ ->]|[[_ ->]|[[_ ->]|[_ ->]]]]]; by vm_compute.
  - by vm_compute.
Qed.

Lemma sanitizeHtml_plain (s : string) : specials s = 0 → sanitizeHtml s = s.
Proof.
  induction s as [|a s IH]; [done|].
  rewrite sanitizeHtml_cons, specials_cons.
  pose proof (specials_nonneg s).
  destruct (escape_cases a) as [[-> _]|[-> ->]]; [lia|].
  intros Hs. rewrite append_cons, append_nil_l. f_equal. apply IH. lia.
Qed.

(** X3: escaping never shortens a text and makes it at most six times as
    long; it adds at least 3 and at most 5 characters for every special
    character, and it leaves a text as it is exactly when the text has no
    special character. *)
Theorem sanitizeHtml_length (s : string) :
  JS.length s + 3 * specials s <= JS.length (sanitizeHtml s)
  ∧ JS.length (sanitizeHtml s) <= JS.length s + 5 * specials s
  ∧ JS.length (sanitizeHtml s) <= 6 * JS.length s
  ∧ (sanitizeHtml s = s ↔ specials s = 0).
Proof.
  assert (Hlen : JS.length s + 3 * specials s <= JS.length (sanitizeHtml s)
                 ∧ JS.length (sanitizeHtml s) <= JS.length s + 5 * specials s
                 ∧ specials s <= JS.length s).
  { induction s as [|a s IH]; [by vm_compute|].
    rewrite sanitizeHtml_cons, length_app, specials_cons, length_cons.
    pose proof (escape_length a). destruct (special a); lia. }
  pose proof (specials_nonneg s).
  repeat split; try lia.
  - intros Heq. rewrite Heq in Hlen. lia.
  - apply sanitizeHtml_plain.
Qed.

End SanitizeFacts.

(** ** Cache entries and the view limiter *)

Section CacheEntries.
Import D1 PageViewsRoute ViewIngestion.

(** X4: what [writeToKV] stores, [getFromKV] reads back as the same
    number, negative ones included; the entries of the other slugs and
    every batch key are left as they were. *)
Theorem writeToKV_getFromKV (kv : KVNamespace) (slug : string) (count : Z) :
  getFromKV (writeToKV kv slug count) slug = Some (JS.Num count)
  ∧ (∀ other, other ≠ slug →
       getFromKV (writeToKV kv slug count) other = getFromKV kv other)
  ∧ (∀ x, writeToKV kv slug count !! (KV_BATCH_PREFIX ++ x)%string
          = kv !! (KV_BATCH_PREFIX ++ x)%string).
Proof.
  unfold getFromKV, writeToKV. repeat split.
  - by rewrite lookup_insert_eq, parseInt_toString.
  - intros other Hne. rewrite lookup_insert_ne; [done|].
    intros H. apply single_key_inj in H. congruence.
  - intros x. rewrite lookup_insert_ne; [done|]. apply single_key_not_batch.
Qed.

(** X7: the window of the view limiter.  When the last counted request of
    a caller for a slug was stored at second [last], a request at clock
    [now] is admitted exactly when 300 whole seconds have passed; it then
    renews the record, and otherwise leaves the database as it was.  A
    caller with no record for the slug is admitted. *)
Theorem checkRateLimit_window (now last : Z) (db : Database)
  (ipHash slug : string) :
  Clock.covered last → Clock.covered (now / 1000 - 300) →
  rate_limits db !! (ipHash ++ ":" ++ slug)%string = Some (Time.datetime last) →
  checkRateLimit now db ipHash slug
  = if last <=? now / 1000 - 300
    then (set_rate_limits
            <[(ipHash ++ ":" ++ slug)%string := Time.CURRENT_TIMESTAMP now]> db,
          {| allowed := true; remaining := 1 |})
    else (db, {| allowed := false; remaining := 0 |}).
Proof.
  intros Hlast Hstart Hrecord. unfold checkRateLimit. rewrite Hrecord.
  unfold Time.five_minutes_ago. rewrite datetime_gt by assumption.
  destruct (Z.ltb_spec (now / 1000 - 300) last), (Z.leb_spec last (now / 1000 - 300));
    done || lia.
Qed.

End CacheEntries.

Section CacheFacts.
Import D1 PageViewsRoute ViewIngestion Traffic.
Variable hashString : string → string.
Variable JSON_parse : string → option (gmap string JS.jsnum).

Lemma serve_coherent (st : Database * KVNamespace) (call : Call) :
  coherent st → coherent (serve hashString JSON_parse st call).
Proof.
  destruct call as [now req|s|slugs]; cbn [serve].
  - apply coherent_incrementView.
  - apply coherent_getView.
  - apply coherent_getViewsBatch.
Qed.

Lemma serve_all_coherent (calls : list Call) :
  ∀ st, coherent st → coherent (serve_all hashString JSON_parse calls st).
Proof.
  induction calls as [|call calls IH]; intros st Hst; [done|].
  apply IH, serve_coherent, Hst.
Qed.

(** No request writes under a batch key. *)
Lemma serve_batch_key (st : Database * KVNamespace) (call : Call) (x : string) :
  (serve hashString JSON_parse st call).2 !! (KV_BATCH_PREFIX ++ x)%string
  = st.2 !! (KV_BATCH_PREFIX ++ x)%string.
Proof.
  destruct call as [now req|s|slugs]; cbn [serve].
  - unfold serve_incrementView.
    destruct (incrementView hashString now req st.1 st.2) as [[resp db] tasks].
    apply settle_batch_key.
  - unfold serve_getView. destruct (getView s st.1 st.2) as [resp tasks].
    apply settle_batch_key.
  - unfold serve_getViewsBatch.
    destruct (getViewsBatch JSON_parse slugs st.1 st.2) as [resp tasks].
    apply settle_batch_key.
Qed.

Lemma serve_all_batch_key (calls : list Call) (x : string) :
  ∀ st, (serve_all hashString JSON_parse calls st).2 !! (KV_BATCH_PREFIX ++ x)%string
        = st.2 !! (KV_BATCH_PREFIX ++ x)%string.
Proof.
  induction calls as [|call calls IH]; intros st; [done|].
  change (serve_all hashString JSON_parse (call :: calls) st)
    with (serve_all hashString JSON_parse calls (serve hashString JSON_parse st call)).
  rewrite IH. apply serve_batch_key.
Qed.

(** X5: single reads are never stale.  From a cold cache, after any
    requests to the view routes served one after the other (counted or
    limited increments, single and batch reads, in any order), the cache
    agrees with the store, and GET /:slug answers the stored count of
    every slug that passes its check, 400 otherwise. *)
Theorem reads_never_stale (calls : list Call) (db : Database) (slug : string) :
  coherent (serve_all hashString JSON_parse calls (db, ∅))
  ∧ (getView slug (serve_all hashString JSON_parse calls (db, ∅)).1
       (serve_all hashString JSON_parse calls (db, ∅)).2).1
    = if invalid_get_slug slug then Invalid
      else View slug
             (JS.Num (PageViewRepository.get slug
                        (serve_all hashString JSON_parse calls (db, ∅)).1))
             "kv".
Proof.
  pose proof (serve_all_coherent calls (db, ∅) (coherent_cold db)) as Hst.
  split; [exact Hst|].
  destruct (serve_all hashString JSON_parse calls (db, ∅)) as [db' kv'].
  cbn [fst snd]. unfold getView, invalid_get_slug.
  destruct (String.eqb slug EmptyString || (500 <? JS.length slug)); [done|].
  pose proof (current_count_reads slug _ (db', kv') (Hst slug)) as Hread.
  unfold current_count in Hread. cbn [fst snd] in Hread.
  destruct (getFromKV kv' slug) as [count|]; cbn [fst]; by rewrite ?Hread.
Qed.

(** X6: what a batch read answers.  From a cold cache, after any requests
    to the view routes served one after the other, a batch read of 1 to
    100 slugs has an entry, the stored count (0 for a slug that has no
    counter), for every requested slug that names no member of
    [Object.prototype]; for a requested slug that names one it has that
    entry only when the cache has the single key of the slug, and for
    [__proto__] never; it has no other entry.  A batch read of another
    size is refused. *)
Theorem batch_reads_exact (calls : list Call) (db : Database)
  (slugs : list string) :
  (bad_size slugs = true →
   getViewsBatch JSON_parse slugs
     (serve_all hashString JSON_parse calls (db, ∅)).1
     (serve_all hashString JSON_parse calls (db, ∅)).2 = (Invalid, []))
  ∧ (bad_size slugs = false →
     ∃ views,
       views_of
         (getViewsBatch JSON_parse slugs
            (serve_all hashString JSON_parse calls (db, ∅)).1
            (serve_all hashString JSON_parse calls (db, ∅)).2).1 = Some views
       ∧ ∀ s, views !! s
              = if decide
                     (s ∈ slugs
                      ∧ (s ∉ JSObject.Object_prototype
                         ∨ (s ≠ "__proto__"%string
                            ∧ is_Some
                                ((serve_all hashString JSON_parse calls (db, ∅)).2
                                 !! (KV_PREFIX ++ s)%string))))
                then Some (JS.Num (PageViewRepository.get s
                             (serve_all hashString JSON_parse calls (db, ∅)).1))
                else None).
Proof.
  split; [apply getViewsBatch_bad_size|]. intros Hsize.
  pose proof (serve_all_coherent calls (db, ∅) (coherent_cold db)) as Hst.
  pose proof (λ x, serve_all_batch_key calls x (db, ∅)) as Hkey.
  destruct (serve_all hashString JSON_parse calls (db, ∅)) as [db' kv'].
  cbn [fst snd] in *.
  assert (cachedAggregate JSON_parse kv' slugs = None) as Hagg.
  { unfold cachedAggregate, batchCacheKey. by rewrite Hkey, lookup_empty. }
  destruct (getViewsBatch_miss JSON_parse slugs db' kv' Hsize Hagg)
    as (views & cache & -> & Hviews).
  exists views. split; [done|]. intros s. rewrite Hviews.
  pose proof (current_count_reads s _ (db', kv') (Hst s)) as Hread.
  cbn [fst snd] in Hread. unfold batch_entry. rewrite Hread.
  unfold current_count in Hread. unfold getFromKV in *.
  destruct (decide (s ∈ slugs)) as [Hin|Hout];
    [|rewrite decide_False by tauto; done].
  case_bool_decide as Hmember.
  - destruct (String.eqb_spec s "__proto__") as [->|Hs].
    { rewrite decide_False; [done|]. intros (_ & [Hplain|[Hne _]]); [|done].
      by apply Hplain. }
    destruct (kv' !! (KV_PREFIX ++ s)%string) as [text|].
    + rewrite decide_True; [by rewrite Hread|].
      split; [done|]. right. split; [done|by eexists].
    + rewrite decide_False; [done|].
      intros (_ & [Hplain|[_ [? [=]]]]). by apply Hplain.
  - rewrite decide_True; [done|]. split; [done|]. by left.
Qed.

End CacheFacts.

(** ** Rankings and totals *)

Section RankingFacts.
Import D1 PageViewRepository PageViewQueries CommentQueries Ranking.

Lemma popular_order_total : Total popular_order.
Proof.
  intros a b. unfold popular_order.
  destruct (Z.lt_trichotomy (view_count a.2) (view_count b.2)) as [?|[?|?]];
    [right; left; lia| |left; left; lia].
  destruct (String.le_total (pv_updated_at a.2) (pv_updated_at b.2)).
  - right. right. split; [lia|done].
  - left. right. split; [lia|done].
Qed.

Lemma popular_order_trans : Transitive popular_order.
Proof.
  intros a b c [?|[? Hab]] [?|[? Hbc]]; unfold popular_order;
    [left; lia|left; lia|left; lia|].
  right. split; [lia|]. by transitivity (pv_updated_at b.2).
Qed.

Lemma created_desc_total : Total created_desc.
Proof. intros a b. unfold created_desc. apply String.le_total. Qed.

Lemma created_desc_trans : Transitive created_desc.
Proof.
  intros a b c Hab Hbc. unfold created_desc in *.
  by transitivity (created_at b).
Qed.

(** [ORDER BY ... LIMIT ?]: the rows that come out and the rows held
    back make up the rows that went in, and they are in order. *)
Lemma sorted_prefix {A} (R : relation A) `{!Transitive R} `{!Total R}
  `{!RelDecision R} (limit : Z) (rows : list A) :
  ∃ rest,
    LIMIT limit (merge_sort R rows) ++ rest ≡ₚ rows
    ∧ StronglySorted R (LIMIT limit (merge_sort R rows) ++ rest)
    ∧ length (LIMIT limit (merge_sort R rows)) = limited limit (length rows).
Proof.
  pose proof (merge_sort_Permutation R rows) as Hperm.
  pose proof (StronglySorted_merge_sort R rows) as Hsorted.
  unfold LIMIT, limited. destruct (limit <? 0).
  - exists []. rewrite app_nil_r. split; [done|]. split; [done|].
    by rewrite Hperm.
  - exists (drop (Z.to_nat limit) (merge_sort R rows)).
    rewrite take_drop, length_take. split; [done|]. split; [done|].
    by rewrite Hperm.
Qed.

Lemma popular_order_counts (l : list (string * PageView)) :
  StronglySorted popular_order l →
  StronglySorted by_count_desc
    ((λ row : string * PageView, (row.1, view_count row.2)) <$> l).
Proof.
  induction 1 as [|a l _ IH Hall]; [constructor|].
  rewrite fmap_cons. constructor; [exact IH|].
  apply Forall_fmap. eapply Forall_impl; [exact Hall|].
  intros b [?|[? _]]; unfold by_count_desc; cbn; lia.
Qed.

Lemma getPopular_length (limit : Z) (db : Database) :
  length (getPopular limit db) = limited limit (size (page_views db)).
Proof.
  unfold getPopular.
  destruct (sorted_prefix popular_order (Transitive0 := popular_order_trans)
              (Total0 := popular_order_total) limit (map_to_list (page_views db)))
    as (rest & _ & _ & Hlen).
  by rewrite length_fmap, Hlen, length_map_to_list.
Qed.

(** X8: [getPopular] is a top list.  It returns [limit] rows, or all of
    them when there are fewer (or when the limit is negative), each a row
    of the table with its count, no slug twice, in descending order of
    the counts; no row that is held back has more views than a row that
    is returned. *)
Theorem getPopular_top (limit : Z) (db : Database) :
  length (getPopular limit db) = limited limit (size (page_views db))
  ∧ StronglySorted by_count_desc (getPopular limit db)
  ∧ NoDup (getPopular limit db).*1
  ∧ (∀ row, row ∈ getPopular limit db →
       view_count <$> page_views db !! row.1 = Some row.2)
  ∧ (∀ s pv row,
       page_views db !! s = Some pv → s ∉ (getPopular limit db).*1 →
       row ∈ getPopular limit db → view_count pv <= row.2).
Proof.
  unfold getPopular.
  destruct (sorted_prefix popular_order (Transitive0 := popular_order_trans)
              (Total0 := popular_order_total) limit (map_to_list (page_views db)))
    as (rest & Hperm & Hsorted & Hlen).
  set (out := LIMIT limit (merge_sort popular_order (map_to_list (page_views db))))
    in *.
  assert (∀ r, r ∈ out → page_views db !! r.1 = Some r.2) as Hrows.
  { intros [s pv] Hin. apply elem_of_map_to_list. rewrite <- Hperm.
    apply elem_of_app. by left. }
  split; [|split; [|split; [|split]]].
  - by rewrite length_fmap, Hlen, length_map_to_list.
  - apply popular_order_counts. by apply StronglySorted_app_1_l in Hsorted.
  - rewrite <- list_fmap_compose.
    assert (NoDup (out ++ rest).*1) as Hnodup.
    { rewrite Hperm. apply NoDup_fst_map_to_list. }
    rewrite fmap_app in Hnodup. apply NoDup_app in Hnodup as [Hnodup _].
    erewrite list_fmap_ext; [exact Hnodup|]. by intros i [s pv].
  - intros row (r & -> & Hin)%list_elem_of_fmap. cbn. by rewrite (Hrows r Hin).
  - intros s pv row Hpv Hout (r & -> & Hin)%list_elem_of_fmap. cbn.
    assert ((s, pv) ∈ rest) as Hrest.
    { apply elem_of_map_to_list in Hpv. rewrite <- Hperm in Hpv.
      apply elem_of_app in Hpv as [Hpv|Hpv]; [|done].
      exfalso. apply Hout. rewrite <- list_fmap_compose.
      apply list_elem_of_fmap. by exists (s, pv). }
    pose proof (StronglySorted_app_1_elem_of _ _ _ _ _ Hsorted Hin Hrest) as Hle.
    destruct Hle as [?|[? _]]; cbn in *; lia.
Qed.

(** X9: [getPending] is the moderation queue.  It returns [limit]
    comments, or all that wait when they are fewer; each of them waits
    for moderation (pending or spam) and is a row of the table; they come
    newest first, and no waiting comment that is held back is newer than
    a comment that is returned.  The admin route asks for 50. *)
Theorem getPending_queue (limit : Z) (db : Database) :
  length (getPending limit db)
  = limited limit (length (filter waiting (comments db)))
  ∧ StronglySorted newest_first (getPending limit db)
  ∧ (∀ c, c ∈ getPending limit db → c ∈ comments db ∧ waiting c)
  ∧ (∀ c c', c ∈ comments db → waiting c → c ∉ getPending limit db →
       c' ∈ getPending limit db → newest_first c' c)
  ∧ AdminRoute.pendingComments db = AdminRoute.Pending (getPending 50 db)
  ∧ (length (getPending 50 db) <= 50)%nat.
Proof.
  unfold getPending.
  destruct (sorted_prefix created_desc (Transitive0 := created_desc_trans)
              (Total0 := created_desc_total) limit
              (filter (λ c, status c = pending ∨ status c = spam) (comments db)))
    as (rest & Hperm & Hsorted & Hlen).
  destruct (sorted_prefix created_desc (Transitive0 := created_desc_trans)
              (Total0 := created_desc_total) 50
              (filter (λ c, status c = pending ∨ status c = spam) (comments db)))
    as (_ & _ & _ & Hlen50).
  split; [exact Hlen|]. split; [|split; [|split; [|split]]].
  - by apply StronglySorted_app_1_l in Hsorted.
  - intros c Hin.
    assert (c ∈ filter (λ c, status c = pending ∨ status c = spam) (comments db))
      as Hc by (rewrite <- Hperm; apply elem_of_app; by left).
    apply list_elem_of_filter in Hc as [? ?]. by split.
  - intros c c' Hc Hwait Hout Hin.
    assert (c ∈ rest) as Hrest.
    { assert (c ∈ filter (λ c, status c = pending ∨ status c = spam) (comments db))
        as Hf by (apply list_elem_of_filter; split; done).
      rewrite <- Hperm in Hf. apply elem_of_app in Hf as [Hf|Hf]; done. }
    exact (StronglySorted_app_1_elem_of _ _ _ _ _ Hsorted Hin Hrest).
  - reflexivity.
  - rewrite Hlen50. unfold limited. cbn. lia.
Qed.

(** The sum that [getTotalViews] takes. *)
Lemma total_insert (m : gmap string PageView) (s : string) (row : PageView) :
  m !! s = None →
  map_fold (λ _ row total, total + view_count row) 0 (<[s := row]> m)
  = map_fold (λ _ row total, total + view_count row) 0 m + view_count row.
Proof.
  intros Hs. rewrite map_fold_insert_L; [done| |done].
  intros. lia.
Qed.

Lemma getTotalViews_sum (db : Database) :
  getTotalViews db
  = map_fold (λ _ row total, total + view_count row) 0 (page_views db).
Proof.
  unfold getTotalViews. destruct (decide (page_views db = ∅)) as [->|]; [|done].
  by rewrite map_fold_empty.
Qed.

(** X10: the total follows the counters.  Every [increment] raises
    [getTotalViews] by exactly one, whatever the slug; so any number of
    increments, in any order, raise it by their number, and an empty
    table totals 0. *)
Theorem getTotalViews_increment (now : Z) (slug : string) (db : Database) :
  getTotalViews (increment now slug db).1 = getTotalViews db + 1
  ∧ (∀ calls : list (Z * string),
       getTotalViews (CounterStore.exec_increments calls db).1
       = getTotalViews db + Z.of_nat (length calls))
  ∧ getTotalViews D1.empty = 0.
Proof.
  assert (∀ now slug db,
            getTotalViews (increment now slug db).1 = getTotalViews db + 1) as Hone.
  { clear. intros now slug db. rewrite !getTotalViews_sum.
    unfold increment. cbn [fst set_page_views page_views].
    destruct (page_views db !! slug) as [old|] eqn:Hold.
    - rewrite <- insert_delete_eq.
      rewrite total_insert by apply lookup_delete_eq.
      rewrite <- (insert_delete_id (page_views db) slug old Hold) at 2.
      rewrite total_insert by apply lookup_delete_eq. cbn. lia.
    - by rewrite total_insert. }
  split; [apply Hone|]. split; [|reflexivity].
  intros calls. revert db. induction calls as [|[t s] calls IH]; intros db.
  - cbn. lia.
  - cbn [CounterStore.exec_increments].
    pose proof (Hone t s db) as H1.
    destruct (increment t s db) as [db1 n]. specialize (IH db1).
    destruct (CounterStore.exec_increments calls db1) as [db2 ns].
    cbn [fst length] in *. lia.
Qed.

End RankingFacts.

(** ** Submissions and moderation *)

Section StatusFacts.
Import D1 CommentRepository CommentQueries Moderation.

Lemma fmap_unchanged {A} (f : A → A) (l : list A) :
  Forall (λ x, f x = x) l → f <$> l = l.
Proof. induction 1 as [|x l Hx _ IH]; [done|]. by rewrite fmap_cons, Hx, IH. Qed.

Lemma updateStatus_rows (now id0 : Z) (st : Status) (db : Database) :
  comments (updateStatus now id0 st db).1
  = (λ c, if decide (Z.pos (id c) = id0)
          then set_updated_at (Time.CURRENT_TIMESTAMP now) (set_status st c)
          else c) <$> comments db.
Proof. reflexivity. Qed.

(** Number of rows of [rows] that the count query of [slug0] selects. *)
Lemma published_cons (slug0 : string) (c : Comment) (rows : list Comment) :
  length (filter (λ c, slug c = slug0 ∧ status c = approved) (c :: rows))
  = ((if decide (slug c = slug0 ∧ status c = approved) then 1 else 0)
     + length (filter (λ c, slug c = slug0 ∧ status c = approved) rows))%nat.
Proof. rewrite filter_cons. by destruct (decide _). Qed.

Lemma countBySlug_length (slug0 : string) (db : Database) :
  countBySlug slug0 db = Z.of_nat (length (published slug0 db)).
Proof.
  unfold countBySlug, published.
  destruct (Z.eqb_spec (Z.of_nat (length (filter
    (λ c, slug c = slug0 ∧ status c = approved) (comments db)))) 0); lia.
Qed.

(** X13: what a moderator's decision does to the counts.  With unique
    ids, setting the status of the comment [c] takes it out of the count
    of its slug when it was approved and puts it in when the new status
    is [approved]; the counts of the other slugs stay. *)
Theorem updateStatus_count (now : Z) (st : Status) (db : Database)
  (c : Comment) (slug0 : string) :
  NoDup (id <$> comments db) → c ∈ comments db →
  countBySlug slug0 (updateStatus now (Z.pos (id c)) st db).1
  = countBySlug slug0 db
    + (if decide (slug c = slug0)
       then (if decide (st = approved) then 1 else 0)
            - (if decide (status c = approved) then 1 else 0)
       else 0).
Proof.
  rewrite !countBySlug_length. unfold published. rewrite updateStatus_rows.
  generalize (comments db) as rows. intros rows Hnodup Hin.
  induction rows as [|d rows IH]; [by apply elem_of_nil in Hin|].
  rewrite fmap_cons in Hnodup. apply NoDup_cons in Hnodup as [Hd Hnodup].
  rewrite fmap_cons, !published_cons.
  apply elem_of_cons in Hin as [<-|Hin].
  - destruct (decide (Z.pos (id c) = Z.pos (id c))) as [_|?]; [|done].
    rewrite fmap_unchanged.
    + cbn [slug status set_updated_at set_status].
      repeat destruct (decide _); try lia; tauto.
    + apply Forall_forall. intros e He. rewrite decide_False; [done|].
      intros [= Heq]. apply Hd. rewrite <- Heq. by apply list_elem_of_fmap_2.
  - destruct (decide (Z.pos (id d) = Z.pos (id c))) as [[= Heq]|_].
    + exfalso. apply Hd. rewrite Heq. by apply list_elem_of_fmap_2.
    + specialize (IH Hnodup Hin). lia.
Qed.

(** Texts that print a number read back as that number, also without a
    radix. *)
Lemma digits_of_second (fuel : nat) :
  ∀ (n : Z) (acc : string),
    ∃ c rest, JS.digits_of fuel n acc = String c rest
              ∧ JS.is_digit c = true
              ∧ (rest = acc
                 ∨ ∃ c' rest', rest = String c' rest' ∧ JS.is_digit c' = true).
Proof.
  induction fuel as [|fuel IH]; intros n acc; cbn [JS.digits_of].
  - eexists _, _. split; [done|]. split; [|by left].
    apply digit_char_is_digit. apply Z.mod_pos_bound. lia.
  - destruct (n <? 10).
    + eexists _, _. split; [done|]. split; [|by left].
      apply digit_char_is_digit. apply Z.mod_pos_bound. lia.
    + destruct (IH (n / 10) (String (JS.digit_char (n mod 10)) acc))
        as (c & rest & -> & Hc & Hrest).
      exists c, rest. split; [done|]. split; [done|]. right.
      destruct Hrest as [->|Hrest]; [|done].
      eexists _, _. split; [done|].
      apply digit_char_is_digit. apply Z.mod_pos_bound. lia.
Qed.

Lemma parseInt_no_radix (n : Z) : JSNumber.parseInt (JS.toString n) = JS.Num n.
Proof.
  rewrite <- (parseInt_toString n). unfold JSNumber.parseInt, JS.parseInt.
  assert (∀ fuel m, ∃ c rest,
            JS.digits_of fuel m EmptyString = String c rest
            ∧ JS.is_digit c = true
            ∧ (match String c rest with
               | String "0" (String "x" r) => JSNumber.read_hex r None
               | String "0" (String "X" r) => JSNumber.read_hex r None
               | _ => JS.read_digits (String c rest) None
               end = JS.read_digits (String c rest) None)) as Hdigits.
  { intros fuel m.
    destruct (digits_of_second fuel m EmptyString) as (c & rest & -> & Hc & Hrest).
    exists c, rest. split; [done|]. split; [done|].
    destruct Hrest as [->|(c' & rest' & -> & Hc')]; [by destruct c as [[] [] [] [] [] [] [] []]|].
    destruct c as [[] [] [] [] [] [] [] []]; try done;
      destruct c' as [[] [] [] [] [] [] [] []]; done. }
  unfold JS.toString. destruct (n <? 0).
  - destruct (Hdigits (Z.to_nat (Z.log2 (- n))) (- n)) as (c & rest & -> & Hc & Heq).
    cbn [JS.trimStart JS.is_space]. 
    change (JS.is_space "-") with false. cbv iota. by rewrite Heq.
  - destruct (Hdigits (Z.to_nat (Z.log2 n)) n) as (c & rest & -> & Hc & Heq).
    destruct (digit_plain c Hc) as (Hsp & Hminus & Hplus).
    cbn [JS.trimStart]. rewrite Hsp.
    destruct c as [[] [] [] [] [] [] [] []]; try done; by rewrite Heq.
Qed.

(** X14: how the moderation routes read the id.  A parameter with no
    leading number is answered 400 and changes nothing.  Any other one is
    answered 200, also when no comment has the id it denotes, in which
    case no row changes.  The text of a comment's id denotes that id. *)
Theorem moderate_id (st : Status) (message : string) (now : Z)
  (idParam : string) (db : Database) :
  (JSNumber.parseInt idParam = JS.NaN →
   AdminRoute.moderate st message now idParam db = (AdminRoute.InvalidId, db))
  ∧ (∀ n, JSNumber.parseInt idParam = JS.Num n →
       AdminRoute.moderate st message now idParam db
       = (AdminRoute.Done message, (updateStatus now n st db).1)
       ∧ ((∀ c, c ∈ comments db → Z.pos (id c) ≠ n) →
          AdminRoute.moderate st message now idParam db
          = (AdminRoute.Done message, db)))
  ∧ (∀ c : Comment,
       AdminRoute.moderate st message now (JS.toString (Z.pos (id c))) db
       = (AdminRoute.Done message, (updateStatus now (Z.pos (id c)) st db).1)).
Proof.
  unfold AdminRoute.moderate. split; [by intros ->|]. split.
  - intros n ->. split; [done|]. intros Hnone. f_equal.
    unfold updateStatus. cbn [fst]. rewrite fmap_unchanged; [by destruct db|].
    apply Forall_forall. intros c Hc. by rewrite decide_False by auto.
  - intros c. by rewrite parseInt_no_radix.
Qed.

Lemma updateStatus_well_formed (now id0 : Z) (st : Status) (db : Database) :
  well_formed db → well_formed (updateStatus now id0 st db).1.
Proof.
  intros [Hsorted Hparents]. unfold well_formed. rewrite updateStatus_rows.
  set (f := λ c, if decide (Z.pos (id c) = id0)
                 then set_updated_at (Time.CURRENT_TIMESTAMP now) (set_status st c)
                 else c).
  assert (∀ c, id (f c) = id c ∧ parent_id (f c) = parent_id c) as Hf.
  { intros c. unfold f. by destruct (decide _). }
  assert (id <$> (f <$> comments db) = id <$> comments db) as Hids.
  { rewrite <- list_fmap_compose. apply list_fmap_ext. intros i c _. apply Hf. }
  split.
  - clear Hparents Hids. induction Hsorted as [|c rows _ IH Hall]; [constructor|].
    rewrite fmap_cons. constructor; [exact IH|].
    apply Forall_fmap. eapply Forall_impl; [exact Hall|].
    intros d Hd. cbn. destruct (Hf c) as [-> _]. by destruct (Hf d) as [-> _].
  - apply Forall_fmap. eapply Forall_impl; [exact Hparents|].
    intros c Hc p. cbn. destruct (Hf c) as [-> ->]. rewrite Hids. apply Hc.
Qed.

End StatusFacts.

Section ModerationFacts.
Import D1 CommentRepository CommentsRoute CommentQueries Moderation.
Variable hashString : string → string.

Lemma last_rowid_bound (rows : list Comment) :
  Forall (λ c, (Npos (id c) <= last_rowid rows)%N) rows.
Proof.
  induction rows as [|c rows IH]; [constructor|].
  unfold last_rowid in *. cbn [foldr]. constructor; [lia|].
  eapply Forall_impl; [exact IH|]. cbn. intros. lia.
Qed.

(** The id that [create] hands out is above every id of the table. *)
Lemma create_fresh (now : Z) (slug0 : string) (input : CreateCommentInput)
  (ipHash userAgent : string) (db db' : Database) (row : Comment) :
  create now slug0 input ipHash userAgent db = Some (db', row) →
  Forall (λ c, (id c < id row)%positive) (comments db)
  ∧ comments db' = comments db ++ [row]
  ∧ page_views db' = page_views db ∧ rate_limits db' = rate_limits db
  ∧ status row = pending
  ∧ slug row = slug0
  ∧ parent_id row = in_parent_id input
  ∧ content row = in_content input
  ∧ author_name row = in_author_name input
  ∧ user_agent row = userAgent
  ∧ ip_hash row = ipHash
  ∧ created_at row = Time.CURRENT_TIMESTAMP now
  ∧ updated_at row = Time.CURRENT_TIMESTAMP now
  ∧ (∀ p, parent_id row = Some p → p ∈ id <$> comments db).
Proof.
  unfold create.
  destruct (in_parent_id input) as [p|] eqn:Hp.
  - case_bool_decide as Hin; [|discriminate]. intros [= <- <-]. cbn.
    split.
    { eapply Forall_impl; [apply last_rowid_bound|]. cbn. intros. lia. }
    repeat split; try done. by intros ? [= <-].
  - intros [= <- <-]. cbn.
    split.
    { eapply Forall_impl; [apply last_rowid_bound|]. cbn. intros. lia. }
    repeat split; done.
Qed.

Lemma length_substring (m : nat) (s : string) :
  (String.length (String.substring 0 m s) <= m)%nat.
Proof.
  revert s. induction m as [|m IH]; intros [|c s]; cbn; try lia.
  specialize (IH s). lia.
Qed.

(** The row that a submission stores. *)
Lemma submitComment_row (now : Z) (req : Request) (db : Database) :
  match submitComment hashString now req db with
  | (Created c, db') =>
      comments db' = comments db ++ [c]
      ∧ page_views db' = page_views db ∧ rate_limits db' = rate_limits db
      ∧ Forall (λ c', (id c' < id c)%positive) (comments db)
      ∧ status c = verdict (data req)
      ∧ slug c = param_slug req
      ∧ author_name c = sanitizeHtml (in_author_name (data req))
      ∧ content c = sanitizeHtml (in_content (data req))
      ∧ parent_id c = in_parent_id (data req)
      ∧ JS.length (user_agent c) <= 500
      ∧ created_at c = Time.CURRENT_TIMESTAMP now
  | (_, db') => db' = db
  end.
Proof.
  unfold submitComment.
  destruct (negb (RateLimit.allowed _)); [done|].
  destruct (create _ _ _ _ _ _) as [[db1 row]|] eqn:Hcreate; [|done].
  apply create_fresh in Hcreate
    as (Hfresh & Hrows & Hpv & Hrl & Hst & Hslug & Hparent & Hcontent & Hname
        & Hua & _ & Hcreated & Hupdated & _).
  assert (JS.length (user_agent row) <= 500) as Hlen.
  { rewrite Hua. unfold JS.length.
    pose proof (length_substring 500
                  (JS.or_else (User_Agent req) EmptyString)) as H.
    lia. }
  unfold verdict. destruct (SpamFilter.isSpam _).
  - cbn [comments page_views rate_limits]. rewrite Hrows, fmap_app.
    cbn [fmap list_fmap]. rewrite bool_decide_eq_true_2 by done.
    assert (set_updated_at (Time.CURRENT_TIMESTAMP now) (set_status spam row)
            = set_status spam row) as ->.
    { unfold set_updated_at, set_status. cbn. by rewrite Hupdated. }
    rewrite fmap_unchanged.
    + cbn. repeat split; done.
    + eapply Forall_impl; [exact Hfresh|]. cbn. intros c' Hc'.
      rewrite bool_decide_eq_false_2; [done|]. intros Heq. rewrite Heq in Hc'. lia.
  - repeat split; done.
Qed.

(** X11: what a submission stores.  A submission answered 201 appends
    exactly one row, the comment it returns: its id is above every id of
    the table, its status is [spam] when [checkSpam] flags the submitted
    text and [pending] otherwise (never [approved]), its name and content
    are the escaped texts, its user agent is cut to 500 characters; the
    other rows are untouched.  A submission answered 429 or 500 stores
    nothing. *)
Theorem submitComment_stored (now : Z) (req : Request) (db : Database) :
  match submitComment hashString now req db with
  | (Created c, db') =>
      comments db' = comments db ++ [c]
      ∧ page_views db' = page_views db ∧ rate_limits db' = rate_limits db
      ∧ Forall (λ c', (id c' < id c)%positive) (comments db)
      ∧ status c = verdict (data req)
      ∧ slug c = param_slug req
      ∧ author_name c = sanitizeHtml (in_author_name (data req))
      ∧ content c = sanitizeHtml (in_content (data req))
      ∧ parent_id c = in_parent_id (data req)
      ∧ JS.length (user_agent c) <= 500
      ∧ created_at c = Time.CURRENT_TIMESTAMP now
  | (_, db') => db' = db
  end.
Proof. apply submitComment_row. Qed.

(** X12: a submission changes nothing of what the public reads.  After
    any submission, whatever it is answered, the approved rows of every
    slug, the comment list and the comment count are those of before: a
    comment is first seen when a moderator approves it. *)
Theorem submitComment_not_listed (now : Z) (req : Request) (db : Database)
  (slug0 : string) :
  approved_rows slug0 (submitComment hashString now req db).2
  = approved_rows slug0 db
  ∧ getBySlug slug0 (submitComment hashString now req db).2 = getBySlug slug0 db
  ∧ countBySlug slug0 (submitComment hashString now req db).2
    = countBySlug slug0 db
  ∧ CommentsRead.listComments slug0 (submitComment hashString now req db).2
    = CommentsRead.listComments slug0 db
  ∧ CommentsRead.countComments slug0 (submitComment hashString now req db).2
    = CommentsRead.countComments slug0 db.
Proof.
  assert (published slug0 (submitComment hashString now req db).2
          = published slug0 db) as Hsame.
  { pose proof (submitComment_row now req db) as H.
    destruct (submitComment hashString now req db) as [[|c|] db'];
      cbn [snd]; [by rewrite H| |by rewrite H].
    destruct H as (Hrows & _ & _ & _ & Hst & _).
    unfold published. rewrite Hrows, filter_app, filter_cons, filter_nil.
    rewrite decide_False; [by rewrite app_nil_r|].
    intros [_ Happroved]. rewrite Hst in Happroved. unfold verdict in Happroved.
    by destruct (SpamFilter.isSpam _). }
  unfold published in Hsame.
  unfold CommentsRead.listComments, CommentsRead.countComments, getBySlug,
    approved_rows, countBySlug.
  by rewrite Hsame.
Qed.

Lemma submitComment_well_formed (now : Z) (req : Request) (db : Database) :
  well_formed db → well_formed (submitComment hashString now req db).2.
Proof.
  intros [Hsorted Hparents].
  pose proof (submitComment_row now req db) as H.
  assert (∀ db' c, submitComment hashString now req db = (Created c, db') →
                   ∀ p, parent_id c = Some p → p ∈ id <$> comments db) as Hparent.
  { unfold submitComment. intros db' c.
    destruct (negb (RateLimit.allowed _)); [done|].
    destruct (create _ _ _ _ _ _) as [[db1 row]|] eqn:Hcreate; [|done].
    apply create_fresh in Hcreate as (_ & _ & _ & _ & _ & _ & _ & _ & _ & _ & _ & _ & _ & Hp).
    destruct (SpamFilter.isSpam _); intros [= <- _]; exact Hp. }
  destruct (submitComment hashString now req db) as [[|c|] db'];
    cbn [snd]; [by rewrite H| |by rewrite H].
  destruct H as (Hrows & _ & _ & Hfresh & _).
  specialize (Hparent db' c eq_refl).
  unfold well_formed. rewrite Hrows. split.
  - apply StronglySorted_app. split; [|split; [done|repeat constructor]].
    intros a b Ha Hb. apply list_elem_of_singleton in Hb as ->.
    by eapply Forall_forall in Hfresh.
  - apply Forall_app. split.
    + eapply Forall_impl; [exact Hparents|]. cbn. intros d Hd p Hp.
      destruct (Hd p Hp) as [? ?]. split; [done|].
      rewrite fmap_app. apply elem_of_app. by left.
    + constructor; [|constructor]. intros p Hp.
      specialize (Hparent p Hp). split.
      * apply list_elem_of_fmap in Hparent as (d & -> & Hd).
        by eapply Forall_forall in Hfresh.
      * rewrite fmap_app. apply elem_of_app. by left.
Qed.

Lemma sorted_ids_NoDup (rows : list Comment) :
  StronglySorted (λ a b, (id a < id b)%positive) rows → NoDup (id <$> rows).
Proof.
  induction 1 as [|c rows _ IH Hall]; [constructor|].
  rewrite fmap_cons. apply NoDup_cons. split; [|done].
  intros (d & Heq & Hd)%list_elem_of_fmap.
  eapply Forall_forall in Hall; [|exact Hd]. cbn in Hall. rewrite Heq in Hall. lia.
Qed.

(** X15: the table of comments stays well formed.  From the empty
    database, after any submissions and moderator decisions, the ids grow
    along the table (so no id is used twice), and every reply names a
    parent that is a row of the table with a smaller id than its own. *)
Theorem comments_well_formed (ops : list Op) :
  well_formed (run hashString ops D1.empty)
  ∧ NoDup (id <$> comments (run hashString ops D1.empty)).
Proof.
  assert (∀ db, well_formed db → well_formed (run hashString ops db)) as Hrun.
  { induction ops as [|op ops IH]; intros db Hdb; [done|].
    apply IH. destruct op as [now req|now p|now p]; cbn [step].
    - by apply submitComment_well_formed.
    - unfold AdminRoute.approve, AdminRoute.moderate.
      destruct (JSNumber.parseInt p); [|done].
      by apply updateStatus_well_formed.
    - unfold AdminRoute.reject, AdminRoute.moderate.
      destruct (JSNumber.parseInt p); [|done].
      by apply updateStatus_well_formed. }
  assert (well_formed D1.empty) as Hempty by (split; constructor).
  specialize (Hrun _ Hempty). split; [done|].
  apply sorted_ids_NoDup, Hrun.
Qed.

End ModerationFacts.

(** ** The comment list *)

Section ListingFacts.
Import D1 CommentRepository Threads CommentQueries CommentsRead Moderation Listing.

Lemma NoDup_ids_eq (rows : list Comment) (c d : Comment) :
  NoDup (id <$> rows) → c ∈ rows → d ∈ rows → id c = id d → c = d.
Proof.
  induction rows as [|e rows IH]; intros Hnodup Hc Hd Heq;
    [by apply elem_of_nil in Hc|].
  rewrite fmap_cons in Hnodup. apply NoDup_cons in Hnodup as [He Hnodup].
  apply elem_of_cons in Hc as [->|Hc]; apply elem_of_cons in Hd as [->|Hd].
  - done.
  - exfalso. apply He. rewrite Heq. by apply list_elem_of_fmap_2.
  - exfalso. apply He. rewrite <- Heq. by apply list_elem_of_fmap_2.
  - by apply IH.
Qed.

Lemma NoDup_ids_filter (P : Comment → Prop) `{!∀ c, Decision (P c)}
  (rows : list Comment) :
  NoDup (id <$> rows) → NoDup (id <$> filter P rows).
Proof.
  induction rows as [|e rows IH]; [done|].
  rewrite fmap_cons, filter_cons. intros [He Hnodup]%NoDup_cons.
  destruct (decide (P e)); [|by apply IH].
  rewrite fmap_cons. apply NoDup_cons. split; [|by apply IH].
  intros (d & Heq & Hd)%list_elem_of_fmap. apply He. rewrite Heq.
  apply list_elem_of_fmap_2. by apply list_elem_of_filter in Hd as [_ ?].
Qed.

(** The objects of [nestComments] when no id comes twice. *)
Lemma nest_objects (rows : list Comment) :
  NoDup (id <$> rows) →
  (nestComments rows).1 = roots_of rows
  ∧ ∀ c, c ∈ rows →
         (nestComments rows).2 !! id c
         = Some {| comment := c; replies := children_of rows (id c) |}.
Proof.
  intros Hnodup. unfold nestComments.
  set (commentMap :=
         fold_left (λ m c, <[id c := {| comment := c; replies := [] |}]> m)
           rows ∅).
  destruct (nest_loop rows [] commentMap) as [Hroots Hheap].
  assert (∀ p, is_Some (commentMap !! p) ↔ p ∈ id <$> rows) as Hdom.
  { intros p. subst commentMap.
    destruct (commentMap_lookup rows ∅ p) as [-> _].
    rewrite lookup_empty. split; [intros [H | [? [=]]]; exact H | auto]. }
  split.
  - rewrite Hroots. cbn [app]. unfold roots_of. f_equal.
    apply list_filter_iff. intros c. unfold is_root, resolves.
    destruct (parent_id c) as [parent |]; [| tauto].
    rewrite (bool_decide_ext _ _ (Hdom parent)).
    destruct (bool_decide (parent ∈ id <$> rows)); cbn; split; congruence.
  - intros c Hc. rewrite Hheap. subst commentMap.
    destruct (commentMap_lookup rows ∅ (id c)) as [_ Hnew].
    destruct (Hnew (list_elem_of_fmap_2 id _ _ Hc)) as (c' & Hc' & Hid & ->).
    by rewrite (NoDup_ids_eq rows c' c Hnodup Hc' Hc Hid).
Qed.

Lemma above_le (rows : list Comment) (x y : positive) :
  (x < y)%positive → (above rows y <= above rows x)%nat.
Proof.
  intros Hxy. unfold above. induction rows as [|d rows IH]; [done|].
  rewrite !filter_cons.
  destruct (decide (y < id d)%positive), (decide (x < id d)%positive);
    cbn [length]; lia.
Qed.

Lemma above_child (rows : list Comment) (x : positive) (c : Comment) :
  c ∈ rows → (x < id c)%positive → (above rows (id c) < above rows x)%nat.
Proof.
  intros Hc Hx. induction rows as [|d rows IH]; [by apply elem_of_nil in Hc|].
  pose proof (above_le rows x (id c) Hx) as Hle. unfold above in *.
  rewrite !filter_cons. apply elem_of_cons in Hc as [<-|Hc].
  - rewrite decide_False by lia. rewrite decide_True by done. cbn [length]. lia.
  - specialize (IH Hc).
    destruct (decide (id c < id d)%positive), (decide (x < id d)%positive);
      cbn [length]; lia.
Qed.

Lemma above_bound (rows : list Comment) (x : positive) :
  (above rows x <= length rows)%nat.
Proof. unfold above. apply length_filter. Qed.

(** Reading a thread comes to an end when replies have larger ids than
    their parents. *)
Lemma read_thread_total (rows : list Comment) :
  NoDup (id <$> rows) →
  Forall (λ c, ∀ p, parent_id c = Some p → (p < id c)%positive) rows →
  ∀ fuel c, c ∈ rows → (above rows (id c) < fuel)%nat →
    ∃ rs, read_thread fuel (nestComments rows).2 (id c) = Some (thread c rs).
Proof.
  intros Hnodup Hparents.
  destruct (nest_objects rows Hnodup) as [_ Hheap].
  induction fuel as [|fuel IH]; intros c Hc Hfuel; [lia|].
  cbn [read_thread]. rewrite (Hheap c Hc). cbn [replies comment].
  assert (is_Some (mapM (read_thread fuel (nestComments rows).2)
                     (children_of rows (id c)))) as [rs ->]; [|by eexists].
  apply mapM_is_Some_2. unfold children_of. apply Forall_fmap, Forall_forall.
  intros d [Hparent Hd]%list_elem_of_filter. cbn.
  eapply Forall_forall in Hparents; [|exact Hd]. specialize (Hparents _ Hparent).
  pose proof (above_child rows (id c) d Hd Hparents).
  destruct (IH d Hd) as [rs' ->]; [lia|done].
Qed.

Lemma nested_roots (rows : list Comment) :
  NoDup (id <$> rows) →
  Forall (λ c, ∀ p, parent_id c = Some p → (p < id c)%positive) rows →
  ∃ threads,
    nested rows = Some threads
    ∧ root <$> threads = filter (λ c, resolves rows c = false) rows.
Proof.
  intros Hnodup Hparents. unfold nested.
  destruct (nest_objects rows Hnodup) as [Hroots _].
  pose proof (read_thread_total rows Hnodup Hparents (S (length rows))) as Hread.
  destruct (nestComments rows) as [roots heap]. cbn [fst snd] in *.
  rewrite Hroots. unfold roots_of.
  assert (∀ l, l ⊆ rows →
            ∃ threads,
              Forall2 (λ x t, read_thread (S (length rows)) heap x = Some t)
                (id <$> l) threads
              ∧ root <$> threads = l) as Hall.
  { induction l as [|c l IH]; intros Hl; [exists []; by split; [constructor|]|].
    destruct (Hread c) as [rs Hc]; [apply Hl; left| |].
    { pose proof (above_bound rows (id c)). lia. }
    destruct IH as (threads & Hthreads & Htops).
    { intros d Hd. apply Hl. by right. }
    exists (thread c rs :: threads). split; [|by rewrite fmap_cons, Htops].
    rewrite fmap_cons. by constructor. }
  destruct (Hall (filter (λ c, resolves rows c = false) rows))
    as (threads & Hthreads & Htops).
  { intros c Hc. by apply list_elem_of_filter in Hc as [_ ?]. }
  exists threads. split; [by apply mapM_Some_2|done].
Qed.

(** The keys of the objects are the ids of the rows. *)
Lemma nest_keys (rows : list Comment) (x : positive) (node : CommentWithReplies) :
  (nestComments rows).2 !! x = Some node → ∃ c, c ∈ rows ∧ id c = x.
Proof.
  unfold nestComments.
  set (commentMap :=
         fold_left (λ m c, <[id c := {| comment := c; replies := [] |}]> m)
           rows ∅).
  destruct (nest_loop rows [] commentMap) as [_ Hheap].
  rewrite Hheap. intros Hnode.
  assert (is_Some (commentMap !! x)) as Hsome
    by (destruct (commentMap !! x); [eauto|done]).
  subst commentMap. destruct (commentMap_lookup rows ∅ x) as [Hdom Hnew].
  apply Hdom in Hsome as [Hin|[? Hempty]]; [|by rewrite lookup_empty in Hempty].
  destruct (Hnew Hin) as (c & Hc & Hid & _). eauto.
Qed.

Section Shown.
Variable rows : list Comment.
Hypothesis Hnodup : NoDup (id <$> rows).

(** What a read of the objects returns: the row of the id, over the
    reads of its children. *)
Lemma read_thread_node (fuel : nat) (x : positive) (t : Thread) :
  read_thread (S fuel) (nestComments rows).2 x = Some t →
  ∃ c rs, t = thread c rs ∧ c ∈ rows ∧ id c = x
          ∧ Forall2 (λ y r, read_thread fuel (nestComments rows).2 y = Some r)
              (children_of rows x) rs.
Proof.
  cbn [read_thread].
  destruct ((nestComments rows).2 !! x) as [node|] eqn:Hnode; [|done].
  destruct (nest_keys rows x node Hnode) as (c & Hc & <-).
  destruct (nest_objects rows Hnodup) as [_ Hheap].
  rewrite (Hheap c Hc) in Hnode. injection Hnode as <-. cbn [replies comment].
  destruct (mapM _ _) as [rs|] eqn:Hrs; [|done]. intros [= <-].
  exists c, rs. repeat split; [done|]. by apply mapM_Some_1.
Qed.

Lemma flat_head (t : Thread) : root t ∈ flat t.
Proof. destruct t. cbn. by left. Qed.

Lemma elem_of_flat (c : Comment) (rs : list Thread) (d : Comment) :
  d ∈ flat (thread c rs) ↔ d = c ∨ ∃ r, r ∈ rs ∧ d ∈ flat r.
Proof.
  cbn [flat]. rewrite elem_of_cons, list_elem_of_In, in_concat.
  split; (intros [?|(l & Hl & Hd)]; [by left|right]).
  - apply in_map_iff in Hl as (r & <- & Hr).
    exists r. by rewrite !list_elem_of_In.
  - exists (flat l). rewrite <- !list_elem_of_In.
    split; [|done]. apply list_elem_of_In, in_map. by apply list_elem_of_In.
Qed.

(** Every comment of a thread that was read is a row. *)
Lemma flat_rows (fuel : nat) :
  ∀ x t, read_thread fuel (nestComments rows).2 x = Some t →
         ∀ d, d ∈ flat t → d ∈ rows.
Proof.
  induction fuel as [|fuel IH]; intros x t Ht d Hd; [done|].
  apply read_thread_node in Ht as (c & rs & -> & Hc & _ & Hrs).
  apply elem_of_flat in Hd as [->|(r & Hr & Hd)]; [done|].
  apply list_elem_of_lookup in Hr as [i Hi].
  destruct (Forall2_lookup_r _ _ _ _ _ Hrs Hi) as (y & _ & Hy).
  by eapply IH.
Qed.

(** A thread that has a comment has the replies to it. *)
Lemma flat_replies (fuel : nat) :
  ∀ x t, read_thread fuel (nestComments rows).2 x = Some t →
         ∀ q d, q ∈ flat t → d ∈ rows → parent_id d = Some (id q) → d ∈ flat t.
Proof.
  induction fuel as [|fuel IH]; intros x t Ht q d Hq Hd Hparent; [done|].
  apply read_thread_node in Ht as (c & rs & -> & Hc & <- & Hrs).
  apply elem_of_flat. right.
  apply elem_of_flat in Hq as [->|(r & Hr & Hq)].
  - assert (id d ∈ children_of rows (id c)) as Hchild.
    { unfold children_of. apply list_elem_of_fmap_2.
      by apply list_elem_of_filter. }
    apply list_elem_of_lookup in Hchild as [i Hi].
    destruct (Forall2_lookup_l _ _ _ _ _ Hrs Hi) as (r & Hr & Hread).
    exists r. split; [by eapply list_elem_of_lookup_2|].
    destruct fuel as [|fuel]; [done|].
    apply read_thread_node in Hread as (d' & rs' & -> & Hd' & Hid & _).
    rewrite (NoDup_ids_eq rows d' d Hnodup Hd' Hd Hid). apply elem_of_flat. by left.
  - exists r. split; [done|].
    apply list_elem_of_lookup in Hr as [i Hi].
    destruct (Forall2_lookup_r _ _ _ _ _ Hrs Hi) as (y & _ & Hy).
    by eapply IH.
Qed.

End Shown.

(** Induction on threads. *)
Lemma Thread_ind_nested (P : Thread → Prop) :
  (∀ c replies, Forall P replies → P (thread c replies)) → ∀ t, P t.
Proof.
  intros Hthread. fix IH 1. intros [c replies]. apply Hthread.
  induction replies as [|r replies IHreplies]; constructor; [apply IH|exact IHreplies].
Qed.

Lemma addAvatarUrl_strip (t : Thread) : strip (addAvatarUrl t) = t.
Proof.
  induction t as [c replies IH] using Thread_ind_nested.
  cbn [addAvatarUrl strip]. f_equal. rewrite List.map_map.
  induction IH as [|r replies Hr _ IHreplies]; [done|].
  cbn [List.map]. by rewrite Hr, IHreplies.
Qed.

(** X16: [addAvatarUrl] adds the avatars and nothing else.  Taking the
    avatars off again gives the thread back, replies at every depth
    included, and every comment of the result carries the avatar address
    of its own email. *)
Theorem addAvatarUrl_thread (t : Thread) :
  strip (addAvatarUrl t) = t
  ∧ avatars_set (addAvatarUrl t) = true
  ∧ top (addAvatarUrl t) = root t.
Proof.
  split; [apply addAvatarUrl_strip|split; [|by destruct t]].
  induction t as [c replies IH] using Thread_ind_nested.
  cbn [addAvatarUrl avatars_set]. rewrite String.eqb_refl. cbn [andb].
  induction IH as [|r replies Hr _ IHreplies]; [done|].
  cbn [List.map forallb]. by rewrite Hr, IHreplies.
Qed.

Lemma filter_split {A} (f : A → bool) (l : list A) :
  (length (filter (λ c, f c = false) l) + length (filter (λ c, f c = true) l)
   = length l)%nat.
Proof.
  induction l as [|c l IH]; [done|]. rewrite !filter_cons.
  destruct (decide (f c = false)) as [Hf|Hf], (decide (f c = true)) as [Ht|Ht];
    cbn [length]; try lia.
  - congruence.
  - by destruct (f c).
Qed.

(** X17: what GET /:slug lists.  On a well-formed table the list is
    answered (never 500): its entries are, in the order of the query, the
    approved comments of the slug that are not replies to an approved
    comment of the slug.  The [total] it reports is the number of these
    top-level comments, which falls short of the count of GET
    /:slug/count by the number of replies. *)
Theorem listComments_top_level (slug0 : string) (db : Database) :
  well_formed db →
  ∃ comments,
    listComments slug0 db = Listed comments (Z.of_nat (length comments))
    ∧ top <$> comments
      = filter (λ c, resolves (approved_rows slug0 db) c = false)
          (approved_rows slug0 db)
    ∧ Z.of_nat (length comments)
      + Z.of_nat
          (length (filter (λ c, resolves (approved_rows slug0 db) c = true)
                     (approved_rows slug0 db)))
      = countBySlug slug0 db.
Proof.
  intros [Hsorted Hparents].
  assert (approved_rows slug0 db ≡ₚ published slug0 db) as Hperm
    by apply merge_sort_Permutation.
  destruct (nested_roots (approved_rows slug0 db)) as (threads & Hnested & Htops).
  { rewrite Hperm. apply NoDup_ids_filter, sorted_ids_NoDup, Hsorted. }
  { rewrite Hperm. apply Forall_forall. intros c [_ Hc]%list_elem_of_filter p Hp.
    eapply Forall_forall in Hparents; [|exact Hc]. by apply Hparents. }
  exists (List.map addAvatarUrl threads).
  unfold listComments. rewrite Hnested, !length_map. split; [done|].
  split.
  - rewrite <- Htops. clear. induction threads as [|t threads IH]; [done|].
    cbn [List.map]. rewrite !fmap_cons, IH. by destruct t.
  - rewrite countBySlug_length, <- Hperm.
    assert (length threads
            = length (filter (λ c, resolves (approved_rows slug0 db) c = false)
                        (approved_rows slug0 db))) as ->
      by (by rewrite <- Htops, length_fmap).
    pose proof (filter_split (resolves (approved_rows slug0 db))
                  (approved_rows slug0 db)). lia.
Qed.

(** The threads of [nested] hold the rows, and only them. *)
Lemma nested_flat (rows : list Comment) :
  NoDup (id <$> rows) →
  Forall (λ c, ∀ p, parent_id c = Some p → (p < id c)%positive) rows →
  ∃ threads,
    nested rows = Some threads
    ∧ ∀ d, (∃ t, t ∈ threads ∧ d ∈ flat t) ↔ d ∈ rows.
Proof.
  intros Hnodup Hparents.
  destruct (nested_roots rows Hnodup Hparents) as (threads & Hnested & Htops).
  exists threads. split; [done|].
  assert (Forall2 (λ x t, read_thread (S (length rows)) (nestComments rows).2 x
                          = Some t) (roots_of rows) threads) as Hread.
  { unfold nested in Hnested. destruct (nest_objects rows Hnodup) as [Hroots _].
    destruct (nestComments rows) as [roots heap]. cbn [fst snd] in *.
    rewrite <- Hroots. by apply mapM_Some_1. }
  assert (∀ t, t ∈ threads →
               ∃ x, read_thread (S (length rows)) (nestComments rows).2 x
                    = Some t) as Hthread.
  { intros t [i Hi]%list_elem_of_lookup.
    destruct (Forall2_lookup_r _ _ _ _ _ Hread Hi) as (x & _ & Hx). eauto. }
  intros d. split.
  - intros (t & Ht & Hd). destruct (Hthread t Ht) as [x Hx].
    by eapply flat_rows.
  - assert (∀ n d, (Pos.to_nat (id d) < n)%nat → d ∈ rows →
                   ∃ t, t ∈ threads ∧ d ∈ flat t) as Hall;
      [|intros Hd; apply (Hall (S (Pos.to_nat (id d)))); [lia|done]].
    clear d. induction n as [|n IH]; intros d Hn Hd; [lia|].
    destruct (resolves rows d) eqn:Hresolves.
    + unfold resolves in Hresolves.
      destruct (parent_id d) as [p|] eqn:Hparent; [|done].
      apply bool_decide_eq_true in Hresolves.
      apply list_elem_of_fmap in Hresolves as (q & -> & Hq).
      eapply Forall_forall in Hparents; [|exact Hd].
      specialize (Hparents _ Hparent).
      destruct (IH q) as (t & Ht & Hqt); [lia|done|].
      exists t. split; [done|]. destruct (Hthread t Ht) as [x Hx].
      by eapply flat_replies.
    + assert (d ∈ root <$> threads) as Hroot
        by (rewrite Htops; by apply list_elem_of_filter).
      apply list_elem_of_fmap in Hroot as (t & -> & Ht).
      exists t. split; [done|]. apply flat_head.
Qed.

(** X29: GET /:slug loses no comment.  On a well-formed table the
    comments of the list, the replies at every depth included, are the
    approved comments of the slug, each of them and no other. *)
Theorem listComments_complete (slug0 : string) (db : Database) :
  well_formed db →
  ∃ comments total,
    listComments slug0 db = Listed comments total
    ∧ ∀ c, c ∈ shown comments
           ↔ c ∈ D1.comments db ∧ slug c = slug0 ∧ status c = approved.
Proof.
  intros [Hsorted Hparents].
  assert (approved_rows slug0 db ≡ₚ published slug0 db) as Hperm
    by apply merge_sort_Permutation.
  destruct (nested_flat (approved_rows slug0 db)) as (threads & Hnested & Hflat).
  { rewrite Hperm. apply NoDup_ids_filter, sorted_ids_NoDup, Hsorted. }
  { rewrite Hperm. apply Forall_forall. intros c [_ Hc]%list_elem_of_filter p Hp.
    eapply Forall_forall in Hparents; [|exact Hc]. by apply Hparents. }
  exists (List.map addAvatarUrl threads), (Z.of_nat (length threads)).
  unfold listComments. rewrite Hnested. split; [done|]. intros c.
  assert (shown (List.map addAvatarUrl threads)
          = List.concat (List.map flat threads)) as ->.
  { unfold shown. rewrite List.map_map. f_equal. apply List.map_ext.
    intros t. by rewrite addAvatarUrl_strip. }
  rewrite list_elem_of_In, in_concat.
  transitivity (c ∈ approved_rows slug0 db).
  - rewrite <- Hflat. split.
    + intros (l & (t & <- & Ht)%in_map_iff & Hc).
      exists t. by rewrite !list_elem_of_In.
    + intros (t & Ht & Hc). exists (flat t).
      split; [|by apply list_elem_of_In]. apply in_map. by apply list_elem_of_In.
  - rewrite Hperm. unfold published. rewrite list_elem_of_filter. tauto.
Qed.

End ListingFacts.

(** ** Avatars and the verdict of the spam check *)

Section AvatarFacts.
Import Gravatar Listing.

Lemma append_inv_tail (s1 s2 t : string) :
  (s1 ++ t)%string = (s2 ++ t)%string → s1 = s2.
Proof.
  revert s2. induction s1 as [|a s1 IH]; intros [|b s2] H.
  - done.
  - exfalso. apply (f_equal JS.length) in H.
    rewrite append_nil_l, length_app, length_cons in H.
    unfold JS.length in H. lia.
  - exfalso. apply (f_equal JS.length) in H.
    rewrite append_nil_l, length_app, length_cons in H.
    unfold JS.length in H. lia.
  - rewrite !append_cons in H. injection H as -> H. f_equal. by apply IH.
Qed.

(** X18: the avatar address.  Without an email (null or the empty text)
    it is the address of the default image.  With an email it carries the
    email itself, in lower case and trimmed, and no digest of it; two
    emails get the same address exactly when they agree up to case and
    surrounding white space. *)
Theorem getGravatarUrl_email (c1 c2 : ascii) (e1 e2 : string) (size : Z)
  (defaultImage : string) :
  getGravatarUrl None size defaultImage
  = (GRAVATAR_BASE_URL ++ "?d=" ++ defaultImage ++ "&s=" ++ JS.toString size)%string
  ∧ getGravatarUrl (Some EmptyString) size defaultImage
    = getGravatarUrl None size defaultImage
  ∧ getGravatarUrl (Some (String c1 e1)) size defaultImage
    = (GRAVATAR_BASE_URL ++ "/" ++ normalized (String c1 e1) ++ "?d="
         ++ defaultImage ++ "&s=" ++ JS.toString size)%string
  ∧ (getGravatarUrl (Some (String c1 e1)) size defaultImage
     = getGravatarUrl (Some (String c2 e2)) size defaultImage
     ↔ normalized (String c1 e1) = normalized (String c2 e2))
  ∧ avatar None = "https://www.gravatar.com/avatar?d=identicon&s=48"%string.
Proof.
  split; [done|]. split; [done|]. split; [done|]. split; [|by vm_compute].
  unfold getGravatarUrl. fold (normalized (String c1 e1)).
  fold (normalized (String c2 e2)). split; [|by intros ->].
  intros H. apply String.app_inj in H.
  change ("/" ++ normalized (String c1 e1) ++ "?d=" ++ defaultImage ++ "&s="
            ++ JS.toString size)%string
    with (String "/" (normalized (String c1 e1) ++ "?d=" ++ defaultImage ++ "&s="
            ++ JS.toString size))%string in H.
  change ("/" ++ normalized (String c2 e2) ++ "?d=" ++ defaultImage ++ "&s="
            ++ JS.toString size)%string
    with (String "/" (normalized (String c2 e2) ++ "?d=" ++ defaultImage ++ "&s="
            ++ JS.toString size))%string in H.
  injection H as H. by apply append_inv_tail in H.
Qed.

End AvatarFacts.

Section VerdictFacts.
Import SpamFilter SpamScore.

Lemma isSpam_threshold (content authorName : string) :
  isSpam (checkSpam content authorName) = (3 <=? weighted_score content).
Proof.
  rewrite <- (score_weighted content authorName).
  unfold checkSpam. cbv zeta. by rewrite score_of_result, isSpam_of_result.
Qed.

Lemma reason_of_result (b : bool) (r : option string) (t : Z) :
  reason (if b then {| isSpam := true; reason := r; score := t |}
          else {| isSpam := false; reason := None; score := t |})
  = if b then r else None.
Proof. by destruct b. Qed.

Lemma scan_count_nonneg (icase : bool) (p : RegExp.pattern) (s : string) :
  0 <= RegExp.match_count icase p s.
Proof. unfold RegExp.match_count. lia. Qed.

(** X19: the verdict of [checkSpam] as a decision table.  A comment is
    spam exactly when it has two denylist keywords, or a suspicious link,
    or more than three links, or a link and fewer than ten characters of
    other text, or one keyword and a length outside 5..5000.  The reason
    is given exactly for spam, and the score is never negative. *)
Theorem checkSpam_verdict (content authorName : string) :
  (isSpam (checkSpam content authorName) = true
   ↔ 2 <= keyword_hits content
     ∨ suspicious content = true
     ∨ 3 < link_count content
     ∨ (1 <= link_count content
        ∧ JS.length (JS.trim (without_links content)) < 10)
     ∨ (keyword_hits content = 1
        ∧ (JS.length content < 5 ∨ 5000 < JS.length content)))
  ∧ reason (checkSpam content authorName)
    = (if isSpam (checkSpam content authorName) then Some SPAM_REASON else None)
  ∧ 0 <= score (checkSpam content authorName).
Proof.
  split; [|split].
  - rewrite isSpam_threshold.
    unfold weighted_score, keyword_weight, suspicious_weight, link_weight,
      length_weight, only_links_weight.
    assert (0 <= keyword_hits content) by (unfold keyword_hits; lia).
    pose proof (scan_count_nonneg false LINK_START content).
    fold (link_count content) in *.
    destruct (suspicious content);
      destruct (Z.ltb_spec 3 (link_count content));
      destruct (Z.ltb_spec (JS.length content) 5);
      destruct (Z.ltb_spec 5000 (JS.length content));
      destruct (Z.ltb_spec (JS.length (JS.trim (without_links content))) 10);
      destruct (Z.leb_spec 1 (link_count content));
      cbn [andb orb]; rewrite Z.leb_le; split; intros; try lia; auto;
      try (right; left; reflexivity).
  - unfold checkSpam. cbv zeta. by rewrite reason_of_result, isSpam_of_result.
  - rewrite score_weighted.
    unfold weighted_score, keyword_weight, suspicious_weight, link_weight,
      length_weight, only_links_weight.
    assert (0 <= keyword_hits content) by (unfold keyword_hits; lia).
    pose proof (scan_count_nonneg false LINK_START content).
    fold (link_count content) in *.
    destruct (suspicious content); destruct (Z.ltb_spec 3 (link_count content));
      repeat match goal with |- context [if ?b then _ else _] => destruct b end;
      lia.
Qed.

End VerdictFacts.

(** ** Batch parameters and limits *)

Section QueryFacts.
Import D1 PageViewRepository PageViewsRoute PageViewQueries BatchQuery Html.
Variable JSON_parse : string → option (gmap string JS.jsnum).

(** Splitting what was joined: a segment in front of a comma. *)
Lemma split_comma_segment (s rest : string) :
  comma_free s →
  split_comma (s ++ String "," rest) = s :: split_comma rest.
Proof.
  unfold comma_free, chars. induction s as [|c s IH]; intros Hs.
  - rewrite append_nil_l. cbn [split_comma]. done.
  - cbn [list_ascii_of_string] in Hs. apply Forall_cons in Hs as [Hc Hs].
    rewrite append_cons. cbn [split_comma].
    destruct (Ascii.eqb_spec c ",") as [->|_]; [done|].
    by rewrite (IH Hs).
Qed.

Lemma split_comma_last (s : string) : comma_free s → split_comma s = [s].
Proof.
  unfold comma_free, chars. induction s as [|c s IH]; intros Hs; [done|].
  cbn [list_ascii_of_string] in Hs. apply Forall_cons in Hs as [Hc Hs].
  cbn [split_comma]. destruct (Ascii.eqb_spec c ",") as [->|_]; [done|].
  by rewrite (IH Hs).
Qed.

Lemma split_comma_joined (s : string) (l : list string) :
  Forall comma_free (s :: l) → split_comma (String.concat "," (s :: l)) = s :: l.
Proof.
  revert s. induction l as [|s' l IH]; intros s [Hs Hl]%Forall_cons.
  - cbn [String.concat]. by apply split_comma_last.
  - change (String.concat "," (s :: s' :: l))
      with (s ++ String "," (String.concat "," (s' :: l)))%string.
    rewrite split_comma_segment by done. f_equal. by apply IH.
Qed.

Lemma split_comma_nonempty (p : string) : ∃ h t, split_comma p = h :: t.
Proof.
  destruct p as [|a p]; cbn [split_comma]; [by eexists _, _|].
  destruct (Ascii.eqb a ","); [by eexists _, _|].
  destruct (split_comma p); by eexists _, _.
Qed.

Lemma concat_cons_head (c : ascii) (h : string) (t : list string) :
  String.concat "," (String c h :: t) = String c (String.concat "," (h :: t)).
Proof. by destruct t. Qed.

Lemma concat_empty_head (h : string) (t : list string) :
  String.concat "," (EmptyString :: h :: t)
  = String "," (String.concat "," (h :: t)).
Proof. done. Qed.

(** X20: the slugs of GET /batch.  Joining the segments of a parameter
    with commas gives the parameter back, and no segment has a comma; a
    list of comma-free slugs joined with commas is split into that list
    again.  So the route serves, for such a list, the batch of its
    non-empty slugs; a parameter that is absent, empty or made of commas
    only names no slug and is answered 400. *)
Theorem split_comma_slugs (p : string) (s : string) (l : list string)
  (db : Database) (kv : KVNamespace) :
  String.concat "," (split_comma p) = p
  ∧ Forall comma_free (split_comma p)
  ∧ (Forall comma_free (s :: l) →
     split_comma (String.concat "," (s :: l)) = s :: l
     ∧ get_batch JSON_parse (Some (String.concat "," (s :: l))) db kv
       = getViewsBatch JSON_parse (filter (λ s, s ≠ EmptyString) (s :: l)) db kv)
  ∧ get_batch JSON_parse None db kv = (Invalid, [])
  ∧ get_batch JSON_parse (Some EmptyString) db kv = (Invalid, [])
  ∧ (Forall (λ c, c = ","%char) (chars p) →
     get_batch JSON_parse (Some p) db kv = (Invalid, [])).
Proof.
  split; [|split; [|split; [|split; [|split]]]].
  - induction p as [|c p IH]; [done|]. cbn [split_comma].
    destruct (split_comma_nonempty p) as (h & t & Hp). rewrite Hp in *.
    destruct (Ascii.eqb_spec c ",") as [->|Hc].
    + by rewrite concat_empty_head, IH.
    + by rewrite concat_cons_head, IH.
  - induction p as [|c p IH]; [by repeat constructor|]. cbn [split_comma].
    destruct (Ascii.eqb_spec c ",") as [->|Hc];
      [constructor; [constructor|exact IH]|].
    destruct (split_comma p) as [|h t].
    { constructor; [|constructor]. unfold comma_free, chars. cbn.
      by repeat constructor. }
    apply Forall_cons in IH as [Hh Ht]. constructor; [|done].
    unfold comma_free, chars in *. cbn. by constructor.
  - intros Hall. pose proof (split_comma_joined s l Hall) as Hsplit.
    split; [done|]. unfold get_batch. rewrite Hsplit.
    destruct (String.eqb_spec (String.concat "," (s :: l)) EmptyString) as [Heq|]; [|done].
    rewrite Heq in Hsplit. cbn in Hsplit. injection Hsplit as <- <-. done.
  - done.
  - done.
  - intros Hall. unfold get_batch.
    destruct (String.eqb p EmptyString); [done|].
    replace (filter (λ s, s ≠ EmptyString) (split_comma p)) with (@nil string); [done|].
    symmetry. unfold chars in Hall. induction p as [|c p IH]; [done|].
    cbn [list_ascii_of_string] in Hall. apply Forall_cons in Hall as [-> Hall].
    change (split_comma (String "," p)) with (EmptyString :: split_comma p).
    rewrite filter_cons. rewrite decide_False by (by intros H; apply H).
    by apply IH.
Qed.

End QueryFacts.

Section StoreQueries.
Import D1 PageViewRepository PageViewQueries.

(** X21: the batch query against the single query.  [getMany] has an
    entry for exactly the requested slugs that have a counter, each with
    the count that [get] returns, except for the slug [__proto__], whose
    count is lost in the assignment to the object: under [__proto__] it
    never has an entry.  For a requested slug without a counter it has no
    entry, where [get] returns 0.  Asking for no slug gives the empty
    object. *)
Theorem getMany_get (slugs : list string) (db : Database) (s : string) :
  (∀ n, getMany slugs db !! s = Some n →
        s ∈ slugs ∧ s ≠ "__proto__"%string
        ∧ is_Some (page_views db !! s) ∧ get s db = n)
  ∧ (s ∈ slugs → s ≠ "__proto__"%string →
     default 0 (getMany slugs db !! s) = get s db)
  ∧ (s ∈ slugs → page_views db !! s = None → getMany slugs db !! s = None)
  ∧ (s ∉ slugs → getMany slugs db !! s = None)
  ∧ getMany slugs db !! "__proto__"%string = None
  ∧ getMany [] db = ∅.
Proof.
  rewrite !getMany_lookup. unfold get.
  split; [|split; [|split; [|split; [|split; [|done]]]]].
  - intros n.
    destruct (decide (s ∈ slugs ∧ s ≠ "__proto__"%string)) as [[Hin Hs]|Hout];
      destruct (page_views db !! s) as [row|]; cbn; try done.
    by intros [= <-].
  - intros Hin Hs. rewrite decide_True by done.
    by destruct (page_views db !! s).
  - intros Hin ->. by destruct (decide (s ∈ slugs ∧ s ≠ "__proto__"%string)).
  - intros Hout. rewrite decide_False; [done|]. by intros [? _].
  - rewrite decide_False; [done|]. by intros [_ ?].
Qed.

Lemma toString_nonempty (n : Z) : JS.toString n ≠ EmptyString.
Proof.
  unfold JS.toString. destruct (n <? 0); [done|].
  by destruct (digits_of_head (Z.to_nat (Z.log2 n)) n EmptyString) as (c & r & -> & _).
Qed.

(** X22: the limit of GET /popular.  It is 10 when the parameter is
    absent or empty; a parameter that prints a number gives that number
    brought into 1..100; whenever the limit is a number it is within
    1..100 and [getPopular] returns at most 100 rows for it.  A parameter
    with no leading number leaves the limit [NaN]: the clamp does not
    repair it. *)
Theorem popularLimit_range (limitParam : option string) (db : Database) :
  match popularLimit limitParam with
  | JS.Num n => 1 <= n <= 100 ∧ (length (getPopular n db) <= 100)%nat
  | JS.NaN => JS.parseInt (JS.or_else limitParam "10") = JS.NaN
  end
  ∧ popularLimit None = JS.Num 10
  ∧ popularLimit (Some EmptyString) = JS.Num 10
  ∧ (∀ n, popularLimit (Some (JS.toString n)) = JS.Num (Z.min (Z.max n 1) 100))
  ∧ (popularLimit limitParam = JS.NaN
     ↔ JS.parseInt (JS.or_else limitParam "10") = JS.NaN).
Proof.
  split; [|split; [done|split; [done|split]]].
  - unfold popularLimit.
    destruct (JS.parseInt (JS.or_else limitParam "10")) as [n|]; [|done].
    cbn [JSNumber.Math_max JSNumber.Math_min]. split; [lia|].
    rewrite getPopular_length.
    unfold Ranking.limited. destruct (Z.ltb_spec (Z.min (Z.max n 1) 100) 0); lia.
  - intros n. unfold popularLimit, JS.or_else.
    destruct (String.eqb_spec (JS.toString n) EmptyString) as [H|_];
      [by apply toString_nonempty in H|].
    by rewrite parseInt_toString.
  - unfold popularLimit.
    by destruct (JS.parseInt (JS.or_else limitParam "10")).
Qed.

End StoreQueries.

(** ** Origins *)

Section CorsFacts.
Import Cors Origins Html.

(** A literal word in front of a continuation. *)
Lemma run_str (w : string) (k : string → option string) (s r : string) :
  RegExp.run false (RegExp.str w) k s = Some r
  ↔ ∃ rest, s = (w ++ rest)%string ∧ k rest = Some r.
Proof.
  revert s. induction w as [|a w IH]; intros s; cbn [RegExp.str RegExp.run].
  - split; [intros H; exists s; by rewrite append_nil_l|].
    intros (rest & -> & H). by rewrite append_nil_l.
  - destruct s as [|c s].
    + split; [done|]. intros (rest & H & _). by rewrite append_cons in H.
    + unfold RegExp.canon. cbn [andb].
      destruct (Ascii.eqb_spec a c) as [->|Hne].
      * rewrite IH. split; intros (rest & H & Hk); exists rest.
        -- by rewrite append_cons, H.
        -- rewrite append_cons in H. by injection H as ->.
      * split; [done|]. intros (rest & H & _). rewrite append_cons in H.
        by injection H as ->.
Qed.

Lemma label_chars_sound (k : string → option string) (s r : string) :
  label_chars k s = Some r →
  ∃ l rest, s = (l ++ rest)%string
            ∧ Forall (λ c, label_char c = true) (chars l) ∧ k rest = Some r.
Proof.
  induction s as [|c s IH]; cbn [label_chars]; intros H.
  - exists EmptyString, EmptyString. by repeat split; [constructor|].
  - destruct (label_char c) eqn:Hc.
    + destruct (label_chars k s) as [r'|] eqn:Hs.
      * injection H as <-. destruct (IH eq_refl) as (l & rest & -> & Hl & Hk).
        exists (String c l), rest. rewrite append_cons. split; [done|].
        split; [|done]. unfold chars. cbn. by constructor.
      * exists EmptyString, (String c s). rewrite append_nil_l.
        by repeat split; [constructor|].
    + exists EmptyString, (String c s). rewrite append_nil_l.
      by repeat split; [constructor|].
Qed.

Lemma label_chars_complete (k : string → option string) (l rest r : string) :
  Forall (λ c, label_char c = true) (chars l) → k rest = Some r →
  is_Some (label_chars k (l ++ rest)).
Proof.
  intros Hl Hk. induction l as [|c l IH].
  - rewrite append_nil_l. destruct rest as [|c rest]; cbn [label_chars]; [eauto|].
    destruct (label_char c); [|eauto]. destruct (label_chars k rest); eauto.
  - unfold chars in Hl. cbn in Hl. apply Forall_cons in Hl as [Hc Hl].
    rewrite append_cons. cbn [label_chars]. rewrite Hc.
    destruct (IH Hl) as [r' ->]. eauto.
Qed.

Lemma preview_label (o : string) :
  preview o = true ↔ ∃ l, label_text l ∧ o = preview_origin l.
Proof.
  unfold preview. rewrite bool_decide_eq_true. split.
  - intros [r Hr]. apply run_str in Hr as (rest & -> & Hr).
    unfold label in Hr. destruct rest as [|c rest]; [done|].
    destruct (label_char c) eqn:Hc; [|done].
    apply label_chars_sound in Hr as (l & rest' & -> & Hl & Hr).
    apply run_str in Hr as (rest2 & -> & Hr).
    destruct rest2; [|done].
    exists (String c l). split.
    + split; [done|]. unfold chars. cbn. by constructor.
    + unfold preview_origin. by rewrite append_nil_r, append_cons.
  - intros (l & [Hne Hl] & ->). unfold preview_origin.
    destruct l as [|c l]; [done|].
    unfold chars in Hl. cbn in Hl. apply Forall_cons in Hl as [Hc Hl].
    assert (is_Some (label_chars
                       (RegExp.run false (RegExp.str ".carols-blog.pages.dev") at_end)
                       (l ++ ".carols-blog.pages.dev"))) as [r Hr].
    { eapply label_chars_complete; [exact Hl|].
      apply run_str. exists EmptyString. by rewrite append_nil_r. }
    exists r. apply run_str. exists (String c l ++ ".carols-blog.pages.dev")%string.
    split; [done|]. rewrite append_cons. unfold label. by rewrite Hc.
Qed.

(** X23: the origins that CORS admits.  The check answers the origin
    itself or null.  It admits exactly the six listed origins and the
    [https] origins of the hosts made of one label of [a-z], [0-9] and
    [-] in front of [.carols-blog.pages.dev]; a request with no origin is
    not admitted. *)
Theorem cors_origin (o : string) :
  (origin o = Some o ∨ origin o = None)
  ∧ (origin o = Some o
     ↔ o ∈ allowedOrigins ∨ ∃ l, label_text l ∧ o = preview_origin l)
  ∧ origin EmptyString = None.
Proof.
  unfold origin. split; [|split; [|done]].
  - case_bool_decide; [by left|]. destruct (preview o); [by left|by right].
  - case_bool_decide as Hin; [by split; [left|]|].
    rewrite <- preview_label. destruct (preview o).
    + split; [by right|done].
    + split; [done|]. by intros [?|?].
Qed.

End CorsFacts.

(** ** Contributions *)

Section ContributionFacts.
Import Contributions HeatMapDays.

(** X24: the levels of the heat map.  [calculateLevel] is within 0..4, it
    is 0 exactly for a count of 0, it does not fall when a non-negative
    count grows, and its steps are at 1, 4, 7 and 10 contributions; a
    negative count gets level 1. *)
Theorem calculateLevel_steps (count : Z) :
  0 <= calculateLevel count <= 4
  ∧ (calculateLevel count = 0 ↔ count = 0)
  ∧ (∀ more, 0 <= count <= more → calculateLevel count <= calculateLevel more)
  ∧ (1 <= count <= 3 → calculateLevel count = 1)
  ∧ (4 <= count <= 6 → calculateLevel count = 2)
  ∧ (7 <= count <= 9 → calculateLevel count = 3)
  ∧ (10 <= count → calculateLevel count = 4)
  ∧ (count < 0 → calculateLevel count = 1).
Proof.
  assert (∀ n, (n = 0 ∧ calculateLevel n = 0)
               ∨ (n ≠ 0 ∧ n <= 3 ∧ calculateLevel n = 1)
               ∨ (4 <= n <= 6 ∧ calculateLevel n = 2)
               ∨ (7 <= n <= 9 ∧ calculateLevel n = 3)
               ∨ (10 <= n ∧ calculateLevel n = 4)) as Hcases.
  { intros n. unfold calculateLevel.
    destruct (Z.eqb_spec n 0); [lia|].
    destruct (Z.leb_spec n 3); [lia|].
    destruct (Z.leb_spec n 6); [lia|].
    destruct (Z.leb_spec n 9); lia. }
  pose proof (Hcases count) as Hcount.
  split; [lia|]. split; [lia|]. split; [|lia].
  intros more Hmore. pose proof (Hcases more). lia.
Qed.

Lemma fold_insert_lookup {A} (f : string → A) (keys : list string) :
  ∀ (m : gmap string A) (s : string),
    fold_left (λ m key, <[key := f key]> m) keys m !! s
    = if decide (s ∈ keys) then Some (f s) else m !! s.
Proof.
  induction keys as [|key keys IH]; intros m s; cbn [fold_left].
  - rewrite decide_False; [done|]. apply not_elem_of_nil.
  - rewrite IH. destruct (decide (s ∈ keys)) as [Hin|Hout].
    + rewrite decide_True; [done|]. by right.
    + destruct (decide (s = key)) as [->|Hne].
      * rewrite decide_True by left. by rewrite lookup_insert_eq.
      * rewrite decide_False; [by rewrite lookup_insert_ne|].
        intros [?|?]%elem_of_cons; done.
Qed.

Lemma elem_of_keys {A} (m : gmap string A) (s : string) :
  s ∈ (map_to_list m).*1 ↔ is_Some (m !! s).
Proof.
  rewrite list_elem_of_fmap. split.
  - intros ([k x] & -> & H). apply elem_of_map_to_list in H. by exists x.
  - intros [x H]. exists (s, x). split; [done|]. by apply elem_of_map_to_list.
Qed.

Lemma merged_lookup (githubData gitcodeData : gmap string Z)
  (date0 : string) :
  mergeContributions githubData gitcodeData !! date0
  = match githubData !! date0, gitcodeData !! date0 with
    | None, None => None
    | github, gitcode =>
        Some {| m_count := default 0 github + default 0 gitcode;
                m_github := default 0 github;
                m_gitcode := default 0 gitcode |}
    end.
Proof.
  unfold mergeContributions.
  rewrite (fold_insert_lookup
             (λ date, {| m_count := default 0 (githubData !! date)
                                    + default 0 (gitcodeData !! date);
                         m_github := default 0 (githubData !! date);
                         m_gitcode := default 0 (gitcodeData !! date) |})).
  destruct (decide _) as [Hin|Hout].
  - apply elem_of_remove_dups, elem_of_app in Hin.
    rewrite !elem_of_keys in Hin.
    destruct (githubData !! date0), (gitcodeData !! date0); try done.
    by destruct Hin as [[? [=]]|[? [=]]].
  - rewrite elem_of_remove_dups, elem_of_app, !elem_of_keys in Hout.
    destruct (githubData !! date0) eqn:?; [exfalso; apply Hout; eauto|].
    destruct (gitcodeData !! date0) eqn:?; [exfalso; apply Hout; eauto|].
    apply lookup_empty.
Qed.

(** The inner loop: the days of one week. *)
Lemma heatmap_days (mergedData : gmap string Merged) (startDate w : Z)
  (ds : list Z) :
  ∀ (week : list ContributionDay) (h : Heatmap),
    fold_left (heatmap_day mergedData startDate w) ds (week, h)
    = (week ++ ((λ d, day_entry mergedData (startDate + (w * 7 + d))) <$> ds),
       {| h_weeks := h_weeks h;
          h_total :=
            h_total h
            + sum_of count
                ((λ d, day_entry mergedData (startDate + (w * 7 + d))) <$> ds);
          h_githubTotal :=
            h_githubTotal h
            + sum_of githubCount
                ((λ d, day_entry mergedData (startDate + (w * 7 + d))) <$> ds);
          h_gitcodeTotal :=
            h_gitcodeTotal h
            + sum_of gitcodeCount
                ((λ d, day_entry mergedData (startDate + (w * 7 + d))) <$> ds) |}).
Proof.
  induction ds as [|d ds IH]; intros week h; cbn [fold_left].
  - rewrite app_nil_r, fmap_nil. cbn [sum_of foldr]. rewrite !Z.add_0_r.
    by destruct h.
  - change (heatmap_day mergedData startDate w (week, h) d)
      with (week ++ [day_entry mergedData (startDate + (w * 7 + d))],
            {| h_weeks := h_weeks h;
               h_total :=
                 h_total h
                 + count (day_entry mergedData (startDate + (w * 7 + d)));
               h_githubTotal :=
                 h_githubTotal h
                 + githubCount (day_entry mergedData (startDate + (w * 7 + d)));
               h_gitcodeTotal :=
                 h_gitcodeTotal h
                 + gitcodeCount (day_entry mergedData (startDate + (w * 7 + d))) |}).
    rewrite IH. cbn [h_weeks h_total h_githubTotal h_gitcodeTotal].
    rewrite fmap_cons, <- app_assoc. cbn [app sum_of foldr].
    f_equal. f_equal; unfold sum_of; lia.
Qed.

Lemma sum_of_app (f : ContributionDay → Z) (l1 l2 : list ContributionDay) :
  sum_of f (l1 ++ l2) = sum_of f l1 + sum_of f l2.
Proof.
  unfold sum_of. induction l1 as [|d l1 IH]; cbn [app foldr]; [lia|].
  rewrite IH. lia.
Qed.

(** The outer loop: the weeks. *)
Lemma heatmap_weeks (mergedData : gmap string Merged) (startDate : Z)
  (ws : list Z) :
  ∀ h : Heatmap,
    fold_left (heatmap_week mergedData startDate) ws h
    = {| h_weeks :=
           h_weeks h
           ++ ((λ w, (λ d, day_entry mergedData (startDate + (w * 7 + d)))
                       <$> seqZ 0 7) <$> ws);
         h_total :=
           h_total h
           + sum_of count
               (concat ((λ w, (λ d, day_entry mergedData (startDate + (w * 7 + d)))
                                <$> seqZ 0 7) <$> ws));
         h_githubTotal :=
           h_githubTotal h
           + sum_of githubCount
               (concat ((λ w, (λ d, day_entry mergedData (startDate + (w * 7 + d)))
                                <$> seqZ 0 7) <$> ws));
         h_gitcodeTotal :=
           h_gitcodeTotal h
           + sum_of gitcodeCount
               (concat ((λ w, (λ d, day_entry mergedData (startDate + (w * 7 + d)))
                                <$> seqZ 0 7) <$> ws)) |}.
Proof.
  induction ws as [|w ws IH]; intros h; cbn [fold_left].
  - rewrite fmap_nil, app_nil_r. cbn [concat sum_of foldr]. rewrite !Z.add_0_r.
    by destruct h.
  - unfold heatmap_week at 2. rewrite heatmap_days. rewrite IH.
    cbn [h_weeks h_total h_githubTotal h_gitcodeTotal app].
    rewrite fmap_cons, <- app_assoc. cbn [app concat].
    rewrite !sum_of_app. f_equal; lia.
Qed.

(** The days of the weeks, one after the other. *)
Lemma week_days_flat (entry : Z → ContributionDay) (startDate : Z)
  (ds ws : list Z) :
  concat ((λ w, (λ d, entry (startDate + (w * 7 + d))) <$> ds) <$> ws)
  = (λ i, entry (startDate + i))
      <$> concat ((λ w, (λ d, w * 7 + d) <$> ds) <$> ws).
Proof.
  induction ws as [|w ws IH]; [done|].
  rewrite !fmap_cons. cbn [concat]. rewrite fmap_app, IH. f_equal.
  by rewrite <- list_fmap_compose.
Qed.

Lemma week_offsets :
  concat ((λ w, (λ d, w * 7 + d) <$> seqZ 0 7) <$> seqZ 0 52) = seqZ 0 364.
Proof. by vm_compute. Qed.

Lemma heatmap_closed_form (today finished : Z)
  (mergedData : gmap string Merged) :
  length (weeks (generateHeatmapData today finished mergedData)) = 52%nat
  ∧ Forall (λ week, length week = 7%nat)
      (weeks (generateHeatmapData today finished mergedData))
  ∧ concat (weeks (generateHeatmapData today finished mergedData))
    = day_entry mergedData <$> days today
  ∧ head (days today) = Some (day_of today - 364)
  ∧ last (days today) = Some (day_of today - 1)
  ∧ total (generateHeatmapData today finished mergedData)
    = sum_of count (day_entry mergedData <$> days today)
  ∧ githubTotal (generateHeatmapData today finished mergedData)
    = sum_of githubCount (day_entry mergedData <$> days today)
  ∧ gitcodeTotal (generateHeatmapData today finished mergedData)
    = sum_of gitcodeCount (day_entry mergedData <$> days today)
  ∧ updatedAt (generateHeatmapData today finished mergedData)
    = Time.toISOString finished.
Proof.
  unfold generateHeatmapData. rewrite heatmap_weeks.
  cbn [weeks total githubTotal gitcodeTotal updatedAt h_weeks h_total
         h_githubTotal h_gitcodeTotal app].
  fold (day_of today).
  assert (concat
            ((λ w, (λ d, day_entry mergedData (day_of today - 52 * 7 + (w * 7 + d)))
                     <$> seqZ 0 7) <$> seqZ 0 52)
          = day_entry mergedData <$> days today) as Hdays.
  { rewrite (week_days_flat (day_entry mergedData)), week_offsets.
    unfold days. rewrite <- list_fmap_compose.
    apply list_fmap_ext; intros i x _; cbn; f_equal; lia. }
  rewrite Hdays.
  split; [by rewrite length_fmap, length_seqZ|].
  split.
  { apply Forall_fmap, Forall_forall. intros w _. cbn.
    by rewrite length_fmap, length_seqZ. }
  split; [done|]. split.
  { unfold days. rewrite seqZ_cons by lia. rewrite fmap_cons. cbn [head].
    f_equal. lia. }
  split; [|split; [|split; [|split]]];
    [|apply Z.add_0_l|apply Z.add_0_l|apply Z.add_0_l|reflexivity].
  unfold days. rewrite fmap_last.
  replace (last (seqZ 0 364)) with (Some 363) by (by vm_compute).
  cbn. f_equal. lia.
Qed.

(** X25: what [mergeContributions] holds.  It has an entry for exactly
    the dates that one of the two sources has; the entry carries the
    count of each source, 0 for a source that lacks the date, and their
    sum. *)
Theorem mergeContributions_entries (githubData gitcodeData : gmap string Z)
  (date0 : string) :
  mergeContributions githubData gitcodeData !! date0
  = match githubData !! date0, gitcodeData !! date0 with
    | None, None => None
    | github, gitcode =>
        Some {| m_count := default 0 github + default 0 gitcode;
                m_github := default 0 github;
                m_gitcode := default 0 gitcode |}
    end.
Proof. apply merged_lookup. Qed.

(** X26: the heat map is the last 364 days, today left out.  It has 52
    weeks of 7 days; read week after week, its entries are those of the
    days from 364 days before the day of the clock up to the day before
    it, each with the counts of the merged map at its date (zeros when
    the map has none) and the level of its count; the three totals are
    the sums over these entries. *)
Theorem generateHeatmapData_days (today finished : Z)
  (mergedData : gmap string Merged) :
  length (weeks (generateHeatmapData today finished mergedData)) = 52%nat
  ∧ Forall (λ week, length week = 7%nat)
      (weeks (generateHeatmapData today finished mergedData))
  ∧ concat (weeks (generateHeatmapData today finished mergedData))
    = day_entry mergedData <$> days today
  ∧ head (days today) = Some (day_of today - 364)
  ∧ last (days today) = Some (day_of today - 1)
  ∧ total (generateHeatmapData today finished mergedData)
    = sum_of count (day_entry mergedData <$> days today)
  ∧ githubTotal (generateHeatmapData today finished mergedData)
    = sum_of githubCount (day_entry mergedData <$> days today)
  ∧ gitcodeTotal (generateHeatmapData today finished mergedData)
    = sum_of gitcodeCount (day_entry mergedData <$> days today)
  ∧ updatedAt (generateHeatmapData today finished mergedData)
    = Time.toISOString finished.
Proof. apply heatmap_closed_form. Qed.

Lemma sums_add (l : list ContributionDay) :
  Forall (λ d, count d = githubCount d + gitcodeCount d) l →
  sum_of count l = sum_of githubCount l + sum_of gitcodeCount l.
Proof.
  unfold sum_of. induction 1 as [|d l Hd _ IH]; cbn [foldr]; [done|]. lia.
Qed.

(** X27: the totals of the merged heat map add up.  For the map that
    [mergeContributions] makes of the two sources, every day of the heat
    map has the count of each source at its date (0 when the source has
    none), their sum as its count and the level of that sum, and the
    total is the GitHub total plus the GitCode total. *)
Theorem heatmap_totals (today finished : Z)
  (githubData gitcodeData : gmap string Z) :
  Forall
    (λ d, githubCount d = default 0 (githubData !! date d)
          ∧ gitcodeCount d = default 0 (gitcodeData !! date d)
          ∧ count d = githubCount d + gitcodeCount d
          ∧ level d = calculateLevel (count d))
    (concat (weeks (generateHeatmapData today finished
                      (mergeContributions githubData gitcodeData))))
  ∧ total (generateHeatmapData today finished
             (mergeContributions githubData gitcodeData))
    = githubTotal (generateHeatmapData today finished
                     (mergeContributions githubData gitcodeData))
      + gitcodeTotal (generateHeatmapData today finished
                        (mergeContributions githubData gitcodeData)).
Proof.
  destruct (heatmap_closed_form today finished
              (mergeContributions githubData gitcodeData))
    as (_ & _ & -> & _ & _ & -> & -> & -> & _).
  assert (Forall
            (λ d, githubCount d = default 0 (githubData !! date d)
                  ∧ gitcodeCount d = default 0 (gitcodeData !! date d)
                  ∧ count d = githubCount d + gitcodeCount d
                  ∧ level d = calculateLevel (count d))
            (day_entry (mergeContributions githubData gitcodeData) <$> days today))
    as Hdays.
  { apply Forall_fmap, Forall_forall. intros day _. unfold day_entry. cbn.
    rewrite merged_lookup.
    by destruct (githubData !! Time.date_text day),
         (gitcodeData !! Time.date_text day). }
  split; [exact Hdays|]. apply sums_add.
  eapply Forall_impl; [exact Hdays|]. cbn. tauto.
Qed.

Lemma string_compare_refl (s : string) : String.compare s s = Eq.
Proof. induction s as [|c s IH]; [done|]. by rewrite compare_cons_same. Qed.

Lemma date_text_inj (a b : Z) :
  covered_day a → covered_day b → Time.date_text a = Time.date_text b → a = b.
Proof.
  intros Ha Hb Heq.
  pose proof (date_text_compare a b EmptyString EmptyString Ha Hb) as Hcmp.
  rewrite Heq in Hcmp.
  rewrite string_compare_refl in Hcmp.
  destruct (Z.compare_spec a b); [done|done|done].
Qed.

(** X28: the dates of the heat map.  Within the years that the calendar
    covers, the 364 dates of the heat map are all different, and the date
    of the day of the clock is not among them: the contributions of today
    are not shown and not counted in the totals. *)
Theorem heatmap_without_today (today finished : Z)
  (mergedData : gmap string Merged) :
  covered_day (day_of today - 364) → covered_day (day_of today) →
  NoDup (date <$> concat (weeks (generateHeatmapData today finished mergedData)))
  ∧ ¬ (Time.date_text (day_of today)
       ∈ date <$> concat (weeks (generateHeatmapData today finished mergedData)))
  ∧ last (date <$> concat (weeks (generateHeatmapData today finished mergedData)))
    = Some (Time.date_text (day_of today - 1)).
Proof.
  intros Hfirst Htoday.
  destruct (heatmap_closed_form today finished mergedData)
    as (_ & _ & -> & _ & Hlast & _).
  rewrite <- list_fmap_compose.
  assert (∀ day, day ∈ days today → day_of today - 364 <= day < day_of today)
    as Hrange.
  { unfold days. intros day (i & -> & Hi)%list_elem_of_fmap.
    apply elem_of_seqZ in Hi. lia. }
  unfold covered_day in *. split; [|split].
  - apply NoDup_fmap_2_strong.
    + intros a b Ha Hb. cbn. apply date_text_inj; unfold covered_day.
      * apply Hrange in Ha. lia.
      * apply Hrange in Hb. lia.
    + unfold days. apply NoDup_fmap_2; [|apply NoDup_seqZ]. intros ???; lia.
  - intros (day & Heq & Hday)%list_elem_of_fmap. cbn in Heq.
    apply Hrange in Hday. apply date_text_inj in Heq; unfold covered_day; lia.
  - by rewrite fmap_last, Hlast.
Qed.

End ContributionFacts.

(** ** Further worked cases *)

Section FurtherCases.
Import D1 Scenario Cases.

(** A second visit 299 seconds after the counted one is denied and
    leaves the database as it was; at 300 seconds it is admitted. *)
Lemma checkRateLimit_window_example :
  PageViewsRoute.checkRateLimit (noon + 299000) visited.1 (plain "203.0.113.7") "post"
  = (visited.1,
     {| PageViewsRoute.allowed := false; PageViewsRoute.remaining := 0 |})
  ∧ PageViewsRoute.allowed
      (PageViewsRoute.checkRateLimit (noon + 300000) visited.1
         (plain "203.0.113.7") "post").2 = true.
Proof.
  split.
  - rewrite (checkRateLimit_window (noon + 299000) (noon / 1000) visited.1
               (plain "203.0.113.7") "post");
      [reflexivity | split; by vm_compute | split; by vm_compute | by vm_compute].
  - rewrite (checkRateLimit_window (noon + 300000) (noon / 1000) visited.1
               (plain "203.0.113.7") "post");
      [reflexivity | split; by vm_compute | split; by vm_compute | by vm_compute].
Defined.

(** Rejecting the approved reply takes it out of the count of ["post"]. *)
Lemma updateStatus_count_example :
  CommentQueries.countBySlug "post" thread_db = 2
  ∧ CommentQueries.countBySlug "post"
      (CommentQueries.updateStatus (noon + 180000) 2 rejected thread_db).1 = 1.
Proof.
  split; [by vm_compute|].
  destruct (comments thread_db !! 1%nat) as [c|] eqn:Hc; [|by vm_compute in Hc].
  assert (id c = 2%positive ∧ slug c = "post"%string ∧ status c = approved)
    as (Hid & Hslug & Hstatus)
    by (vm_compute in Hc; injection Hc as <-; by vm_compute).
  pose proof (updateStatus_count (noon + 180000) rejected thread_db c "post") as H.
  rewrite Hid, Hslug, Hstatus in H. rewrite H.
  - by vm_compute.
  - apply (bool_decide_unpack _). by vm_compute.
  - by eapply list_elem_of_lookup_2.
Defined.

Lemma thread_db_well_formed : Moderation.well_formed thread_db.
Proof.
  unfold Moderation.well_formed.
  destruct (comments thread_db) as [|c1 [|c2 [|c3 rows]]] eqn:Hrows;
    [vm_compute in Hrows; discriminate | vm_compute in Hrows; discriminate
     | | vm_compute in Hrows; discriminate].
  vm_compute in Hrows. injection Hrows as <- <-. split.
  - repeat constructor.
  - apply Forall_cons. split; [intros p [=]|].
    apply Forall_cons. split; [|constructor].
    intros p [= <-]. split; [done|]. apply elem_of_cons. by left.
Qed.

(** The thread of the remark and its reply: one entry in the list, the
    remark, and a total of 1, where the count is 2. *)
Lemma listComments_top_level_example :
  ∃ comments,
    CommentsRead.listComments "post" thread_db = CommentsRead.Listed comments 1
    ∧ id <$> (Listing.top <$> comments) = [1%positive]
    ∧ CommentQueries.countBySlug "post" thread_db = 2.
Proof.
  destruct (listComments_top_level "post" thread_db thread_db_well_formed)
    as (comments & Hlist & Htop & Hcount).
  exists comments. split; [|split; [|by vm_compute]].
  - rewrite Hlist. f_equal. apply (f_equal length) in Htop.
    rewrite length_fmap in Htop. rewrite Htop. by vm_compute.
  - rewrite Htop. by vm_compute.
Defined.

(** The list of ["post"] shows the remark and the reply to it. *)
Lemma listComments_complete_example :
  ∃ comments total,
    CommentsRead.listComments "post" thread_db
    = CommentsRead.Listed comments total
    ∧ Forall (λ c, c ∈ Listing.shown comments) (D1.comments thread_db).
Proof.
  destruct (listComments_complete "post" thread_db thread_db_well_formed)
    as (comments & total & Hlist & Hshown).
  exists comments, total. split; [exact Hlist|].
  assert (Forall (λ c, slug c = "post"%string ∧ status c = approved)
            (D1.comments thread_db)) as Hall
    by (apply (bool_decide_unpack _); vm_compute; exact I).
  apply Forall_forall. intros c Hc. apply Hshown. split; [exact Hc|].
  exact (proj1 (Forall_forall _ _) Hall c Hc).
Defined.

(** At noon of 2026-11-01 the heat map ends with 2026-10-31. *)
Lemma heatmap_without_today_example :
  last (Contributions.date
          <$> concat (Contributions.weeks
                        (Contributions.generateHeatmapData noon noon ∅)))
  = Some "2026-10-31"%string.
Proof.
  destruct (heatmap_without_today noon noon ∅) as (_ & _ & ->).
  - split; by vm_compute.
  - split; by vm_compute.
  - by vm_compute.
Defined.

End FurtherCases.
